(** * cpcp: a concurrent recursive copy

    A shallow embedding of [cpcp.go] (package [cpcp]): the driver [CPCP], the
    worker loop [copier], the Task Object pool and the Work Queue, together
    with the properties of the copy engine that the specification states.

    Layout of the development:
    - file modes, errors and file metadata as the [os] package presents them;
    - the configuration record and [fmtErr];
    - straight-line code that talks to the file system, written in a small
      free monad [prog] whose runs record every call and its answer;
    - the engine as a labelled transition system over the two channels, the
      Task Objects they carry, the WaitGroup counter, the workers and the
      driver;
    - invariants of the reachable states, the progress measure, and the
      theorems. *)

From Stdlib Require Import ZArith List String Ascii Lia Bool DecimalString HexadecimalString.
From Stdlib Require DecimalZ.
From stdpp Require Import base tactics option list.
Import ListNotations.

Local Open Scope string_scope.
Local Open Scope Z_scope.

Set Default Proof Using "Type".
#[local] Set Warnings "-register-all".

(** ** File modes ([os.FileMode], an unsigned 32-bit integer) *)

Module FileMode.

Definition t := Z.

(** The type bits of [os.FileMode]; bit 31 is the most significant one. *)
Definition ModeDir : t := Z.shiftl 1 31.
Definition ModeSymlink : t := Z.shiftl 1 27.
Definition ModeDevice : t := Z.shiftl 1 26.
Definition ModeNamedPipe : t := Z.shiftl 1 25.
Definition ModeSocket : t := Z.shiftl 1 24.
Definition ModeCharDevice : t := Z.shiftl 1 21.
Definition ModeIrregular : t := Z.shiftl 1 19.

Definition ModeType : t :=
  Z.lor ModeDir (Z.lor ModeSymlink (Z.lor ModeNamedPipe (Z.lor ModeSocket
    (Z.lor ModeDevice (Z.lor ModeCharDevice ModeIrregular))))).

Definition ModePerm : t := 511.

(** [m.IsDir()] is [m&ModeDir != 0]; [m.IsRegular()] is [m&ModeType == 0]. *)
Definition IsDir (m : t) : bool := negb (Z.land m ModeDir =? 0).
Definition IsRegular (m : t) : bool := Z.land m ModeType =? 0.

(** The third test of the worker's dispatch, [cpcp.go] line 394:
    [srcfi.Mode()|os.ModeSymlink != 0]. *)
Definition symlinkTest (m : t) : bool := negb (Z.lor m ModeSymlink =? 0).

(** What a test of the symlink bit alone would be: [m&ModeSymlink != 0]. *)
Definition hasSymlinkBit (m : t) : bool := negb (Z.land m ModeSymlink =? 0).

Definition wf (m : t) : Prop := 0 <= m < 2 ^ 32.

End FileMode.

(** ** Errors and file metadata *)

(** The code inspects an error in three ways only: [os.IsExist], [os.IsNotExist]
    and comparison with [io.EOF]; apart from that it prints [err.Error()]. *)
Inductive errKind := KEOF | KNotExist | KExist | KOther.

Record error := mkError { err_Error : string; err_kind : errKind }.

Definition io_EOF : error := mkError "EOF" KEOF.

Definition os_IsExist (e : error) : bool :=
  match err_kind e with KExist => true | _ => false end.
Definition os_IsNotExist (e : error) : bool :=
  match err_kind e with KNotExist => true | _ => false end.
Definition is_EOF (e : error) : bool :=
  match err_kind e with KEOF => true | _ => false end.

(** A Go call returning [(T, error)]. *)
Inductive result (A : Type) := Ok (a : A) | Err (e : error).
Arguments Ok {A} a.
Arguments Err {A} e.

(** [os.FileInfo] as the code uses it: [Name()], [Mode()] and [IsDir()].

    The source tree is read by the walk and not written by it. The entries a
    directory lists are therefore kept with its metadata ([Entries]); they are
    what [Readdir] hands out, batch by batch, once the directory is opened. *)
Inductive FileInfo := mkFileInfo (name : string) (mode : FileMode.t) (entries : list FileInfo).

Definition Name (fi : FileInfo) : string := let (n, _, _) := fi in n.
Definition Mode (fi : FileInfo) : FileMode.t := let (_, m, _) := fi in m.
Definition Entries (fi : FileInfo) : list FileInfo := let (_, _, l) := fi in l.
Definition IsDir (fi : FileInfo) : bool := FileMode.IsDir (Mode fi).

(** ** Configuration *)

Record config := mkConfig {
  verbosity : Z;
  noDereference : bool;
  recursive : bool;
  messageBuffer : Z;
  errBuffer : Z;
  parallelTasks : Z;
  readdirBuffer : Z;
  copyBuffer : Z;
  umask : FileMode.t;
  preserveLinks : bool;
  preserveMode : bool
}.

Definition set_umask (u : FileMode.t) (c : config) : config :=
  mkConfig (verbosity c) (noDereference c) (recursive c) (messageBuffer c)
    (errBuffer c) (parallelTasks c) (readdirBuffer c) (copyBuffer c) u
    (preserveLinks c) (preserveMode c).

Definition set_preserveLinks (b : bool) (c : config) : config :=
  mkConfig (verbosity c) (noDereference c) (recursive c) (messageBuffer c)
    (errBuffer c) (parallelTasks c) (readdirBuffer c) (copyBuffer c) (umask c)
    b (preserveMode c).

Definition set_preserveMode (b : bool) (c : config) : config :=
  mkConfig (verbosity c) (noDereference c) (recursive c) (messageBuffer c)
    (errBuffer c) (parallelTasks c) (readdirBuffer c) (copyBuffer c) (umask c)
    (preserveLinks c) b.

(** The closure [setPreserve] of [parseArgs], lines 173-190, on the list that
    [strings.Split(arg, ",")] returns, and returning the configuration it
    updates in place. *)
Inductive preserveError := UnsupportedPreserve (spec : string).

Fixpoint setPreserve (preserves : list string) (cfg : config) : preserveError + config :=
  match preserves with
  | [] => inr cfg
  | preserve :: rest =>
      if String.eqb preserve "" then setPreserve rest cfg
      else if String.eqb preserve "links" then
        setPreserve rest (set_preserveLinks true cfg)
      else if String.eqb preserve "mode" then
        setPreserve rest (set_preserveMode true cfg)
      else if String.eqb preserve "all" then
        setPreserve rest (set_preserveMode true (set_preserveLinks true cfg))
      else inl (UnsupportedPreserve preserve)
  end.

(** The values [parseArgs] gives the fixed fields, lines 253-257. *)
Definition parsed (c : config) : Prop :=
  messageBuffer c = 1000 /\ errBuffer c = 1000 /\ parallelTasks c = 1000 /\
  readdirBuffer c = 1000 /\ copyBuffer c = 65536.

(** ** Library functions the code calls

    [path.Join], [path.Base] and the quoting of [%q] belong to the Go standard
    library; the development is parametric in them. *)
Class GoLib := {
  path_Join : string -> string -> string;
  path_Base : string -> string;
  strconv_Quote : string -> string
}.

(** [%d] *)
Definition fmt_d (n : Z) : string := DecimalString.NilZero.string_of_int (Z.to_int n).

(** [fmtErr], lines 267-280. [runtime.Caller(1)] reports the file and line of
    the call to [fmtErr]; the file is [cpcp.go] and each call site passes its
    own line here. *)
Definition fmtErr (line : Z) (pth : string) (err : error) : string :=
  let rv := err_Error err in
  let rv := if String.eqb rv "" then "unknown error" else rv in
  let rv := if negb (String.eqb pth "") then pth ++ ": " ++ rv else rv in
  rv ++ " @" ++ "cpcp.go" ++ ":" ++ fmt_d line.

(** ** Calls to the file system

    The file system is the environment of the program: a call is recorded
    with the answer it got, and every answer of the right type is possible. *)

Notation handle := nat (only parsing).

Inductive fsE : Type -> Type :=
| Stat (p : string) : fsE (result FileInfo)
| Lstat (p : string) : fsE (result FileInfo)
| Mkdir (p : string) (m : FileMode.t) : fsE (option error)
| Chmod (p : string) (m : FileMode.t) : fsE (option error)
| Open (p : string) : fsE (result handle)
| Create (p : string) : fsE (result handle)
| CopyBuffer (dstf srcf : handle) : fsE (option error)
| Close (f : handle) : fsE (option error)
| Readlink (p : string) : fsE (result string)
| Symlink (target p : string) : fsE (option error).

(** A Task Object, lines 261-265. [srcfi] is an interface value and may be nil. *)
Record copyTask := mkTask {
  src : string;
  dst : string;
  srcfi : option FileInfo
}.

(** What a thread does in one transition. *)
Inductive event :=
| EStat (p : string) (r : result FileInfo)
| ELstat (p : string) (r : result FileInfo)
| EMkdir (p : string) (m : FileMode.t) (r : option error)
| EChmod (p : string) (m : FileMode.t) (r : option error)
| EOpen (p : string) (r : result handle)
| ECreate (p : string) (r : result handle)
| ECopyBuffer (dstf srcf : handle) (r : option error)
| EClose (f : handle) (r : option error)
| EReadlink (p : string) (r : result string)
| ESymlink (target p : string) (r : option error)
| EReaddir (f : handle) (n : Z) (fis : list FileInfo) (err : option error)
| EErrs (line : string)          (* errs <- line *)
| EMsgs (line : string)          (* msgs <- line *)
| EPrint (line : string)         (* fmt.Printf on standard output *)
| EAdd                           (* wg.Add(1) *)
| EDone                          (* wg.Done() *)
| EWait                          (* wg.Wait() returns *)
| ETake                          (* a Task Object received from freeCopyTasks *)
| EDefault                       (* the default case of a select *)
| EFree                          (* freeCopyTasks <- ct *)
| EQueue (t : copyTask)          (* copyTasks <- ct, with the fields ct has *)
| ERecv (t : copyTask)           (* ct := <-copyTasks *)
| EBuffer (t : copyTask)         (* localTasks = append(localTasks, ...) *)
| EBegin (t : copyTask).         (* a worker starts on a task, line 312 *)

Definition log {X} (c : fsE X) : X -> event :=
  match c in fsE X return X -> event with
  | Stat p => EStat p
  | Lstat p => ELstat p
  | Mkdir p m => EMkdir p m
  | Chmod p m => EChmod p m
  | Open p => EOpen p
  | Create p => ECreate p
  | CopyBuffer dstf srcf => ECopyBuffer dstf srcf
  | Close f => EClose f
  | Readlink p => EReadlink p
  | Symlink target p => ESymlink target p
  end.

(** Straight-line code between two operations on the shared channels. *)
Inductive prog (A : Type) : Type :=
| Ret (a : A)
| Call {X : Type} (c : fsE X) (k : X -> prog A)
| SendErrs (line : string) (k : prog A)
| SendMsgs (line : string) (k : prog A).
Arguments Ret {A} a.
Arguments Call {A X} c k.
Arguments SendErrs {A} line k.
Arguments SendMsgs {A} line k.

Fixpoint bind {A B} (p : prog A) (f : A -> prog B) : prog B :=
  match p with
  | Ret a => f a
  | Call c k => Call c (fun x => bind (k x) f)
  | SendErrs line k => SendErrs line (bind k f)
  | SendMsgs line k => SendMsgs line (bind k f)
  end.

Declare Scope prog_scope.
Delimit Scope prog_scope with prog.
Notation "x <- p ;; q" := (bind p (fun x => q))
  (at level 100, p at next level, right associativity) : prog_scope.
Notation "p ;; q" := (bind p (fun _ => q))
  (at level 100, right associativity) : prog_scope.
Local Open Scope prog_scope.

Definition call {X} (c : fsE X) : prog X := Call c Ret.
Definition errs_send (line : string) : prog unit := SendErrs line (Ret tt).
Definition msgs_send (line : string) : prog unit := SendMsgs line (Ret tt).
Definition skip : prog unit := Ret tt.

(** [runs p tr a]: [p] can run to completion with trace [tr] and value [a]. *)
Fixpoint runs {A} (p : prog A) (tr : list event) (a : A) : Prop :=
  match p with
  | Ret x => tr = [] /\ a = x
  | Call c k => exists x tr', tr = log c x :: tr' /\ runs (k x) tr' a
  | SendErrs line k => exists tr', tr = EErrs line :: tr' /\ runs k tr' a
  | SendMsgs line k => exists tr', tr = EMsgs line :: tr' /\ runs k tr' a
  end.

(** ** The body of the worker loop, from line 312 *)

(** Where the body leaves the loop iteration. *)
Inductive outcome :=
| Continue            (* [continue] at line 318: back to the loop head *)
| Finish              (* control is at a [wg.Done()], line 339 or 402 *)
| Walk (f : handle)   (* the directory is open, the listing loop starts *)
| Panic.              (* a method was called on a nil [srcfi] *)

Section Body.
Context `{GoLib} (cfg : config).

(** Lines 320-323 and 385-388: [m := srcfi.Mode()], masked unless
    [preserveMode]. *)
Definition destMode (srcfi : FileInfo) : FileMode.t :=
  let m := Mode srcfi in
  if negb (preserveMode cfg) then Z.land m (umask cfg) else m.

(** [if err != nil { errs <- fmtErr(pth, err) }] *)
Definition report (line : Z) (pth : string) (r : option error) : prog unit :=
  match r with
  | Some err => errs_send (fmtErr line pth err)
  | None => skip
  end.

Definition omitting (src : string) : string :=
  "omitting directory " ++ strconv_Quote src.

(** Lines 316-341. *)
Definition copyDir (src dst : string) (srcfi : FileInfo) : prog outcome :=
  if negb (recursive cfg) then
    errs_send (omitting src) ;;
    Ret Continue
  else
    let m := destMode srcfi in
    r <- call (Mkdir dst m) ;;
    match r with
    | Some err => if negb (os_IsExist err) then errs_send (fmtErr 326 dst err) else skip
    | None => skip
    end ;;
    (if preserveMode cfg then
       r <- call (Chmod dst m) ;;
       report 333 dst r
     else skip) ;;
    r <- call (Open src) ;;
    match r with
    | Err err =>
        errs_send (fmtErr 338 src err) ;;
        Ret Finish
    | Ok f => Ret (Walk f)
    end.

(** Lines 371-393. *)
Definition copyRegular (src dst : string) (srcfi : FileInfo) : prog unit :=
  r <- call (Open src) ;;
  match r with
  | Err err => errs_send (fmtErr 373 src err)
  | Ok srcf =>
      r <- call (Create dst) ;;
      match r with
      | Err err => errs_send (fmtErr 377 dst err)
      | Ok dstf =>
          r <- call (CopyBuffer dstf srcf) ;;
          report 381 dst r ;;
          call (Close srcf) ;;
          call (Close dstf) ;;
          let m := destMode srcfi in
          r <- call (Chmod dst m) ;;
          report 390 dst r
      end
  end.

(** Lines 395-400. *)
Definition copySymlink (src dst : string) : prog unit :=
  r <- call (Readlink src) ;;
  match r with
  | Err err => errs_send (fmtErr 397 src err)
  | Ok target =>
      r <- call (Symlink target dst) ;;
      report 399 dst r
  end.

(** Lines 312-402 up to the first operation on [wg] or on the Task Object
    channels. *)
Definition runTask (t : copyTask) : prog outcome :=
  (if 0 <? verbosity cfg then msgs_send (src t ++ " -> " ++ dst t) else skip) ;;
  match srcfi t with
  | None => Ret Panic
  | Some fi =>
      if IsDir fi then copyDir (src t) (dst t) fi
      else if FileMode.IsRegular (Mode fi) then
        copyRegular (src t) (dst t) fi ;; Ret Finish
      else if FileMode.symlinkTest (Mode fi) then
        copySymlink (src t) (dst t) ;; Ret Finish
      else Ret Finish
  end.

(** [fis, err := f.Readdir(n)] on a directory of which [rest] is still to be
    listed. With [n > 0] at most [n] entries come back, and an empty batch
    comes with an error ([io.EOF] at the end); with [n <= 0] everything
    comes back at once, and an error means the listing stopped early. *)
Definition readdir_answer (n : Z) (rest fis : list FileInfo)
    (err : option error) (rest' : list FileInfo) : Prop :=
  rest = (fis ++ rest')%list /\
  if 0 <? n then
    Z.of_nat (length fis) <= n /\ (err = None -> fis <> [])
  else
    err = None -> rest' = [].

(** The child task built at lines 345-352 and 355-359. *)
Definition child (dir : copyTask) (fi : FileInfo) : copyTask :=
  mkTask (path_Join (src dir) (Name fi)) (path_Join (dst dir) (Name fi)) (Some fi).

End Body.

(** ** The engine: channels, Task Objects, workers and driver *)

(** A Task Object is allocated once, at line 73, and then only passed around
    by pointer; [objid] is its address and [heap] gives its current fields. *)
Notation objid := nat (only parsing).

Definition emptyTask : copyTask := mkTask "" "" None.

Definition upd (a : objid) (t : copyTask) (h : objid -> copyTask) : objid -> copyTask :=
  fun b => if Nat.eqb a b then t else h b.

(** What all threads share: the two buffered channels of Task Object
    pointers, the objects themselves, and the WaitGroup counter. *)
Record shared := mkShared {
  freeCopyTasks : list objid;
  copyTasks : list objid;
  heap : objid -> copyTask;
  wg : Z
}.

(** The program points of [copier] at which it touches shared state, each with
    the local variables that are live there. A directory under listing is
    described by its task [d], the open handle [f], what is left of the
    current batch ([fis], [err]) and what [Readdir] has not yet returned
    ([rest]). *)
Inductive wpc :=
| PTop                                         (* line 289, loop head *)
| PPublish (fct : objid) (ct : copyTask)       (* line 298 *)
| PRelease (ct : objid) (t : copyTask)         (* line 310 *)
| PExec (t : copyTask)                         (* line 312 *)
| PReaddir (d : copyTask) (f : handle) (rest : list FileInfo)    (* line 343 *)
| PEntry (d : copyTask) (f : handle) (fis : list FileInfo)
    (err : option error) (rest : list FileInfo)                  (* line 344 *)
| PSelect (d : copyTask) (f : handle) (fi : FileInfo) (fis : list FileInfo)
    (err : option error) (rest : list FileInfo)                  (* line 348 *)
| PSend (d : copyTask) (f : handle) (ct : objid) (fi : FileInfo)
    (fis : list FileInfo) (err : option error) (rest : list FileInfo)   (* line 353 *)
| PDone                                        (* lines 339 and 402 *)
| PPanic.

Record worker := mkWorker {
  localTasks : list copyTask;
  pc : wpc
}.

(** The driver seeds either its single source with the destination resolved at
    lines 79-82, or each of several sources below the destination directory. *)
Inductive seedMode := Single (dst : string) | Multi (dst : string).

Inductive dpc :=
| DInit (srcs : list string) (dst : string)             (* line 77 *)
| DSeed (m : seedMode) (srcs : list string)             (* lines 83 and 108 *)
| DTake (t : copyTask) (m : seedMode) (srcs : list string)   (* lines 94 and 123 *)
| DAdd (ct : objid) (t : copyTask) (m : seedMode) (srcs : list string)    (* lines 98 and 127 *)
| DSend (ct : objid) (t : copyTask) (m : seedMode) (srcs : list string)   (* lines 99 and 128 *)
| DWait                                                 (* line 133 *)
| DReturn.                                              (* lines 135-143 *)

Record state := mkState {
  sh : shared;
  workers : list worker;
  driver : dpc
}.

Inductive tid := Driver | Worker (i : nat).

Definition label : Type := tid * list event.

Section Engine.
Context `{GoLib}.
(** The answers of [os.Stat] and [os.Lstat] on the paths of the command
    line, and the configuration the workers are started with. *)
Context (os_Stat os_Lstat : string -> result FileInfo).
Context (cfg : config).

(** Capacity of both channels, lines 70-71. *)
Definition capacity : nat := Z.to_nat (parallelTasks cfg).

Definition entriesOf (t : copyTask) : list FileInfo :=
  match srcfi t with Some fi => Entries fi | None => [] end.

Definition after (t : copyTask) (o : outcome) : wpc :=
  match o with
  | Continue => PTop
  | Finish => PDone
  | Walk f => PReaddir t f (entriesOf t)
  | Panic => PPanic
  end.

(** Lines 362-368, taken when the batch came with an error. *)
Definition endWalk (d : copyTask) (f : handle) (err : error) : prog unit :=
  call (Close f) ;;
  if negb (is_EOF err) then errs_send (fmtErr 365 (src d) err) else skip.

(** One transition of a worker. *)
Inductive wstep : shared -> worker -> list event -> shared -> worker -> Prop :=
| W_buffered_take l ct fct free q h n :
    (* lines 289-297: the select receives from freeCopyTasks *)
    wstep (mkShared (fct :: free) q h n) (mkWorker (l ++ [ct]) PTop)
          [ETake]
          (mkShared free q (upd fct ct h) n) (mkWorker l (PPublish fct ct))
| W_buffered_send l fct ct free q h n :
    (* lines 298-299 *)
    (length q < capacity)%nat ->
    wstep (mkShared free q h n) (mkWorker l (PPublish fct ct))
          [EQueue (h fct)]
          (mkShared free (q ++ [fct]) h n) (mkWorker l PTop)
| W_buffered_default l ct q h n :
    (* lines 289-293 and 300-303: the select takes its default case *)
    wstep (mkShared [] q h n) (mkWorker (l ++ [ct]) PTop)
          [EDefault]
          (mkShared [] q h n) (mkWorker l (PExec ct))
| W_recv ct free q h n :
    (* lines 306-309 *)
    wstep (mkShared free (ct :: q) h n) (mkWorker [] PTop)
          [ERecv (h ct)]
          (mkShared free q h n) (mkWorker [] (PRelease ct (h ct)))
| W_release l ct t free q h n :
    (* line 310 *)
    (length free < capacity)%nat ->
    wstep (mkShared free q h n) (mkWorker l (PRelease ct t))
          [EFree]
          (mkShared (free ++ [ct]) q h n) (mkWorker l (PExec t))
| W_exec l t tr o s :
    (* lines 312-341 and 370-401 *)
    runs (runTask cfg t) tr o ->
    wstep s (mkWorker l (PExec t)) (EBegin t :: tr) s (mkWorker l (after t o))
| W_readdir l d f rest fis err rest' s :
    (* line 343 *)
    readdir_answer (readdirBuffer cfg) rest fis err rest' ->
    wstep s (mkWorker l (PReaddir d f rest))
          [EReaddir f (readdirBuffer cfg) fis err]
          s (mkWorker l (PEntry d f fis err rest'))
| W_add l d f fi fis err rest free q h n :
    (* lines 344-347 *)
    wstep (mkShared free q h n) (mkWorker l (PEntry d f (fi :: fis) err rest))
          [EAdd]
          (mkShared free q h (n + 1)) (mkWorker l (PSelect d f fi fis err rest))
| W_child_take l d f fi fis err rest ct free q h n :
    (* lines 348-352 *)
    wstep (mkShared (ct :: free) q h n) (mkWorker l (PSelect d f fi fis err rest))
          [ETake]
          (mkShared free q (upd ct (child d fi) h) n)
          (mkWorker l (PSend d f ct fi fis err rest))
| W_child_send l d f ct fi fis err rest free q h n :
    (* line 353 *)
    (length q < capacity)%nat ->
    wstep (mkShared free q h n) (mkWorker l (PSend d f ct fi fis err rest))
          [EQueue (h ct)]
          (mkShared free (q ++ [ct]) h n) (mkWorker l (PEntry d f fis err rest))
| W_child_default l d f fi fis err rest q h n :
    (* lines 348 and 354-359 *)
    wstep (mkShared [] q h n) (mkWorker l (PSelect d f fi fis err rest))
          [EDefault; EBuffer (child d fi)]
          (mkShared [] q h n)
          (mkWorker (l ++ [child d fi]) (PEntry d f fis err rest))
| W_batch_next l d f rest s :
    (* line 362 with a nil error: the listing loop goes round *)
    wstep s (mkWorker l (PEntry d f [] None rest)) [] s (mkWorker l (PReaddir d f rest))
| W_batch_end l d f err rest tr s :
    (* lines 362-368 *)
    runs (endWalk d f err) tr tt ->
    wstep s (mkWorker l (PEntry d f [] (Some err) rest)) tr s (mkWorker l PDone)
| W_done l free q h n :
    (* lines 339-340 and 402 *)
    wstep (mkShared free q h n) (mkWorker l PDone)
          [EDone]
          (mkShared free q h (n - 1)) (mkWorker l PTop).

(** *** The driver, lines 77-133 *)

Definition notDirectory (dst : string) : string :=
  "target " ++ strconv_Quote dst ++ " is not a directory".

(** Lines 77-82 and 101-107. *)
Definition seedInit (srcs : list string) (dst : string) : list event * dpc :=
  match srcs with
  | [src] =>
      let r := os_Stat dst in
      let dst' :=
        match r with
        | Ok dstfi => if IsDir dstfi then path_Join dst (path_Base src) else dst
        | Err _ => dst
        end in
      ([EStat dst r], DSeed (Single dst') [src])
  | _ =>
      let r := os_Stat dst in
      match r with
      | Err err =>
          if negb (os_IsNotExist err) then
            ([EStat dst r; EErrs (fmtErr 104 dst err)], DWait)
          else ([EStat dst r; EErrs (notDirectory dst)], DWait)
      | Ok dstfi =>
          if negb (IsDir dstfi) then
            ([EStat dst r; EErrs (notDirectory dst)], DWait)
          else ([EStat dst r], DSeed (Multi dst) srcs)
      end
  end.

Definition dstFor (m : seedMode) (src : string) : string :=
  match m with
  | Single dst => dst
  | Multi dst => path_Join dst (path_Base src)
  end.

(** The line of the [fmtErr] call for a source that cannot be stat'ed. *)
Definition statLine (m : seedMode) : Z :=
  match m with Single _ => 90 | Multi _ => 116 end.

(** Lines 83-93 and 109-122: the driver looks at one source. *)
Definition seedOne (m : seedMode) (src : string) : list event * option copyTask :=
  let r := if noDereference cfg then os_Lstat src else os_Stat src in
  let ev := if noDereference cfg then ELstat src r else EStat src r in
  match r with
  | Err err => ([ev; EErrs (fmtErr (statLine m) src err)], None)
  | Ok srcfi =>
      if IsDir srcfi && negb (recursive cfg) then ([ev; EErrs (omitting src)], None)
      else ([ev], Some (mkTask src (dstFor m src) (Some srcfi)))
  end.

Inductive dstep : shared -> dpc -> list event -> shared -> dpc -> Prop :=
| D_init srcs dst s :
    dstep s (DInit srcs dst) (fst (seedInit srcs dst)) s (snd (seedInit srcs dst))
| D_skip m src srcs s :
    snd (seedOne m src) = None ->
    dstep s (DSeed m (src :: srcs)) (fst (seedOne m src)) s (DSeed m srcs)
| D_stat m src srcs t s :
    snd (seedOne m src) = Some t ->
    dstep s (DSeed m (src :: srcs)) (fst (seedOne m src)) s (DTake t m srcs)
| D_seeded m s :
    dstep s (DSeed m []) [] s DWait
| D_take t m srcs ct free q h n :
    (* lines 94-97 and 123-126 *)
    dstep (mkShared (ct :: free) q h n) (DTake t m srcs)
          [ETake]
          (mkShared free q (upd ct t h) n) (DAdd ct t m srcs)
| D_add ct t m srcs free q h n :
    (* lines 98 and 127 *)
    dstep (mkShared free q h n) (DAdd ct t m srcs)
          [EAdd]
          (mkShared free q h (n + 1)) (DSend ct t m srcs)
| D_send ct t m srcs free q h n :
    (* lines 99 and 128 *)
    (length q < capacity)%nat ->
    dstep (mkShared free q h n) (DSend ct t m srcs)
          [EQueue (h ct)]
          (mkShared free (q ++ [ct]) h n) (DSeed m srcs)
| D_wait free q h :
    (* line 133: wg.Wait() returns when the counter is zero *)
    dstep (mkShared free q h 0) DWait [EWait] (mkShared free q h 0) DReturn.

(** The overflow handling of lines 289-304 as one piece: from the loop head
    with a buffered task, either the select receives a Task Object and the
    send of line 298 follows, or the select takes its default case. *)
Inductive overflow_code : shared -> list copyTask -> copyTask -> shared -> worker -> Prop :=
| OC_published s l ct tr1 s1 fct ct' tr2 s2 w2 :
    wstep s (mkWorker (l ++ [ct]) PTop) tr1 s1 (mkWorker l (PPublish fct ct')) ->
    wstep s1 (mkWorker l (PPublish fct ct')) tr2 s2 w2 ->
    overflow_code s l ct s2 w2
| OC_local s l ct tr1 s1 ct' :
    wstep s (mkWorker (l ++ [ct]) PTop) tr1 s1 (mkWorker l (PExec ct')) ->
    overflow_code s l ct s1 (mkWorker l (PExec ct')).

(** One transition of the engine: some thread moves. *)
Inductive step : state -> label -> state -> Prop :=
| step_worker i w tr s' w' s ws d :
    ws !! i = Some w ->
    wstep s w tr s' w' ->
    step (mkState s ws d) (Worker i, tr) (mkState s' (<[i := w']> ws) d)
| step_driver tr s' d' s ws d :
    dstep s d tr s' d' ->
    step (mkState s ws d) (Driver, tr) (mkState s' ws d').

(** Runs: the labels are collected in the order of the transitions. *)
Inductive run : state -> list label -> state -> Prop :=
| run_nil s : run s [] s
| run_snoc s tr s1 l s2 : run s tr s1 -> step s1 l s2 -> run s (tr ++ [l]) s2.

(** The state in which the driver reaches line 77: the pool holds all the
    Task Objects, and every worker waits at the head of its loop. *)
Definition init (srcs : list string) (dst : string) : state :=
  mkState (mkShared (seq 0 capacity) [] (fun _ => emptyTask) 0)
          (replicate capacity (mkWorker [] PTop))
          (DInit srcs dst).

End Engine.

(** ** Before and after the engine: lines 19-38 and 135-143 *)

Definition goSyntax_bool (b : bool) : string := if b then "true" else "false".

Definition fmt_x (n : Z) : string :=
  HexadecimalString.NilZero.string_of_uint (N.to_hex_uint (Z.to_N n)).

(** [%#v] of the [*config]: the Go syntax of the struct, every field with its
    name; integers in decimal, the [os.FileMode] in hexadecimal. *)
Definition goSyntax_config (c : config) : string :=
  "&cpcp.config{verbosity:" ++ fmt_d (verbosity c) ++
  ", noDereference:" ++ goSyntax_bool (noDereference c) ++
  ", recursive:" ++ goSyntax_bool (recursive c) ++
  ", messageBuffer:" ++ fmt_d (messageBuffer c) ++
  ", errBuffer:" ++ fmt_d (errBuffer c) ++
  ", parallelTasks:" ++ fmt_d (parallelTasks c) ++
  ", readdirBuffer:" ++ fmt_d (readdirBuffer c) ++
  ", copyBuffer:" ++ fmt_d (copyBuffer c) ++
  ", umask:0x" ++ fmt_x (umask c) ++
  ", preserveLinks:" ++ goSyntax_bool (preserveLinks c) ++
  ", preserveMode:" ++ goSyntax_bool (preserveMode c) ++ "}".

(** [%#v] of a slice of strings. *)
Fixpoint commaSep (l : list string) : string :=
  match l with
  | [] => ""
  | [x] => x
  | x :: l' => x ++ ", " ++ commaSep l'
  end.

Section Start.
Context `{GoLib}.
(** The process umask, as [syscall.Umask(0)] returns it at line 36. *)
Context (syscall_Umask : Z).

Definition goSyntax_strings (l : list string) : string :=
  "[]string{" ++ commaSep (map strconv_Quote l) ++ "}".

(** Lines 23-26; the lines are given without their final newline. *)
Definition dump (cfg : config) (args : list string) : list event :=
  if 1 <? verbosity cfg then
    [EPrint ("cfg is " ++ goSyntax_config cfg);
     EPrint ("args are " ++ goSyntax_strings args)]
  else [].

(** Lines 19-38 after [parseArgs]: what is printed, and either the error
    returned or the configuration, sources and destination of the run. *)
Definition CPCP_start (cfg : config) (args : list string)
    : list event * (error + config * list string * string) :=
  (dump cfg args,
   match args with
   | [] => inl (mkError "nothing specified to copy" KOther)
   | [a] => inl (mkError ("missing destination parameter after " ++ strconv_Quote a) KOther)
   | _ => inr (set_umask (Z.land syscall_Umask 511) cfg, removelast args, List.last args "")
   end).

End Start.

Definition events (tr : list label) : list event := flat_map snd tr.

Definition errLine (e : event) : option string :=
  match e with EErrs line => Some line | _ => None end.

(** The lines the error printer receives, in order. *)
Definition errLines (evs : list event) : list string := omap errLine evs.

(** Lines 56-66: the printer counts lines until it is handed an empty one. *)
Fixpoint errCount (lines : list string) : Z :=
  match lines with
  | [] => 0
  | line :: rest => if String.eqb line "" then 0 else (1 + errCount rest) mod 2 ^ 32
  end.

(** Lines 139-143. *)
Definition CPCP_result (tr : list label) : option error :=
  let finalErrCount := errCount (errLines (events tr)) in
  if 0 <? finalErrCount then
    Some (mkError ("there were " ++ fmt_d finalErrCount ++ " errors") KOther)
  else None.

(** ** The whole of [CPCP] after [parseArgs] *)

Section Program.
Context `{GoLib}.
Context (os_Stat os_Lstat : string -> result FileInfo).
Context (syscall_Umask : Z).

(** [CPCP cfg args out tr res]: with the configuration and arguments that
    [parseArgs] returned, [CPCP] prints [out] at lines 23-26, the engine makes
    the transitions [tr], and [res] is returned. *)
Inductive CPCP (cfg : config) (args : list string)
    : list event -> list label -> option error -> Prop :=
| CPCP_usage err :
    snd (CPCP_start syscall_Umask cfg args) = inl err ->
    CPCP cfg args (fst (CPCP_start syscall_Umask cfg args)) [] (Some err)
| CPCP_copies cfg' srcs dst tr s :
    snd (CPCP_start syscall_Umask cfg args) = inr (cfg', srcs, dst) ->
    run os_Stat os_Lstat cfg' (init cfg' srcs dst) tr s ->
    driver s = DReturn ->
    CPCP cfg args (fst (CPCP_start syscall_Umask cfg args)) tr (CPCP_result tr).

(** The preserve-links flag makes no difference to anything observable. *)
Definition preserveLinksInert : Prop :=
  forall cfg b args out tr res,
    CPCP (set_preserveLinks b cfg) args out tr res <-> CPCP cfg args out tr res.

End Program.

(** Two configurations that differ at most in the preserve-links flag. *)
Definition sameButLinks (c1 c2 : config) : Prop :=
  set_preserveLinks false c1 = set_preserveLinks false c2.

(** ** Bookkeeping on states and traces *)

Definition isAdd (e : event) : bool := match e with EAdd => true | _ => false end.
Definition isDone (e : event) : bool := match e with EDone => true | _ => false end.
Definition isBegin (e : event) : bool := match e with EBegin _ => true | _ => false end.
Definition isQueue (e : event) : bool := match e with EQueue _ => true | _ => false end.

Definition count (f : event -> bool) (tr : list label) : nat :=
  length (filter (fun e => f e = true) (events tr)).

(** The events of one thread. *)
Definition eventsOf (t : tid) (tr : list label) : list event :=
  flat_map (fun l : label => match l, t with
                             | (Driver, evs), Driver => evs
                             | (Worker i, evs), Worker j => if Nat.eqb i j then evs else []
                             | _, _ => []
                             end) tr.

(** The Task Objects a thread holds between a receive and a send. *)
Definition wheld (p : wpc) : list objid :=
  match p with
  | PPublish fct _ => [fct]
  | PRelease ct _ => [ct]
  | PSend _ _ ct _ _ _ _ => [ct]
  | _ => []
  end.

Definition dheld (d : dpc) : list objid :=
  match d with
  | DAdd ct _ _ _ | DSend ct _ _ _ => [ct]
  | _ => []
  end.

(** All Task Objects: in the pool, in the queue, or held by a thread. *)
Definition objects (s : state) : list objid :=
  (freeCopyTasks (sh s) ++ copyTasks (sh s) ++ dheld (driver s) ++
   flat_map (fun w => wheld (pc w)) (workers s))%list.

(** Tasks counted by the WaitGroup and not yet finished, per thread. *)
Definition wpending (w : worker) : nat :=
  (length (localTasks w) +
   match pc w with
   | PTop => 0
   | PSelect _ _ _ _ _ _ | PSend _ _ _ _ _ _ _ => 2
   | _ => 1
   end)%nat.

Definition dpending (d : dpc) : nat :=
  match d with DSend _ _ _ _ => 1%nat | _ => 0%nat end.

Definition outstanding (s : state) : nat :=
  (length (copyTasks (sh s)) + dpending (driver s) + sum_list_with wpending (workers s))%nat.

(** Workers busy with a task they have started on at line 312. *)
Definition executing (w : worker) : nat :=
  match pc w with
  | PTop | PPublish _ _ | PRelease _ _ | PExec _ => 0%nat
  | _ => 1%nat
  end.

(** How many workers are busy with a task. *)
Definition running (ws : list worker) : nat := sum_list_with executing ws.

Definition idle (w : worker) : bool :=
  match localTasks w, pc w with
  | [], PTop => true
  | _, _ => false
  end.

(** ** Invariants of the reachable states *)

Section Invariants.
Context `{GoLib} (cfg : config).

(** A task is well formed when it has metadata, and is a directory only if
    the run is recursive. *)
Definition twf (t : copyTask) : Prop :=
  exists fi, srcfi t = Some fi /\ (IsDir fi = true -> recursive cfg = true).

Definition pcwf (p : wpc) : Prop :=
  match p with
  | PTop | PDone => True
  | PPublish _ t | PRelease _ t | PExec t => twf t
  | PReaddir d _ _ | PEntry d _ _ _ _ | PSelect d _ _ _ _ _
  | PSend d _ _ _ _ _ _ => twf d /\ recursive cfg = true
  | PPanic => False
  end.

Definition wwf (w : worker) : Prop :=
  Forall twf (localTasks w) /\ pcwf (pc w).

Definition dwf (d : dpc) : Prop :=
  match d with
  | DTake t _ _ | DAdd _ t _ _ | DSend _ t _ _ => twf t
  | _ => True
  end.

(** The fields of a Task Object a thread has filled are the values of its
    local variables until it sends the object. *)
Definition wfilled (h : objid -> copyTask) (w : worker) : Prop :=
  match pc w with
  | PPublish fct ct => h fct = ct
  | PSend d _ ct fi _ _ _ => h ct = child d fi
  | _ => True
  end.

Definition dfilled (h : objid -> copyTask) (d : dpc) : Prop :=
  match d with
  | DAdd ct t _ _ | DSend ct t _ _ => h ct = t
  | _ => True
  end.

Record inv (s : state) : Prop := mkInv {
  (* the Task Objects are the preallocated ones, each in one place *)
  inv_objects : objects s ≡ₚ seq 0 (capacity cfg);
  (* one worker per Task Object, line 74 *)
  inv_workers : length (workers s) = capacity cfg;
  (* the WaitGroup counts the unfinished tasks *)
  inv_wg : wg (sh s) = Z.of_nat (outstanding s);
  inv_queue : Forall (fun a => twf (heap (sh s) a)) (copyTasks (sh s));
  inv_wwf : Forall wwf (workers s);
  inv_dwf : dwf (driver s);
  inv_wfilled : Forall (wfilled (heap (sh s))) (workers s);
  inv_dfilled : dfilled (heap (sh s)) (driver s)
}.

(** ** The progress measure

    [cost fi] bounds the transitions a worker spends on a task from line
    312 on, the tasks of all entries below it included. *)
Fixpoint cost (fi : FileInfo) : nat :=
  match fi with
  | mkFileInfo _ _ entries => (4 + list_sum (map (fun k => cost k + 8) entries))%nat
  end.

Definition tcost (t : copyTask) : nat :=
  match srcfi t with Some fi => cost fi | None => 4%nat end.

(** Entries still to be listed, and entries of the batch in hand. *)
Definition listing (rest : list FileInfo) : nat :=
  (3 + list_sum (map (fun k => cost k + 8) rest))%nat.

Definition batch (fis : list FileInfo) (err : option error) (rest : list FileInfo) : nat :=
  (list_sum (map (fun k => cost k + 6) fis) +
   match err with None => 1 + listing rest | Some _ => 2 end)%nat.

Definition pcmeasure (p : wpc) : nat :=
  match p with
  | PTop => 0
  | PPublish _ ct => 3 + tcost ct
  | PRelease _ t => 1 + tcost t
  | PExec t => tcost t
  | PReaddir _ _ rest => listing rest
  | PEntry _ _ fis err rest => batch fis err rest
  | PSelect _ _ fi fis err rest => cost fi + 5 + batch fis err rest
  | PSend _ _ _ fi fis err rest => cost fi + 3 + batch fis err rest
  | PDone => 1
  | PPanic => 0
  end%nat.

Definition wmeasure (w : worker) : nat :=
  (list_sum (map (fun t => 4 + tcost t) (localTasks w)) + pcmeasure (pc w))%nat.

Context (os_Stat os_Lstat : string -> result FileInfo).

Definition seedCost (src : string) : nat :=
  match (if noDereference cfg then os_Lstat src else os_Stat src) with
  | Ok fi => 6 + cost fi
  | Err _ => 6
  end%nat.

Definition seeding (srcs : list string) : nat :=
  (2 + list_sum (map seedCost srcs))%nat.

Definition dmeasure (d : dpc) : nat :=
  match d with
  | DInit srcs _ => 1 + seeding srcs
  | DSeed _ srcs => seeding srcs
  | DTake t _ srcs => 5 + tcost t + seeding srcs
  | DAdd _ t _ srcs => 4 + tcost t + seeding srcs
  | DSend _ t _ srcs => 3 + tcost t + seeding srcs
  | DWait => 1
  | DReturn => 0
  end%nat.

Definition measure (s : state) : nat :=
  (dmeasure (driver s) + sum_list_with wmeasure (workers s) +
   sum_list_with (fun a => 2 + tcost (heap (sh s) a)) (copyTasks (sh s)))%nat.

(** ** The overflow discipline in the words of the specification

    A worker with a buffered task [ct] tries, without blocking, to take a
    Task Object from the pool and to send it on the Work Queue. If both
    succeed the task is published; otherwise the worker runs it itself. *)
Definition overflow_spec (s : shared) (l : list copyTask) (ct : copyTask)
    : shared * worker :=
  match freeCopyTasks s with
  | fct :: free =>
      if (length (copyTasks s) <? capacity cfg)%nat then
        (mkShared free (copyTasks s ++ [fct]) (upd fct ct (heap s)) (wg s),
         mkWorker l PTop)
      else (s, mkWorker l (PExec ct))
  | [] => (s, mkWorker l (PExec ct))
  end.

(** The tasks the driver hands to the Work Queue for several sources below
    an existing directory [dst], in the words of the specification: one per
    source that can be stat'ed and is not an omitted directory. *)
Fixpoint seeded (dst : string) (srcs : list string) : list copyTask :=
  match srcs with
  | [] => []
  | src :: rest =>
      match (if noDereference cfg then os_Lstat src else os_Stat src) with
      | Ok fi =>
          if IsDir fi && negb (recursive cfg) then seeded dst rest
          else mkTask src (path_Join dst (path_Base src)) (Some fi) :: seeded dst rest
      | Err _ => seeded dst rest
      end
  end.

End Invariants.

(** The tasks a thread sent on the Work Queue, in order. *)
Definition queuedTask (e : event) : option copyTask :=
  match e with EQueue t => Some t | _ => None end.

Definition queued (evs : list event) : list copyTask := omap queuedTask evs.

Definition statted (e : event) : option string :=
  match e with EStat p _ | ELstat p _ => Some p | _ => None end.

(** The paths a thread called [os.Stat] or [os.Lstat] on, in order. *)
Definition stats (evs : list event) : list string := omap statted evs.

(** The error line of [if err != nil { errs <- fmtErr(pth, err) }], if any. *)
Definition reported (line : Z) (pth : string) (r : option error) : list event :=
  match r with
  | Some err => [EErrs (fmtErr line pth err)]
  | None => []
  end.

(** Which calls of the body apply a mode to a path. *)
Definition appliesMode (e : event) : option (string * FileMode.t) :=
  match e with
  | EMkdir p m _ | EChmod p m _ => Some (p, m)
  | _ => None
  end.

(** ** What the driver does, as a list

    The driver is sequential and its answers from [os.Stat] and [os.Lstat] are
    fixed, so its events are determined: [driverRest d] lists those still to
    come from program point [d]. *)
Section Plan.
Context `{GoLib}.
Context (os_Stat os_Lstat : string -> result FileInfo).
Context (cfg : config).

(** Lines 94-99 and 123-128. *)
Definition submit (t : copyTask) : list event := [ETake; EAdd; EQueue t].

Definition seedEvents (m : seedMode) (src : string) : list event :=
  (fst (seedOne os_Stat os_Lstat cfg m src) ++
   match snd (seedOne os_Stat os_Lstat cfg m src) with
   | Some t => submit t
   | None => []
   end)%list.

Definition seedAll (m : seedMode) (srcs : list string) : list event :=
  flat_map (seedEvents m) srcs.

Definition seedingFrom (d : dpc) : list event :=
  match d with
  | DSeed m srcs => seedAll m srcs
  | _ => []
  end.

(** Lines 77-131. *)
Definition seedingEvents (srcs : list string) (dst : string) : list event :=
  (fst (seedInit os_Stat srcs dst) ++ seedingFrom (snd (seedInit os_Stat srcs dst)))%list.

Definition driverRest (d : dpc) : list event :=
  match d with
  | DInit srcs dst => seedingEvents srcs dst ++ [EWait]
  | DSeed m srcs => seedAll m srcs ++ [EWait]
  | DTake t m srcs => submit t ++ seedAll m srcs ++ [EWait]
  | DAdd _ t m srcs => [EAdd; EQueue t] ++ seedAll m srcs ++ [EWait]
  | DSend _ t m srcs => [EQueue t] ++ seedAll m srcs ++ [EWait]
  | DWait => [EWait]
  | DReturn => []
  end%list.

(** The error lines of the driver for several sources below an existing
    directory, in the words of the specification: one for each source that
    cannot be stat'ed, one for each directory omitted for want of the
    recursive flag. *)
Fixpoint seedErrors (srcs : list string) : list string :=
  match srcs with
  | [] => []
  | src :: rest =>
      match (if noDereference cfg then os_Lstat src else os_Stat src) with
      | Ok fi =>
          if IsDir fi && negb (recursive cfg) then omitting src :: seedErrors rest
          else seedErrors rest
      | Err err => fmtErr 116 src err :: seedErrors rest
      end
  end.

(** "The destination does not exist, or exists but is not a directory", as
    [os.Stat] tells. *)
Definition notADirectory (dst : string) : bool :=
  match os_Stat dst with
  | Ok dstfi => negb (IsDir dstfi)
  | Err err => os_IsNotExist err
  end.

(** The multi-source policy as the specification words it: nothing is
    submitted and the one line is the policy error when the destination is
    not a directory; otherwise every source is stat'ed and each valid one
    becomes a task below the destination. *)
Definition multiSourcePolicy (evs : list event) (srcs : list string) (dst : string) : Prop :=
  if notADirectory dst then
    queued evs = [] /\ errLines evs = [notDirectory dst]
  else
    stats evs = dst :: srcs /\ queued evs = seeded cfg os_Stat os_Lstat dst srcs.

End Plan.

(** Events of straight-line code: calls, and lines for the two printers. *)
Definition external (e : event) : bool :=
  match e with
  | EAdd | EDone | EWait | ETake | EDefault | EFree
  | EQueue _ | ERecv _ | EBuffer _ | EBegin _ | EPrint _ | EReaddir _ _ _ _ => false
  | _ => true
  end.

(** Occurrences in the events of one transition. *)
Definition occurrences (f : event -> bool) (evs : list event) : nat :=
  length (filter (fun e => f e = true) evs).

(** ** The claims that fail, as the specification states them *)

Section Stated.
Context `{GoLib}.
Context (os_Stat os_Lstat : string -> result FileInfo).
Context (cfg : config).

(** Multi-source destination policy: whenever the driver has finished
    seeding, its events follow [multiSourcePolicy]. *)
Definition multiSourceClaim (srcs : list string) (dst : string) : Prop :=
  forall tr s,
    run os_Stat os_Lstat cfg (init cfg srcs dst) tr s ->
    driver s = DWait ->
    multiSourcePolicy os_Stat os_Lstat cfg (eventsOf Driver tr) srcs dst.


End Stated.

(** ** Functions of the [strings] package the parsers call

    A Go string is a sequence of bytes, as a Rocq [string] is. *)

(** [strings.Contains(s, sep)] for a separator [sep] of one byte. *)
Fixpoint strings_Contains (s : string) (sep : ascii) : bool :=
  match s with
  | EmptyString => false
  | String c s' => Ascii.eqb c sep || strings_Contains s' sep
  end.

(** [strings.SplitN(s, sep, 2)] for a separator of one byte: [s] is cut at
    the first [sep]; the second component is [None] when the slice returned
    has one element. *)
Fixpoint strings_SplitN2 (s : string) (sep : ascii) : string * option string :=
  match s with
  | EmptyString => (EmptyString, None)
  | String c s' =>
      if Ascii.eqb c sep then (EmptyString, Some s')
      else let (h, t) := strings_SplitN2 s' sep in (String c h, t)
  end.

(** [strings.Split(s, sep)] for a separator of one byte: the pieces between
    the separators, one more than there are separators. *)
Fixpoint strings_Split (s : string) (sep : ascii) : list string :=
  match s with
  | EmptyString => [EmptyString]
  | String c s' =>
      if Ascii.eqb c sep then EmptyString :: strings_Split s' sep
      else
        match strings_Split s' sep with
        | h :: t => String c h :: t
        | [] => [String c EmptyString]
        end
  end.

(** [strings.HasPrefix(s, prefix)] *)
Definition strings_HasPrefix (s prefix : string) : bool := String.prefix prefix s.

(** ** The later iteration of the program ([src/unnamed/part_000])

    The worker [copier] is that of [cpcp.go], line for line. The driver
    differs in its parser, which is written out in the file, and in the name
    and sense of one field: [dereference] for [noDereference]. *)

Module Part000.

Record config := mkConfig {
  verbosity : Z;
  dereference : bool;
  recursive : bool;
  preserveLinks : bool;
  preserveMode : bool;
  messageBuffer : Z;
  errBuffer : Z;
  parallelTasks : Z;
  readdirBuffer : Z;
  copyBuffer : Z;
  umask : FileMode.t
}.

Definition set_verbosity (v : Z) (c : config) : config :=
  mkConfig v (dereference c) (recursive c) (preserveLinks c) (preserveMode c)
    (messageBuffer c) (errBuffer c) (parallelTasks c) (readdirBuffer c)
    (copyBuffer c) (umask c).

Definition set_dereference (b : bool) (c : config) : config :=
  mkConfig (verbosity c) b (recursive c) (preserveLinks c) (preserveMode c)
    (messageBuffer c) (errBuffer c) (parallelTasks c) (readdirBuffer c)
    (copyBuffer c) (umask c).

Definition set_recursive (b : bool) (c : config) : config :=
  mkConfig (verbosity c) (dereference c) b (preserveLinks c) (preserveMode c)
    (messageBuffer c) (errBuffer c) (parallelTasks c) (readdirBuffer c)
    (copyBuffer c) (umask c).

Definition set_preserveLinks (b : bool) (c : config) : config :=
  mkConfig (verbosity c) (dereference c) (recursive c) b (preserveMode c)
    (messageBuffer c) (errBuffer c) (parallelTasks c) (readdirBuffer c)
    (copyBuffer c) (umask c).

Definition set_preserveMode (b : bool) (c : config) : config :=
  mkConfig (verbosity c) (dereference c) (recursive c) (preserveLinks c) b
    (messageBuffer c) (errBuffer c) (parallelTasks c) (readdirBuffer c)
    (copyBuffer c) (umask c).

(** The configuration [parseArgs] starts from, lines 153-164; [umask] has its
    zero value. *)
Definition defaults : config :=
  mkConfig 0 true false false false 1000 1000 1000 1000 65536 0.

(** [cfg.verbosity++] on an [int] of 64 bits. *)
Definition int_incr (n : Z) : Z := (n + 1 + 2 ^ 63) mod 2 ^ 64 - 2 ^ 63.

(** The closure [setPreserve], lines 165-182, on the slice that
    [strings.Split(arg, ",")] returns. It updates the configuration in place:
    what it has set before it meets an unsupported word stays set. *)
Fixpoint setPreserve (preserves : list string) (cfg : config)
    : config * option preserveError :=
  match preserves with
  | [] => (cfg, None)
  | preserve :: rest =>
      if String.eqb preserve "" then setPreserve rest cfg
      else if String.eqb preserve "links" then
        setPreserve rest (set_preserveLinks true cfg)
      else if String.eqb preserve "mode" then
        setPreserve rest (set_preserveMode true cfg)
      else if String.eqb preserve "all" then
        setPreserve rest (set_preserveMode true (set_preserveLinks true cfg))
      else (cfg, Some (UnsupportedPreserve preserve))
  end.

(** Lines 207-222: the options a cluster of short flags stands for. The loop
    ranges over the runes of the string; a byte below 128 is a rune of its
    own and no other rune contains one, so the flags found are those of the
    bytes. *)
Definition shortOpt (s : ascii) : list string :=
  if Ascii.eqb s "a" then ["archive"]
  else if Ascii.eqb s "d" then ["no-dereference"; "preserve=links"]
  else if Ascii.eqb s "L" then ["dereference"]
  else if Ascii.eqb s "P" then ["no-dereference"]
  else if Ascii.eqb s "r" || Ascii.eqb s "R" then ["recursive"]
  else if Ascii.eqb s "v" then ["verbose"]
  else [].

Definition shortOpts (flags : string) : list string :=
  flat_map shortOpt (list_ascii_of_string flags).

(** Lines 224-232. *)
Definition expandArchive (opts : list string) : list string :=
  flat_map (fun opt =>
              if String.eqb opt "archive"
              then ["no-dereference"; "recursive"; "preserve=all"]
              else [opt]) opts.

(** Lines 233-252, one round of the loop. The error [setPreserve] returns is
    not looked at (line 246). *)
Definition applyOpt (cfg : config) (opt : string) : config :=
  let s := strings_SplitN2 opt "=" in
  let opt := match snd s with Some _ => fst s | None => opt end in
  let arg := match snd s with Some a => a | None => "" end in
  if String.eqb opt "dereference" then set_dereference true cfg
  else if String.eqb opt "no-dereference" then set_dereference false cfg
  else if String.eqb opt "preserve" then fst (setPreserve (strings_Split arg ",") cfg)
  else if String.eqb opt "recursive" then set_recursive true cfg
  else if String.eqb opt "verbose" then set_verbosity (int_incr (verbosity cfg)) cfg
  else cfg.

(** Lines 224-253 for the options of one argument. *)
Definition applyOpts (cfg : config) (opts : list string) : config :=
  fold_left applyOpt (expandArchive opts) cfg.

Definition preserveNeedsParameter : error :=
  mkError "--preserve requires a parameter" KOther.

(** [args[i][0] != '-'], for a string that is not empty. *)
Definition dashFirst (a : string) : bool :=
  match a with
  | String c _ => Ascii.eqb c "-"
  | EmptyString => false
  end.

(** The loop of lines 184-253 from index [i] on, [args] being [args[i:]];
    it returns the error of line 200 or the configuration and [srcs]. *)
Fixpoint parseLoop (args : list string) (cfg : config) (srcs : list string)
    : error + config * list string :=
  match args with
  | [] => inr (cfg, srcs)
  | a :: rest =>
      if String.eqb a "" || negb (dashFirst a) then
        parseLoop rest cfg (srcs ++ [a])
      else if String.eqb a "-" then
        parseLoop rest cfg (srcs ++ rest)
      else
        match a with
        | String _ (String c1 long) =>
            if Ascii.eqb c1 "-" then
              let opt := long in
              if negb (strings_Contains opt "=") then
                if String.eqb opt "preserve" then
                  match rest with
                  | [] => inl preserveNeedsParameter
                  | param :: rest' =>
                      parseLoop rest' (applyOpts cfg [opt ++ "=" ++ param]) srcs
                  end
                else parseLoop rest (applyOpts cfg [opt]) srcs
              else parseLoop rest (applyOpts cfg [opt]) srcs
            else parseLoop rest (applyOpts cfg (shortOpts (String c1 long))) srcs
        | _ => parseLoop rest cfg srcs
        end
  end.

Section Parse.
Context `{GoLib}.

Definition nothingToCopy : error := mkError "nothing specified to copy" KOther.

Definition missingDestination (src : string) : error :=
  mkError ("missing destination parameter after " ++ strconv_Quote src) KOther.

(** [parseArgs], lines 152-261: the configuration, the sources and the
    destination, or an error. *)
Definition parseArgs (args : list string) : error + config * list string * string :=
  match parseLoop args defaults [] with
  | inl err => inl err
  | inr (cfg, srcs) =>
      match srcs with
      | [] => inl nothingToCopy
      | [src] => inl (missingDestination src)
      | _ => inr (cfg, removelast srcs, List.last srcs "")
      end
  end.

End Parse.

End Part000.

(** ** Reading the parser of [part_000] argument by argument *)

Module Part000Args.
Import Part000.

(** An operand: the test of line 185. *)
Definition isOperand (a : string) : bool := String.eqb a "" || negb (dashFirst a).

(** The options an argument stands for before [archive] is expanded, lines
    194-222: none for an operand; [-] and [--preserve] are apart. *)
Definition optionsOf (a : string) : list string :=
  if isOperand a then []
  else
    match a with
    | String _ (String c1 long) =>
        if Ascii.eqb c1 "-" then [long] else shortOpts (String c1 long)
    | _ => []
    end.

(** Arguments of the two forms that make the loop look at what follows
    them. *)
Definition looksAhead (a : string) : bool :=
  String.eqb a "-" || String.eqb a "--preserve".

(** The name of an option, before its [=]. *)
Definition optName (opt : string) : string :=
  match strings_SplitN2 opt "=" with
  | (name, Some _) => name
  | (_, None) => opt
  end.

(** Arguments that leave [cfg.dereference] alone. *)
Definition derefNeutral (a : string) : bool :=
  isOperand a ||
  forallb (fun opt => negb (String.eqb (optName opt) "dereference") &&
                      negb (String.eqb (optName opt) "no-dereference"))
          (expandArchive (optionsOf a)).

(** The last word on [cfg.dereference] among some options, if they have one. *)
Definition lastDeref (opts : list string) : option bool :=
  fold_left (fun r opt =>
               if String.eqb (optName opt) "dereference" then Some true
               else if String.eqb (optName opt) "no-dereference" then Some false
               else r) opts None.


(** The words [setPreserve] knows. *)
Definition supported (preserve : string) : bool :=
  String.eqb preserve "" || String.eqb preserve "links" ||
  String.eqb preserve "mode" || String.eqb preserve "all".

(** The names the switch of lines 240-251 knows, and [archive]. *)
Definition knownOption (name : string) : bool :=
  String.eqb name "dereference" || String.eqb name "no-dereference" ||
  String.eqb name "preserve" || String.eqb name "recursive" ||
  String.eqb name "verbose" || String.eqb name "archive".

(** The fields the options leave alone, and the flags they only switch
    on. *)
Definition sameSizes (c c' : config) : Prop :=
  messageBuffer c' = messageBuffer c /\ errBuffer c' = errBuffer c /\
  parallelTasks c' = parallelTasks c /\ readdirBuffer c' = readdirBuffer c /\
  copyBuffer c' = copyBuffer c /\ umask c' = umask c.

Definition keepsFlags (c c' : config) : Prop :=
  (recursive c = true -> recursive c' = true) /\
  (preserveLinks c = true -> preserveLinks c' = true) /\
  (preserveMode c = true -> preserveMode c' = true).

End Part000Args.

(** ** [parseArgs] of [cpcp.go], lines 171-259 *)

(** [s[n:]] for [n] within the string. *)
Fixpoint dropBytes (n : nat) (s : string) : string :=
  match n, s with
  | O, _ => s
  | S n', String _ s' => dropBytes n' s'
  | S _, EmptyString => EmptyString
  end.

(** What the loop labelled [L] ends in. *)
Inductive rewritten :=
| Rewritten (oargs : list string) (cfg : config)   (* [break], line 230 *)
| PreserveFailed (err : preserveError)             (* lines 197 and 222 *)
| IndexOutOfRange.                                 (* [oargs[i+1]], line 221 *)

(** One run of the [range] loop of lines 194-229. *)
Inductive pass :=
| Break (oargs : list string)                      (* the loop ran to its end *)
| Again (oargs : list string) (cfg : config)       (* [goto L] *)
| Failed (err : preserveError)
| Panicked.

(** The [range] loop from index [i] on: [seen] is [oargs[:i]] as it is by
    then, and [todo] is [oargs[i:]]. The slices built with [append] at lines
    199, 211-212, 217-218 and 224 have the values written here whether or
    not they share memory with [args]. *)
Fixpoint scan (seen todo : list string) (cfg : config) : pass :=
  match todo with
  | [] => Break seen
  | arg :: rest =>
      if strings_HasPrefix arg "--preserve=" then
        match setPreserve (strings_Split (dropBytes 11 arg) ",") cfg with
        | inl err => Failed err
        | inr cfg' => Again (seen ++ rest) cfg'
        end
      else if String.eqb arg "-a" || String.eqb arg "--archive" then
        Again ((seen ++ ["-d"; "-R"; "--preserve=all"]) ++ rest) cfg
      else if String.eqb arg "-d" then
        Again ((seen ++ ["--no-dereference"; "--preserve=links"]) ++ rest) cfg
      else if String.eqb arg "--preserve" then
        match rest with
        | [] => Panicked
        | spec :: rest' =>
            match setPreserve (strings_Split spec ",") cfg with
            | inl err => Failed err
            | inr cfg' => Again (seen ++ rest') cfg'
            end
        end
      else if String.eqb arg "-R" then scan (seen ++ ["-r"]) rest cfg
      else scan (seen ++ [arg]) rest cfg
  end.

(** The loop labelled [L], lines 192-231, run for at most [fuel] passes. *)
Fixpoint rewriteArgs (fuel : nat) (oargs : list string) (cfg : config)
    : option rewritten :=
  match fuel with
  | O => None
  | S fuel' =>
      match scan [] oargs cfg with
      | Break oargs' => Some (Rewritten oargs' cfg)
      | Again oargs' cfg' => rewriteArgs fuel' oargs' cfg'
      | Failed err => Some (PreserveFailed err)
      | Panicked => Some IndexOutOfRange
      end
  end.

(** Lines 237-249: the last of the four flags decides. *)
Definition noderefStep (noderef : bool) (arg : string) : bool :=
  if String.eqb arg "-L" || String.eqb arg "--dereference" then false
  else if String.eqb arg "-P" || String.eqb arg "--no-dereference" then true
  else noderef.

Definition noderefOf (oargs : list string) : bool := fold_left noderefStep oargs false.

(** The struct [parseOpts], lines 160-169, which [flags.ParseArgs] fills in. *)
Record parseOpts := mkParseOpts {
  Verbosity : list bool;
  Dereference : bool;
  NoDereference : bool;
  Preserve : string;
  Recursive : bool;
  Recursive2 : bool;
  ShortcutA : bool;
  ShortcutD : bool
}.

(** [&config{}] *)
Definition zeroConfig : config := mkConfig 0 false false 0 0 0 0 0 0 false false.

(** What [parseArgs] ends in. *)
Inductive parseResult :=
| Parsed (cfg : config) (args : list string)
| BadPreserve (err : preserveError)      (* lines 196-198 and 221-223 *)
| BadFlags (err : error)                 (* lines 233-236 *)
| ParsePanic.

Section ParseArgs.
(** [flags.ParseArgs] of [github.com/jessevdk/go-flags] on the zero value of
    [parseOpts]: the options it has set and the arguments it leaves. *)
Context (flags_ParseArgs : list string -> result (parseOpts * list string)).

(** Lines 232-258. *)
Definition finishArgs (oargs : list string) (cfg : config) : parseResult :=
  match flags_ParseArgs oargs with
  | Err err => BadFlags err
  | Ok (opts, args) =>
      let noderef := noderefOf oargs in
      Parsed (mkConfig (Z.of_nat (length (Verbosity opts))) noderef (Recursive opts)
                1000 1000 1000 1000 65536 (umask cfg)
                (preserveLinks cfg) (preserveMode cfg))
             args
  end.

Definition parseArgs (fuel : nat) (args : list string) : option parseResult :=
  match rewriteArgs fuel args zeroConfig with
  | None => None
  | Some (Rewritten oargs cfg) => Some (finishArgs oargs cfg)
  | Some (PreserveFailed err) => Some (BadPreserve err)
  | Some IndexOutOfRange => Some ParsePanic
  end.

End ParseArgs.

(** *** Reading the arguments once, from left to right *)

(** What an argument other than [--preserve] leaves in the list. *)
Definition leaves (arg : string) : list string :=
  if strings_HasPrefix arg "--preserve=" then []
  else if String.eqb arg "-a" || String.eqb arg "--archive" then ["--no-dereference"; "-r"]
  else if String.eqb arg "-d" then ["--no-dereference"]
  else if String.eqb arg "-R" then ["-r"]
  else [arg].

(** The words it hands to [setPreserve], in order. *)
Definition preserves (arg : string) : list string :=
  if strings_HasPrefix arg "--preserve=" then strings_Split (dropBytes 11 arg) ","
  else if String.eqb arg "-a" || String.eqb arg "--archive" then ["links"; "all"]
  else if String.eqb arg "-d" then ["links"]
  else [].

(** What is left of the arguments already read, in front of the rest. *)
Definition wrap (seen : list string) (r : rewritten) : rewritten :=
  match r with
  | Rewritten l c => Rewritten (seen ++ l) c
  | r => r
  end.

Fixpoint leftToRight (oargs : list string) (cfg : config) : rewritten :=
  match oargs with
  | [] => Rewritten [] cfg
  | arg :: rest =>
      if String.eqb arg "--preserve" then
        match rest with
        | [] => IndexOutOfRange
        | spec :: rest' =>
            match setPreserve (strings_Split spec ",") cfg with
            | inl err => PreserveFailed err
            | inr cfg' => leftToRight rest' cfg'
            end
        end
      else
        match setPreserve (preserves arg) cfg with
        | inl err => PreserveFailed err
        | inr cfg' =>
            match leftToRight rest cfg' with
            | Rewritten l c => Rewritten (leaves arg ++ l) c
            | r => r
            end
        end
  end.

(** The number of passes an argument can still cause. *)
Definition passes (arg : string) : nat :=
  if strings_HasPrefix arg "--preserve=" then 1
  else if String.eqb arg "-a" || String.eqb arg "--archive" then 4
  else if String.eqb arg "-d" then 2
  else if String.eqb arg "--preserve" then 1
  else 0.

Definition weight (oargs : list string) : nat := list_sum (map passes oargs).

(** An argument the rewriting has nothing to do with. *)
Definition settled (arg : string) : bool :=
  (passes arg =? 0)%nat && negb (String.eqb arg "-R").

(** What an argument says about following symbolic links, if anything:
    [Some true] for no dereference. *)
Definition derefFlag (arg : string) : option bool :=
  if String.eqb arg "-L" || String.eqb arg "--dereference" then Some false
  else if String.eqb arg "-P" || String.eqb arg "--no-dereference" ||
          String.eqb arg "-d" || String.eqb arg "-a" || String.eqb arg "--archive"
  then Some true
  else None.

(** [setPreserve] in closed form. *)
Definition knownPreserve (preserve : string) : bool :=
  String.eqb preserve "" || String.eqb preserve "links" ||
  String.eqb preserve "mode" || String.eqb preserve "all".

Definition asksLinks (preserve : string) : bool :=
  String.eqb preserve "links" || String.eqb preserve "all".

Definition asksMode (preserve : string) : bool :=
  String.eqb preserve "mode" || String.eqb preserve "all".

(** ** The two printers, lines 40-66 *)

Definition msgLine (e : event) : option string :=
  match e with EMsgs line => Some line | _ => None end.

(** The lines the message printer receives, in order. *)
Definition msgLines (evs : list event) : list string := omap msgLine evs.

(** What a printer prints of the lines it receives: it stops at an empty
    line, which is also what a closed channel hands it. *)
Fixpoint printed (lines : list string) : list string :=
  match lines with
  | [] => []
  | line :: rest => if String.eqb line "" then [] else line :: printed rest
  end.

(** A line for a printer that is not empty. *)
Definition audible (e : event) : Prop :=
  match e with
  | EErrs line | EMsgs line => line <> ""
  | _ => True
  end.

(** Code all of whose lines for the printers are not empty. *)
Fixpoint speaks {A} (p : prog A) : Prop :=
  match p with
  | Ret _ => True
  | Call c k => forall x, speaks (k x)
  | SendErrs line k => line <> "" /\ speaks k
  | SendMsgs line k => line <> "" /\ speaks k
  end.

(** ** Descriptors and directory entries, counted on the events *)

(** A descriptor comes into being: [os.Open] or [os.Create] succeeds. *)
Definition isOpened (e : event) : bool :=
  match e with
  | EOpen _ (Ok _) | ECreate _ (Ok _) => true
  | _ => false
  end.

Definition isClosed (e : event) : bool :=
  match e with EClose _ _ => true | _ => false end.

Definition isCreateFailed (e : event) : bool :=
  match e with ECreate _ (Err _) => true | _ => false end.

(** A worker that has a directory open for listing, lines 342-369. *)
Definition walking (w : worker) : nat :=
  match pc w with
  | PReaddir _ _ _ | PEntry _ _ _ _ _ | PSelect _ _ _ _ _ _
  | PSend _ _ _ _ _ _ _ => 1%nat
  | _ => 0%nat
  end.

(** The entries a call of [Readdir] returned. *)
Definition listedBy (e : event) : nat :=
  match e with EReaddir _ _ fis _ => length fis | _ => 0%nat end.

Definition listed (evs : list event) : nat := list_sum (map listedBy evs).

(** The entries of the batch in hand that the loop of line 344 has not
    reached. *)
Definition entriesLeft (w : worker) : nat :=
  match pc w with
  | PEntry _ _ fis _ _ | PSelect _ _ _ fis _ _ | PSend _ _ _ _ fis _ _ => length fis
  | _ => 0%nat
  end.

(** An event that neither makes nor ends a descriptor. *)
Definition handleFree (e : event) : Prop :=
  isOpened e = false /\ isClosed e = false /\ isCreateFailed e = false.

(** The tasks workers have started on, in order. *)
Definition begunTask (e : event) : option copyTask :=
  match e with EBegin t => Some t | _ => None end.

Definition begun (evs : list event) : list copyTask := omap begunTask evs.

(** The line of line 313. *)
Definition announcement (t : copyTask) : string := src t ++ " -> " ++ dst t.

(** ** The tasks of a walk, below the tasks the driver queued *)

Section Within.
Context `{GoLib}.

(** [path.Join(... path.Join(base, n1) ..., nk)] *)
Definition below (base : string) (names : list string) : string :=
  fold_left path_Join names base.

(** The tasks lines 345-359 make of the entries of a directory task, of the
    entries of those, and so on. *)
Inductive within (t0 : copyTask) : copyTask -> Prop :=
| within_seed : within t0 t0
| within_child d fi : within t0 d -> In fi (entriesOf d) -> within t0 (child d fi).

Context (seeds : list copyTask).

Definition planted (t : copyTask) : Prop := exists t0, In t0 seeds /\ within t0 t.

Definition pcPlanted (p : wpc) : Prop :=
  match p with
  | PTop | PDone | PPanic => True
  | PPublish _ t | PRelease _ t | PExec t => planted t
  | PReaddir d _ rest => planted d /\ incl rest (entriesOf d)
  | PEntry d _ fis _ rest =>
      planted d /\ incl fis (entriesOf d) /\ incl rest (entriesOf d)
  | PSelect d _ fi fis _ rest | PSend d _ _ fi fis _ rest =>
      planted d /\ In fi (entriesOf d) /\ incl fis (entriesOf d) /\
      incl rest (entriesOf d)
  end.

Definition wPlanted (w : worker) : Prop :=
  Forall planted (localTasks w) /\ pcPlanted (pc w).

Definition dPlanted (d : dpc) : Prop :=
  match d with
  | DTake t _ _ | DAdd _ t _ _ | DSend _ t _ _ => In t seeds
  | _ => True
  end.

Definition allPlanted (s : state) : Prop :=
  Forall (fun a => planted (heap (sh s) a)) (copyTasks (sh s)) /\
  Forall wPlanted (workers s).

End Within.

(** ** The earlier iteration of the program ([src/unnamed/part_001])

    A [main] with its paths built in, and a worker that knows directories
    and regular files only. The loop of [copier] around the body, lines
    126-152 and 168-195, is that of [cpcp.go]. *)

Module Part001.

Section Body.
(** The base name of the source file, which [runtime.Caller] reports. *)
Context (filename : string).
Context (verbosity : Z).

(** [fmtErr], lines 29-42. *)
Definition fmtErr (line : Z) (pth : string) (err : error) : string :=
  let rv := err_Error err in
  let rv := if String.eqb rv "" then "unknown error" else rv in
  let rv := if negb (String.eqb pth "") then pth ++ ": " ++ rv else rv in
  rv ++ " @" ++ filename ++ ":" ++ fmt_d line.

Definition report (line : Z) (pth : string) (r : option error) : prog unit :=
  match r with
  | Some err => errs_send (fmtErr line pth err)
  | None => skip
  end.

(** Lines 157-167. *)
Definition copyDir (src dst : string) (srcfi : FileInfo) : prog outcome :=
  (r <- call (Mkdir dst (Mode srcfi)) ;;
   match r with
   | Some err => if negb (os_IsExist err) then errs_send (fmtErr 159 dst err) else skip
   | None => skip
   end ;;
   r <- call (Open src) ;;
   match r with
   | Err err =>
       errs_send (fmtErr 164 src err) ;;
       Ret Finish
   | Ok f => Ret (Walk f)
   end)%prog.

(** Lines 197-215. *)
Definition copyRegular (src dst : string) (srcfi : FileInfo) : prog unit :=
  (r <- call (Open src) ;;
   match r with
   | Err err => errs_send (fmtErr 199 src err)
   | Ok srcf =>
       r <- call (Create dst) ;;
       match r with
       | Err err => errs_send (fmtErr 203 dst err)
       | Ok dstf =>
           r <- call (CopyBuffer dstf srcf) ;;
           report 207 dst r ;;
           call (Close srcf) ;;
           call (Close dstf) ;;
           r <- call (Chmod dst (Mode srcfi)) ;;
           report 212 dst r
       end
   end)%prog.

(** Lines 153-216 up to the first operation on [wg] or on the Task Object
    channels. *)
Definition runTask (t : copyTask) : prog outcome :=
  ((if 0 <? verbosity then msgs_send (src t ++ " -> " ++ dst t) else skip) ;;
   match srcfi t with
   | None => Ret Panic
   | Some fi =>
       if IsDir fi then copyDir (src t) (dst t) fi
       else if FileMode.IsRegular (Mode fi) then
         copyRegular (src t) (dst t) fi ;; Ret Finish
       else Ret Finish
   end)%prog.

(** The paths of lines 53-54. *)
Definition main_src : string := "/lib".
Definition main_dst : string := "/mnt/ea/libcopy3".

Definition mustBeDirectory : error :=
  mkError "if source is a directory, destination must be as well" KOther.

(** Lines 93-109 of [main]: the calls made and the line sent, and the task
    submitted at lines 101-106, if one is. *)
Definition seed (os_Lstat : string -> result FileInfo) : list event * option copyTask :=
  let r := os_Lstat main_src in
  match r with
  | Err err => ([ELstat main_src r; EErrs (fmtErr 94 main_src err)], None)
  | Ok srcfi =>
      if IsDir srcfi then
        let r' := os_Lstat main_dst in
        match r' with
        | Ok dstfi =>
            if negb (IsDir dstfi) then
              ([ELstat main_src r; ELstat main_dst r';
                EErrs (fmtErr 99 main_dst mustBeDirectory)], None)
            else
              ([ELstat main_src r; ELstat main_dst r'],
               Some (mkTask main_src main_dst (Some srcfi)))
        | Err _ =>
            ([ELstat main_src r; ELstat main_dst r'],
             Some (mkTask main_src main_dst (Some srcfi)))
        end
      else ([ELstat main_src r], None)
  end.

End Body.

End Part001.

(** ** Small instances, to evaluate the definitions on *)

Module Example.

(** The part of a path after its last slash. *)
Fixpoint afterSlash (s acc : string) : string :=
  match s with
  | EmptyString => acc
  | String c s' =>
      if Ascii.eqb c "/"%char then afterSlash s' ""
      else afterSlash s' (acc ++ String c "")
  end.

(** Stand-ins for the library functions, which agree with them on the plain
    relative paths used below: joining with a slash, the last element of a
    path, and quoting. *)
Definition lib : GoLib :=
  {| path_Join := fun a b => a ++ "/" ++ b;
     path_Base := fun s => afterSlash s "";
     strconv_Quote := fun s => "'" ++ s ++ "'" |}.

(** One worker, recursive, no-dereference, umask 022. *)
Definition cfg1 : config := mkConfig 0 true true 1000 1000 1 1000 65536 18 false false.

(** As [parseArgs] returns it for [-v -v]. *)
Definition verbose2 : config := mkConfig 2 false false 1000 1000 1000 1000 65536 0 false false.

Definition file_a : FileInfo := mkFileInfo "a" 420 [].
Definition link_l : FileInfo := mkFileInfo "l" (Z.lor FileMode.ModeSymlink 511) [].
(** A directory with more entries than [cfg1] has Task Objects. *)
Definition dir_d : FileInfo := mkFileInfo "d" (Z.lor FileMode.ModeDir 493) [file_a; link_l].

Definition eacces : error := mkError "stat out: permission denied" KOther.
Definition enoent (p : string) : error :=
  mkError ("stat " ++ p ++ ": no such file or directory") KNotExist.

Definition stat (p : string) : result FileInfo :=
  if String.eqb p "a" then Ok file_a
  else if String.eqb p "l" then Ok link_l
  else if String.eqb p "d" then Ok dir_d
  else if String.eqb p "out" then Err eacces
  else Err (enoent p).

Definition task_a : copyTask := mkTask "a" "b" (Some file_a).
Definition task_l : copyTask := mkTask "l" "m" (Some link_l).

(** A run of [copyRegular] in which every call succeeds. *)
Definition copy_a : list event :=
  [EOpen "a" (Ok 3%nat); ECreate "b" (Ok 4%nat); ECopyBuffer 4 3 None;
   EClose 3 None; EClose 4 None; EChmod "b" 0 None].

Definition copy_l : list event :=
  [EReadlink "l" (Ok "target"); ESymlink "target" "m" None].

(** After [cp a b] started: the driver has queued its task and the only
    worker has received it and copied its fields (line 309). *)
Definition received : state :=
  mkState (mkShared [] [] (upd 0 task_a (fun _ => emptyTask)) 1)
          [mkWorker [] (PRelease 0 task_a)]
          (DSeed (Single "b") []).

Definition receiving : list label :=
  [(Driver, [EStat "b" (Err (enoent "b"))]);
   (Driver, [ELstat "a" (Ok file_a)]);
   (Driver, [ETake]);
   (Driver, [EAdd]);
   (Driver, [EQueue task_a]);
   (Worker 0, [ERecv task_a])].

(** The next transition of that worker: line 310. *)
Definition released : state :=
  mkState (mkShared [0%nat] [] (upd 0 task_a (fun _ => emptyTask)) 1)
          [mkWorker [] (PExec task_a)]
          (DSeed (Single "b") []).

(** After [cp a l out], where [out] cannot be stat'ed. *)
Definition refused : state :=
  mkState (mkShared [0%nat] [] (fun _ => emptyTask) 0)
          [mkWorker [] PTop]
          DWait.

Definition refusing : list label :=
  [(Driver, [EStat "out" (Err eacces); EErrs (fmtErr 104 "out" eacces)])].

End Example.

(** Instances for the parsers. *)
Module ParseExample.

(** A stand-in for [flags.ParseArgs] that sets no option and leaves every
    argument. *)
Definition noFlags (oargs : list string) : result (parseOpts * list string) :=
  Ok (mkParseOpts [] false false "" false false false false, oargs).

End ParseExample.

(** Instances for the engine: [cp a b] carried further. *)
Module RunExample.
Import Example.

(** The worker has run the body on its task (line 402 is next). *)
Definition copied : state :=
  mkState (mkShared [0%nat] [] (upd 0 task_a (fun _ => emptyTask)) 1)
          [mkWorker [] PDone]
          (DSeed (Single "b") []).

Definition copying : list label :=
  (receiving ++ [(Worker 0, [EFree]); (Worker 0, EBegin task_a :: copy_a)])%list.

(** The driver has reached [wg.Wait()] in the state [received]. *)
Definition waiting : state :=
  mkState (mkShared [] [] (upd 0 task_a (fun _ => emptyTask)) 1)
          [mkWorker [] (PRelease 0 task_a)]
          DWait.

Definition awaiting : list label := (receiving ++ [(Driver, [])])%list.

(** The whole run of [cp a b]. *)
Definition returned : state :=
  mkState (mkShared [0%nat] [] (upd 0 task_a (fun _ => emptyTask)) 0)
          [mkWorker [] PTop]
          DReturn.

Definition returning : list label :=
  (copying ++ [(Worker 0, [EDone]); (Driver, []); (Driver, [EWait])])%list.

End RunExample.

(** Instances for the engine: [cp -P -r -v d e] with one worker, where the
    directory [d] lists more entries than there are Task Objects. *)
Module WalkExample.
Import Example.

(** [cfg1] with one [-v]. *)
Definition verbose1 : config := mkConfig 1 true true 1000 1000 1 1000 65536 18 false false.

Definition task_d : copyTask := mkTask "d" "e" (Some dir_d).
Definition task_da : copyTask := mkTask "d/a" "e/a" (Some file_a).
Definition task_dl : copyTask := mkTask "d/l" "e/l" (Some link_l).

(** What the body does on each of the three tasks when every call succeeds. *)
Definition walk_d : list event :=
  [EMsgs "d -> e"; EMkdir "e" (destMode verbose1 dir_d) None; EOpen "d" (Ok 3%nat)].

Definition copy_dl : list event :=
  [EMsgs "d/l -> e/l"; EReadlink "d/l" (Ok "target"); ESymlink "target" "e/l" None].

Definition copy_da : list event :=
  [EMsgs "d/a -> e/a"; EOpen "d/a" (Ok 4%nat); ECreate "e/a" (Ok 5%nat);
   ECopyBuffer 5 4 None; EClose 4 None; EClose 5 None;
   EChmod "e/a" (destMode verbose1 file_a) None].

(** The worker has opened [d] and the first [Readdir] has returned both
    entries (line 343). *)
Definition listing : state :=
  mkState (mkShared [0%nat] [] (upd 0 task_d (fun _ => emptyTask)) 1)
          [mkWorker [] (PEntry task_d 3 [file_a; link_l] None [])]
          (DSeed (Single "e") []).

Definition listingRun : list label :=
  [(Driver, [EStat "e" (Err (enoent "e"))]);
   (Driver, [ELstat "d" (Ok dir_d)]);
   (Driver, [ETake]);
   (Driver, [EAdd]);
   (Driver, [EQueue task_d]);
   (Worker 0, [ERecv task_d]);
   (Worker 0, [EFree]);
   (Worker 0, EBegin task_d :: walk_d);
   (Worker 0, [EReaddir 3 1000 [file_a; link_l] None])].

(** The Task Objects after the first entry took the only one. *)
Definition heap_da : objid -> copyTask :=
  upd 0 task_da (upd 0 task_d (fun _ => emptyTask)).

(** The listing is over: the first entry went to the Work Queue in the only
    Task Object, the second is in the buffer of the worker, which is back at
    the head of its loop (line 289). *)
Definition buffered : state :=
  mkState (mkShared [] [0%nat] heap_da 2)
          [mkWorker [task_dl] PTop]
          (DSeed (Single "e") []).

Definition bufferingRun : list label :=
  [(Worker 0, [EAdd]);
   (Worker 0, [ETake]);
   (Worker 0, [EQueue task_da]);
   (Worker 0, [EAdd]);
   (Worker 0, [EDefault; EBuffer task_dl]);
   (Worker 0, []);
   (Worker 0, [EReaddir 3 1000 [] (Some io_EOF)]);
   (Worker 0, [EClose 3 None]);
   (Worker 0, [EDone])].

Definition buffering : list label := (listingRun ++ bufferingRun)%list.

(** The whole run. *)
Definition returned : state :=
  mkState (mkShared [0%nat] [] heap_da 0)
          [mkWorker [] PTop]
          DReturn.

Definition returningRun : list label :=
  [(Worker 0, [EDefault]);
   (Worker 0, EBegin task_dl :: copy_dl);
   (Worker 0, [EDone]);
   (Worker 0, [ERecv task_da]);
   (Worker 0, [EFree]);
   (Worker 0, EBegin task_da :: copy_da);
   (Worker 0, [EDone]);
   (Driver, []);
   (Driver, [EWait])].

Definition returning : list label := (buffering ++ returningRun)%list.

End WalkExample.

(** * Properties *)

(** ** Runs of straight-line code *)

Lemma runs_bind {A B} (p : prog A) (f : A -> prog B) tr b :
  runs (bind p f) tr b <->
  exists tr1 a tr2, runs p tr1 a /\ runs (f a) tr2 b /\ tr = (tr1 ++ tr2)%list.
Proof.
  revert tr. induction p as [a|X c k IH|line k IH|line k IH]; intros tr; simpl.
  - split.
    + intros Hr. exists [], a, tr. auto.
    + intros (tr1 & a' & tr2 & [-> ->] & Hr & ->). exact Hr.
  - split.
    + intros (x & tr' & -> & Hr). apply IH in Hr as (tr1 & a & tr2 & H1 & H2 & ->).
      exists (log c x :: tr1), a, tr2. split; [|auto]. exists x, tr1. auto.
    + intros (tr1 & a & tr2 & (x & tr' & -> & H1) & H2 & ->).
      exists x, (tr' ++ tr2)%list. split; [reflexivity|]. apply IH. eauto 6.
  - split.
    + intros (tr' & -> & Hr). apply IH in Hr as (tr1 & a & tr2 & H1 & H2 & ->).
      exists (EErrs line :: tr1), a, tr2. split; [|auto]. exists tr1. auto.
    + intros (tr1 & a & tr2 & (tr' & -> & H1) & H2 & ->).
      exists (tr' ++ tr2)%list. split; [reflexivity|]. apply IH. eauto 6.
  - split.
    + intros (tr' & -> & Hr). apply IH in Hr as (tr1 & a & tr2 & H1 & H2 & ->).
      exists (EMsgs line :: tr1), a, tr2. split; [|auto]. exists tr1. auto.
    + intros (tr1 & a & tr2 & (tr' & -> & H1) & H2 & ->).
      exists (tr' ++ tr2)%list. split; [reflexivity|]. apply IH. eauto 6.
Qed.

(** Every call has an answer, so straight-line code always runs through. *)
Lemma answer_exists {X} (c : fsE X) : inhabited X.
Proof.
  destruct c; constructor;
    first [exact None | exact (Err io_EOF)].
Qed.

Lemma runs_total {A} (p : prog A) : exists tr a, runs p tr a.
Proof.
  induction p as [a|X c k IH|line k IH|line k IH]; simpl.
  - exists [], a. auto.
  - destruct (answer_exists c) as [x]. destruct (IH x) as (tr & a & Hr).
    exists (log c x :: tr), a, x, tr. auto.
  - destruct IH as (tr & a & Hr). exists (EErrs line :: tr), a, tr. auto.
  - destruct IH as (tr & a & Hr). exists (EMsgs line :: tr), a, tr. auto.
Qed.

(** Case analysis on a run of the loop body. *)
Ltac runs_inv :=
  repeat match goal with
  | H : _ = [] /\ _ = _ |- _ => destruct H as [-> ?]
  | H : runs (Ret _) _ _ |- _ => destruct H as [-> ?]
  | H : runs (Call _ _) _ _ |- _ => destruct H as (? & ? & -> & H); cbv beta in H
  | H : runs (SendErrs _ _) _ _ |- _ => destruct H as (? & -> & H)
  | H : runs (SendMsgs _ _) _ _ |- _ => destruct H as (? & -> & H)
  | H : runs (bind _ _) _ _ |- _ =>
      apply runs_bind in H; destruct H as (? & ? & ? & ? & H & ->); cbv beta in *
  | H : runs (if ?b then _ else _) _ _ |- _ => destruct b eqn:?
  | H : runs (match ?r with Some _ => _ | None => _ end) _ _ |- _ => destruct r eqn:?
  | H : runs (match ?r with Ok _ => _ | Err _ => _ end) _ _ |- _ => destruct r eqn:?
  | H : runs _ _ _ |- _ => progress (unfold call, errs_send, msgs_send, skip, report in H)
  end; simplify_eq.

(** ** Modes *)

Lemma symlinkTest_true m : FileMode.symlinkTest m = true.
Proof.
  unfold FileMode.symlinkTest. apply negb_true_iff, Z.eqb_neq. intros Hz.
  assert (Hb : Z.testbit (Z.lor m FileMode.ModeSymlink) 27 = true).
  { rewrite Z.lor_spec. replace (Z.testbit FileMode.ModeSymlink 27) with true by reflexivity.
    apply orb_true_r. }
  rewrite Hz in Hb. discriminate.
Qed.

(** C5. For every mode [m], the test of line 394, [m|os.ModeSymlink != 0], is
    true: the inclusive or sets the symlink bit, so the result is never zero.
    The test therefore accepts every task that reaches it, whatever its
    metadata. *)
Theorem symlink_test_accepts_every_mode (m : FileMode.t) :
  FileMode.symlinkTest m = true /\
  negb (Z.lor m FileMode.ModeSymlink =? 0) = true.
Proof. split; apply symlinkTest_true. Qed.

(** ** The loop body: modes, symbolic links, descriptors *)

Section BodyFacts.
Context `{GoLib}.

Lemma destMode_rule cfg fi :
  destMode cfg fi =
  if preserveMode cfg then Mode fi else Z.land (Mode fi) (umask cfg).
Proof. unfold destMode. destruct (preserveMode cfg); reflexivity. Qed.

Lemma copyDir_modes cfg src dst fi tr o :
  runs (copyDir cfg src dst fi) tr o ->
  (forall e pm, In e tr -> appliesMode e = Some pm -> pm = (dst, destMode cfg fi)) /\
  (recursive cfg = true ->
   exists r tr', tr = EMkdir dst (destMode cfg fi) r :: tr' /\
     (preserveMode cfg = true -> exists r', In (EChmod dst (destMode cfg fi) r') tr')).
Proof.
  unfold copyDir. intros Hr.
  destruct (recursive cfg), (preserveMode cfg) eqn:Hpm;
    cbv beta iota delta [negb] in Hr; runs_inv; simpl in *;
    (split;
     [ intros ev pm Hin He; simpl in Hin; rewrite ?in_app_iff in Hin; simpl in Hin;
       intuition (subst; simpl in *; try congruence)
     | intros Hrec;
       first [ discriminate
             | eexists _, _; split; [reflexivity|]; intros Hp;
               first [discriminate | eexists; simpl; eauto 10] ] ]).
Qed.

Lemma copyRegular_modes cfg src dst fi tr :
  runs (copyRegular cfg src dst fi) tr tt ->
  (forall e pm, In e tr -> appliesMode e = Some pm -> pm = (dst, destMode cfg fi)) /\
  (forall srcf dstf, In (EOpen src (Ok srcf)) tr -> In (ECreate dst (Ok dstf)) tr ->
     exists r, In (EChmod dst (destMode cfg fi) r) tr).
Proof.
  unfold copyRegular. intros Hr. runs_inv; simpl in *;
    (split;
     [ intros ev pm Hin He; simpl in Hin; rewrite ?in_app_iff in Hin; simpl in Hin;
       intuition (subst; simpl in *; try congruence)
     | intros srcf' dstf' H1 H2; simpl in *;
       intuition (try congruence); eexists; eauto 12 ]).
Qed.

Lemma copySymlink_modes src dst tr :
  runs (copySymlink src dst) tr tt ->
  forall e pm, In e tr -> appliesMode e = Some pm -> False.
Proof.
  unfold copySymlink. intros Hr. runs_inv; simpl in *;
    intros ev pm Hin He; intuition (subst; simpl in *; congruence).
Qed.

(** C4. Permission rule. Whenever a worker runs a task (line 312 on), every
    mode it applies, by [os.Mkdir] or [os.Chmod], is applied to the task's
    destination and is the source mode ANDed with the captured umask mask
    when preserve-mode is off, and the source mode itself when it is on, and
    the task is a directory or a regular file. A directory of a recursive run
    is created with that mode, and with preserve-mode the mode is applied
    again by a chmod after the mkdir; a regular file whose source was opened
    and whose destination was created gets the mode by a chmod. *)
Theorem permission_rule (cfg : config) (t : copyTask) (fi : FileInfo)
    (tr : list event) (o : outcome) :
  srcfi t = Some fi ->
  runs (runTask cfg t) tr o ->
  let rule := if preserveMode cfg then Mode fi else Z.land (Mode fi) (umask cfg) in
  (forall e p m, In e tr -> appliesMode e = Some (p, m) ->
     p = dst t /\ m = rule /\ (IsDir fi = true \/ FileMode.IsRegular (Mode fi) = true)) /\
  (IsDir fi = true -> recursive cfg = true ->
     exists r tr1 tr2, tr = (tr1 ++ EMkdir (dst t) rule r :: tr2)%list /\
       (preserveMode cfg = true -> exists r', In (EChmod (dst t) rule r') tr2)) /\
  (IsDir fi = false -> FileMode.IsRegular (Mode fi) = true ->
     forall srcf dstf, In (EOpen (src t) (Ok srcf)) tr -> In (ECreate (dst t) (Ok dstf)) tr ->
       exists r, In (EChmod (dst t) rule r) tr).
Proof.
  intros Hfi Hr rule. subst rule. rewrite <- destMode_rule.
  unfold runTask in Hr. rewrite Hfi in Hr.
  apply runs_bind in Hr as (tr0 & [] & tr1 & Hmsg & Hr & ->).
  assert (Hmsgs : forall e, In e tr0 -> exists line, e = EMsgs line).
  { destruct (0 <? verbosity cfg); runs_inv; simpl; intros ev Hev;
      intuition (subst; eauto). }
  assert (Hquiet : forall e, In e tr0 -> appliesMode e = None).
  { intros e He. apply Hmsgs in He as [line ->]. reflexivity. }
  destruct (IsDir fi) eqn:Hdir.
  - apply copyDir_modes in Hr as [Hall Hex]. split; [|split].
    + intros e p m Hin He.
      apply in_app_iff in Hin as [Hin|Hin]; [apply Hquiet in Hin; congruence|].
      specialize (Hall _ _ Hin He). injection Hall as -> ->. auto.
    + intros _ Hrec. destruct (Hex Hrec) as (r & tr' & -> & Hch).
      exists r, tr0, tr'. auto.
    + discriminate.
  - destruct (FileMode.IsRegular (Mode fi)) eqn:Hreg.
    + apply runs_bind in Hr as (tr2 & [] & tr3 & Hr & Hret & ->).
      destruct Hret as [-> _]. rewrite app_nil_r.
      apply copyRegular_modes in Hr as [Hall Hex]. split; [|split].
      * intros e p m Hin He.
        apply in_app_iff in Hin as [Hin|Hin]; [apply Hquiet in Hin; congruence|].
        specialize (Hall _ _ Hin He). injection Hall as -> ->. auto.
      * discriminate.
      * intros _ _ srcf dstf H1 H2.
        apply in_app_iff in H1 as [H1|H1]; [apply Hmsgs in H1 as [? ?]; discriminate|].
        apply in_app_iff in H2 as [H2|H2]; [apply Hmsgs in H2 as [? ?]; discriminate|].
        destruct (Hex _ _ H1 H2) as [r Hin]. exists r. apply in_app_iff. auto.
    + rewrite symlinkTest_true in Hr.
      apply runs_bind in Hr as (tr2 & [] & tr3 & Hr & Hret & ->).
      destruct Hret as [-> _]. rewrite app_nil_r. split; [|split].
      * intros e p m Hin He.
        apply in_app_iff in Hin as [Hin|Hin]; [apply Hquiet in Hin; congruence|].
        exfalso. eapply copySymlink_modes; eauto.
      * discriminate.
      * discriminate.
Qed.

(** On the path where both files are open, both are closed before the mode
    is applied, whether or not the copy failed. *)
Lemma copyRegular_closes_before_chmod cfg src dst fi tr dstf :
  runs (copyRegular cfg src dst fi) tr tt ->
  In (ECreate dst (Ok dstf)) tr ->
  exists srcf rc r1 r2 r3,
    tr = ([EOpen src (Ok srcf); ECreate dst (Ok dstf); ECopyBuffer dstf srcf rc] ++
          reported 381 dst rc ++
          [EClose srcf r1; EClose dstf r2; EChmod dst (destMode cfg fi) r3] ++
          reported 390 dst r3)%list.
Proof.
  unfold copyRegular. intros Hr Hc. runs_inv; simpl in Hc;
    destruct_or?; simplify_eq; try contradiction.
  all: simpl;
    lazymatch goal with
    | |- context [ECopyBuffer _ ?a ?rc :: _] =>
        lazymatch goal with
        | |- context [EClose a ?r1 :: EClose _ ?r2 :: EChmod _ _ ?r3 :: _] =>
            exists a, rc, r1, r2, r3; reflexivity
        end
    end.
Qed.

(** C8. Descriptor discipline, evaluated where it fails. When [os.Open] of the
    source succeeds and [os.Create] of the destination fails (lines 375-377),
    the branch reports the error and ends: this is the whole run, and it has
    no [Close] at all, so the source stays open. *)
Theorem create_failure_leaves_source_open (cfg : config) (src dst : string)
    (fi : FileInfo) (srcf : handle) (err : error) :
  let tr := [EOpen src (Ok srcf); ECreate dst (Err err); EErrs (fmtErr 377 dst err)] in
  runs (copyRegular cfg src dst fi) tr tt /\
  (forall f r, ~ In (EClose f r) tr) /\
  (forall tr', runs (copyRegular cfg src dst fi) tr' tt ->
     In (EOpen src (Ok srcf)) tr' -> In (ECreate dst (Err err)) tr' -> tr' = tr).
Proof.
  intros tr. subst tr. split; [|split].
  - unfold copyRegular. simpl. eexists (Ok srcf), _. split; [reflexivity|].
    eexists (Err err), _. split; [reflexivity|]. eexists. split; [reflexivity|]. done.
  - intros f r Hin. simpl in Hin. intuition congruence.
  - unfold copyRegular. intros tr' Hr Ho Hc. runs_inv; simpl in Ho, Hc;
      destruct_or?; simplify_eq; try contradiction. reflexivity.
Qed.

Lemma symlink_not_regular m :
  FileMode.hasSymlinkBit m = true -> FileMode.IsRegular m = false.
Proof.
  unfold FileMode.hasSymlinkBit, FileMode.IsRegular.
  intros Hs. apply negb_true_iff, Z.eqb_neq in Hs. apply Z.eqb_neq. intros Hz.
  apply Hs. apply Z.bits_inj'. intros n Hn. rewrite Z.land_spec, Z.bits_0.
  assert (Hb : Z.testbit (Z.land m FileMode.ModeType) n = false)
    by (rewrite Hz; apply Z.bits_0).
  rewrite Z.land_spec in Hb.
  destruct (Z.testbit FileMode.ModeSymlink n) eqn:Hbit; [|apply andb_false_r].
  assert (n = 27) as ->.
  { unfold FileMode.ModeSymlink in Hbit. rewrite Z.shiftl_1_l in Hbit.
    destruct (Z.eq_dec n 27) as [|Hne]; [assumption|].
    rewrite Z.pow2_bits_false in Hbit by congruence. discriminate. }
  replace (Z.testbit FileMode.ModeType 27) with true in Hb by reflexivity.
  rewrite andb_true_r in Hb. rewrite Hb. reflexivity.
Qed.

(** C6. Symlink round trip. With no-dereference the driver takes the metadata
    of a source from [os.Lstat], so a symbolic link is handed to the workers
    with the symlink bit in its mode. A worker that runs a task whose mode has
    the symlink bit (and is not a directory) reads the link at the source
    path, and when the read succeeds with [target] it calls [os.Symlink] with
    exactly [target] for the destination path, and with no other target or
    path. *)
Theorem symlink_round_trip (cfg : config) (t : copyTask) (fi : FileInfo)
    (tr : list event) (o : outcome) :
  srcfi t = Some fi ->
  FileMode.hasSymlinkBit (Mode fi) = true ->
  IsDir fi = false ->
  runs (runTask cfg t) tr o ->
  o = Finish /\
  (exists r, In (EReadlink (src t) r) tr) /\
  (forall target, In (EReadlink (src t) (Ok target)) tr ->
     (exists r, In (ESymlink target (dst t) r) tr) /\
     (forall target' p r, In (ESymlink target' p r) tr -> target' = target /\ p = dst t)) /\
  (forall os_Stat os_Lstat m s, noDereference cfg = true -> os_Lstat s = Ok fi ->
     seedOne os_Stat os_Lstat cfg m s =
       ([ELstat s (Ok fi)], Some (mkTask s (dstFor m s) (Some fi)))).
Proof.
  intros Hfi Hsym Hdir Hr.
  assert (Hseed : forall os_Stat os_Lstat m s, noDereference cfg = true ->
    os_Lstat s = Ok fi ->
    seedOne os_Stat os_Lstat cfg m s =
      ([ELstat s (Ok fi)], Some (mkTask s (dstFor m s) (Some fi)))).
  { intros os_Stat os_Lstat m s Hnd Hl. unfold seedOne. rewrite Hnd, Hl, Hdir.
    reflexivity. }
  unfold runTask in Hr. rewrite Hfi, Hdir, (symlink_not_regular _ Hsym),
    symlinkTest_true in Hr.
  unfold copySymlink in Hr.
  destruct (0 <? verbosity cfg); runs_inv; simpl;
    (split; [reflexivity|]); (split; [eauto 6|]); (split; [|exact Hseed]);
    intros target Hin; simpl in Hin;
    (split; [ intuition (simplify_eq; eauto 8)
            | intros target' p r' Hin'; simpl in Hin';
              intuition (simplify_eq; auto) ]).
Qed.

End BodyFacts.

(** ** Sums and counts over the list of workers *)

Lemma sum_list_with_insert {A} (g : A -> nat) (l : list A) i x y :
  l !! i = Some x ->
  (sum_list_with g (<[i := y]> l) + g x = sum_list_with g l + g y)%nat.
Proof.
  revert i. induction l as [|a l IH]; intros [|i] Hl; simpl in *; try discriminate.
  - injection Hl as ->. lia.
  - specialize (IH _ Hl). lia.
Qed.

Lemma sum_list_with_zero {A} (g : A -> nat) (l : list A) :
  sum_list_with g l = 0%nat <-> Forall (fun x => g x = 0%nat) l.
Proof.
  induction l as [|a l IH]; simpl.
  - split; auto.
  - rewrite Forall_cons. split.
    + intros Hs. split; [lia|]. apply IH. lia.
    + intros [H0 Hl]. apply IH in Hl. lia.
Qed.

Lemma length_flat_map_sum {A B} (g : A -> list B) (l : list A) :
  length (flat_map g l) = sum_list_with (fun x => length (g x)) l.
Proof.
  induction l as [|a l IH]; simpl; [reflexivity|].
  rewrite length_app, IH. reflexivity.
Qed.

Lemma count_occ_flat_map_sum {A} (g : A -> list nat) (l : list A) (a : nat) :
  count_occ Nat.eq_dec (flat_map g l) a =
  sum_list_with (fun x => count_occ Nat.eq_dec (g x) a) l.
Proof.
  induction l as [|b l IH]; simpl; [reflexivity|].
  rewrite count_occ_app, IH. reflexivity.
Qed.

Lemma list_sum_app_nat (l1 l2 : list nat) :
  list_sum (l1 ++ l2) = (list_sum l1 + list_sum l2)%nat.
Proof. induction l1; simpl; lia. Qed.

Lemma sum_list_with_snoc {A} (g : A -> nat) (l : list A) x :
  sum_list_with g (l ++ [x]) = (sum_list_with g l + g x)%nat.
Proof. rewrite sum_list_with_app. simpl. lia. Qed.

(** ** Writing the fields of a Task Object *)

Section HeapFacts.
Context `{GoLib}.

Lemma occ_zero_not_in (l : list nat) a :
  count_occ Nat.eq_dec l a = 0%nat -> ~ In a l.
Proof. intros Hz. apply (count_occ_not_In Nat.eq_dec). exact Hz. Qed.

Lemma upd_same a t h : upd a t h a = t.
Proof. unfold upd. rewrite Nat.eqb_refl. reflexivity. Qed.

Lemma upd_other a b t h : a <> b -> upd a t h b = h b.
Proof. unfold upd. intros Hne. apply Nat.eqb_neq in Hne. rewrite Hne. reflexivity. Qed.

Lemma Forall_upd_fresh (P : copyTask -> Prop) a t h (l : list nat) :
  ~ In a l -> Forall (fun b => P (h b)) l -> Forall (fun b => P (upd a t h b)) l.
Proof.
  intros Hn Hf. apply Forall_forall. intros b Hb. rewrite upd_other.
  - rewrite Forall_forall in Hf. auto.
  - intros ->. apply Hn. apply list_elem_of_In. exact Hb.
Qed.

Lemma sum_upd_fresh (g : copyTask -> nat) a t h (l : list nat) :
  ~ In a l ->
  sum_list_with (fun b => g (upd a t h b)) l = sum_list_with (fun b => g (h b)) l.
Proof.
  induction l as [|b l IH]; simpl; [reflexivity|]. intros Hn.
  rewrite upd_other by (simpl in Hn; intuition congruence).
  rewrite IH by (simpl in Hn; tauto). reflexivity.
Qed.

Lemma wfilled_upd a t h w :
  ~ In a (wheld (pc w)) -> wfilled h w -> wfilled (upd a t h) w.
Proof.
  unfold wfilled. destruct (pc w); simpl; try tauto;
    intros Hn Hh; rewrite upd_other; intuition congruence.
Qed.

Lemma dfilled_upd a t h d :
  ~ In a (dheld d) -> dfilled h d -> dfilled (upd a t h) d.
Proof.
  unfold dfilled. destruct d; simpl; try tauto;
    intros Hn Hh; rewrite upd_other; intuition congruence.
Qed.

End HeapFacts.

(** ** The Task Objects are conserved *)

Section EngineFacts.
Context `{GoLib}.
Context (os_Stat os_Lstat : string -> result FileInfo).
Context (cfg : config).

Notation step := (step os_Stat os_Lstat cfg).
Notation run := (run os_Stat os_Lstat cfg).
Notation dstep := (dstep os_Stat os_Lstat cfg).
Notation wstep := (wstep cfg).
Notation occ l a := (count_occ Nat.eq_dec l a).
Notation inv := (inv cfg).
Notation twf := (twf cfg).
Notation wwf := (wwf cfg).

Lemma step_objects_count s l s' a :
  step s l s' -> occ (objects s') a = occ (objects s) a.
Proof.
  intros Hs. unfold objects.
  destruct Hs as [i w tr s' w' s ws d Hlk Hw | tr s' d' s ws d Hd].
  - rewrite !count_occ_app, !count_occ_flat_map_sum.
    pose proof (sum_list_with_insert
      (fun w => occ (wheld (pc w)) a) ws i w w' Hlk) as Hi.
    destruct Hw; simpl in *; rewrite ?count_occ_app in *; simpl in *;
      repeat match goal with
      | |- context [Nat.eq_dec ?x ?y] => destruct (Nat.eq_dec x y)
      | H : context [Nat.eq_dec ?x ?y] |- _ => destruct (Nat.eq_dec x y)
      end; try lia.
    all: match goal with |- context [after ?t ?o] => destruct o; simpl in *; lia end.
  - rewrite !count_occ_app.
    destruct Hd; simpl in *; rewrite ?count_occ_app in *; simpl in *;
      repeat match goal with
      | |- context [Nat.eq_dec ?x ?y] => destruct (Nat.eq_dec x y)
      end; try lia.
    all: unfold seedInit; destruct srcs as [|? [|? ?]]; simpl;
      repeat match goal with
      | |- context [match ?x with _ => _ end] => destruct x
      end; simpl; lia.
Qed.

Lemma step_objects s l s' :
  step s l s' -> objects s' ≡ₚ objects s.
Proof.
  intros Hs. apply (Permutation_count_occ Nat.eq_dec). intros a.
  eapply step_objects_count; eauto.
Qed.

(** What the conservation gives: the pool, the queue and the threads hold
    [capacity] objects between them, and an object taken from the pool is in
    no other place. *)
Lemma objects_length s :
  objects s ≡ₚ seq 0 (capacity cfg) ->
  (length (freeCopyTasks (sh s)) + length (copyTasks (sh s)) +
   length (dheld (driver s)) +
   sum_list_with (fun w => length (wheld (pc w))) (workers s) = capacity cfg)%nat.
Proof.
  intros Hp. apply Permutation_length in Hp. rewrite length_seq in Hp.
  unfold objects in Hp. rewrite !length_app, length_flat_map_sum in Hp.
  cbv beta in Hp. lia.
Qed.

Lemma objects_once s a :
  objects s ≡ₚ seq 0 (capacity cfg) ->
  (occ (freeCopyTasks (sh s)) a + occ (copyTasks (sh s)) a +
   occ (dheld (driver s)) a +
   sum_list_with (fun w => occ (wheld (pc w)) a) (workers s) <= 1)%nat.
Proof.
  intros Hp.
  assert (Hc : occ (objects s) a = occ (seq 0 (capacity cfg)) a)
    by (apply (Permutation_count_occ Nat.eq_dec); exact Hp).
  assert (Hn : (occ (seq 0 (capacity cfg)) a <= 1)%nat).
  { apply (proj1 (List.NoDup_count_occ Nat.eq_dec _)). apply List.seq_NoDup. }
  unfold objects in Hc. rewrite !count_occ_app, count_occ_flat_map_sum in Hc.
  cbv beta in Hc. lia.
Qed.

Lemma runTask_outcome t tr o :
  runs (runTask cfg t) tr o ->
  match o with
  | Panic => srcfi t = None
  | Continue => exists fi, srcfi t = Some fi /\ IsDir fi = true /\ recursive cfg = false
  | Walk _ => exists fi, srcfi t = Some fi /\ IsDir fi = true /\ recursive cfg = true
  | Finish => True
  end.
Proof.
  unfold runTask, copyDir, copyRegular, copySymlink. intros Hr.
  apply runs_bind in Hr as (tr0 & [] & tr1 & _ & Hr & ->).
  destruct (srcfi t) as [fi|]; [|runs_inv; reflexivity].
  destruct (IsDir fi) eqn:Hdir.
  - destruct (recursive cfg) eqn:Hrec; cbv beta iota delta [negb] in Hr;
      runs_inv; eauto.
  - destruct (FileMode.IsRegular (Mode fi)); [|rewrite symlinkTest_true in Hr];
      runs_inv; exact I.
Qed.

(** An object received from the pool is neither queued nor held. *)
Lemma take_fresh s a free :
  objects s ≡ₚ seq 0 (capacity cfg) ->
  freeCopyTasks (sh s) = a :: free ->
  ~ In a (copyTasks (sh s)) /\ ~ In a (dheld (driver s)) /\
  Forall (fun w => ~ In a (wheld (pc w))) (workers s).
Proof.
  intros Hp Hf. pose proof (objects_once s a Hp) as Ho. rewrite Hf in Ho.
  simpl in Ho. destruct (Nat.eq_dec a a) as [_|Hne]; [|congruence].
  split; [|split].
  - apply occ_zero_not_in. lia.
  - apply occ_zero_not_in. lia.
  - assert (Hz : sum_list_with (fun w => occ (wheld (pc w)) a) (workers s) = 0%nat) by lia.
    apply sum_list_with_zero in Hz. eapply Forall_impl; [exact Hz|].
    intros w Hw. apply occ_zero_not_in. exact Hw.
Qed.

Lemma twf_child d fi : recursive cfg = true -> twf (child d fi).
Proof. intros Hr. exists fi. split; [reflexivity|auto]. Qed.

Lemma seedOne_twf m src t : snd (seedOne os_Stat os_Lstat cfg m src) = Some t -> twf t.
Proof.
  unfold seedOne.
  destruct (if noDereference cfg then os_Lstat src else os_Stat src) as [fi|e];
    [|discriminate].
  destruct (IsDir fi && negb (recursive cfg)) eqn:Hb; [discriminate|].
  simpl. intros [= <-]. exists fi. split; [reflexivity|]. intros Hd.
  rewrite Hd in Hb. simpl in Hb. apply negb_false_iff in Hb. exact Hb.
Qed.

Lemma step_wg s l s' :
  inv s -> step s l s' -> wg (sh s') = Z.of_nat (outstanding s').
Proof.
  intros [Hobj Hlen Hwg Hq Hw Hd Hwf Hdf] Hs. unfold outstanding in *.
  destruct Hs as [i w tr sh' w' sh0 ws d Hlk Hstep | tr sh' d' sh0 ws d Hstep];
    simpl in *.
  - pose proof (sum_list_with_insert wpending ws i w w' Hlk) as Hi.
    pose proof (Forall_lookup_1 _ _ _ _ Hw Hlk) as [Hlocal Hpc].
    destruct Hstep; unfold wpending in *; simpl in *;
      rewrite ?length_app in *; simpl in *; try lia.
    match goal with
    | Hr : runs _ _ _ |- _ => apply runTask_outcome in Hr; rename Hr into Hout
    end.
    destruct Hpc as (fi & Hfi & Hrec).
    destruct o; simpl in *; try lia.
    destruct Hout as (fi' & Hfi' & Hdir & Hnr). rewrite Hfi in Hfi'.
    injection Hfi' as <-. rewrite Hrec in Hnr by assumption. discriminate.
  - destruct Hstep; simpl in *; rewrite ?length_app in *; simpl in *; try lia.
    unfold seedInit. destruct srcs as [|? [|? ?]]; simpl;
      repeat match goal with
      | |- context [match ?x with _ => _ end] => destruct x
      end; simpl; lia.
Qed.

Lemma step_queue s l s' :
  inv s -> step s l s' -> Forall (fun a => twf (heap (sh s') a)) (copyTasks (sh s')).
Proof.
  intros [Hobj Hlen Hwg Hq Hw Hd Hwf Hdf] Hs.
  destruct Hs as [i w tr sh' w' sh0 ws d Hlk Hstep | tr sh' d' sh0 ws d Hstep];
    simpl in *.
  - pose proof (Forall_lookup_1 _ _ _ _ Hw Hlk) as [Hlocal Hpc].
    pose proof (Forall_lookup_1 _ _ _ _ Hwf Hlk) as Hfill.
    destruct Hstep; simpl in *; try assumption.
    + (* a buffered task is written into a pool object *)
      destruct (take_fresh _ _ _ Hobj eq_refl) as (Hnq & _ & _).
      apply Forall_upd_fresh; assumption.
    + apply Forall_app. split; [assumption|]. constructor; [|constructor].
      unfold wfilled in Hfill. simpl in Hfill. rewrite Hfill. exact Hpc.
    + inversion Hq; assumption.
    + destruct (take_fresh _ _ _ Hobj eq_refl) as (Hnq & _ & _).
      apply Forall_upd_fresh; assumption.
    + apply Forall_app. split; [assumption|]. constructor; [|constructor].
      unfold wfilled in Hfill. simpl in Hfill. rewrite Hfill.
      apply twf_child. apply Hpc.
  - destruct Hstep; simpl in *; try assumption.
    + destruct (take_fresh _ _ _ Hobj eq_refl) as (Hnq & _ & _).
      apply Forall_upd_fresh; assumption.
    + apply Forall_app. split; [assumption|]. constructor; [|constructor].
      simpl in Hdf. rewrite Hdf. exact Hd.
Qed.

Lemma step_wwf s l s' :
  inv s -> step s l s' -> Forall wwf (workers s').
Proof.
  intros [Hobj Hlen Hwg Hq Hw Hd Hwf Hdf] Hs.
  destruct Hs as [i w tr sh' w' sh0 ws d Hlk Hstep | tr sh' d' sh0 ws d Hstep];
    simpl in *; [|assumption].
  pose proof (Forall_lookup_1 _ _ _ _ Hw Hlk) as [Hlocal Hpc].
  apply Forall_insert; [assumption|].
  destruct Hstep; unfold wwf in *; simpl in *;
    try (apply Forall_app in Hlocal as [Hl1 Hl2]; inversion Hl2; subst);
    try (split; [assumption|]); try tauto.
  - (* received from the queue *) inversion Hq; assumption.
  - (* the body has run *)
    match goal with
    | Hr : runs _ _ _ |- _ => apply runTask_outcome in Hr; rename Hr into Hout
    end.
    destruct Hpc as (fi & Hfi & Hrec).
    destruct o; simpl in *; try exact I.
    + destruct Hout as (fi' & Hfi' & Hdir & Hr). split; [exists fi; auto|assumption].
    + congruence.
  - (* a child is buffered *)
    split; [|tauto]. apply Forall_app. split; [assumption|].
    constructor; [|constructor]. apply twf_child. tauto.
Qed.

Lemma step_dwf s l s' :
  inv s -> step s l s' -> dwf cfg (driver s').
Proof.
  intros [Hobj Hlen Hwg Hq Hw Hd Hwf Hdf] Hs.
  destruct Hs as [i w tr sh' w' sh0 ws d Hlk Hstep | tr sh' d' sh0 ws d Hstep];
    simpl in *; [assumption|].
  destruct Hstep; simpl in *; try assumption; try exact I.
  - unfold seedInit. destruct srcs as [|? [|? ?]]; simpl;
      repeat match goal with
      | |- context [match ?x with _ => _ end] => destruct x
      end; simpl; exact I.
  - eapply seedOne_twf; eauto.
Qed.

Lemma step_wfilled s l s' :
  inv s -> step s l s' -> Forall (wfilled (heap (sh s'))) (workers s').
Proof.
  intros [Hobj Hlen Hwg Hq Hw Hd Hwf Hdf] Hs.
  destruct Hs as [i w tr sh' w' sh0 ws d Hlk Hstep | tr sh' d' sh0 ws d Hstep];
    simpl in *.
  - pose proof (Forall_lookup_1 _ _ _ _ Hwf Hlk) as Hfill.
    destruct Hstep; simpl in *;
      try (apply Forall_insert; [assumption|]; unfold wfilled in *; simpl in *;
           first [exact I | assumption]).
    + destruct (take_fresh _ _ _ Hobj eq_refl) as (_ & _ & Hnw). simpl in Hnw.
      apply Forall_insert; [|unfold wfilled; simpl; apply upd_same].
      eapply Forall_impl; [apply Forall_and; split; [exact Hwf|exact Hnw]|].
      intros w [Hf Hn]. apply wfilled_upd; assumption.
    + apply Forall_insert; [assumption|]. unfold wfilled. simpl.
      destruct o; exact I.
    + destruct (take_fresh _ _ _ Hobj eq_refl) as (_ & _ & Hnw). simpl in Hnw.
      apply Forall_insert; [|unfold wfilled; simpl; apply upd_same].
      eapply Forall_impl; [apply Forall_and; split; [exact Hwf|exact Hnw]|].
      intros w [Hf Hn]. apply wfilled_upd; assumption.
  - destruct Hstep; simpl in *; try assumption.
    destruct (take_fresh _ _ _ Hobj eq_refl) as (_ & _ & Hnw). simpl in Hnw.
    eapply Forall_impl; [apply Forall_and; split; [exact Hwf|exact Hnw]|].
    intros w [Hf Hn]. apply wfilled_upd; assumption.
Qed.

Lemma step_dfilled s l s' :
  inv s -> step s l s' -> dfilled (heap (sh s')) (driver s').
Proof.
  intros [Hobj Hlen Hwg Hq Hw Hd Hwf Hdf] Hs.
  destruct Hs as [i w tr sh' w' sh0 ws d Hlk Hstep | tr sh' d' sh0 ws d Hstep];
    simpl in *.
  - destruct Hstep; simpl in *; try assumption.
    + destruct (take_fresh _ _ _ Hobj eq_refl) as (_ & Hnd & _). simpl in Hnd.
      apply dfilled_upd; assumption.
    + destruct (take_fresh _ _ _ Hobj eq_refl) as (_ & Hnd & _). simpl in Hnd.
      apply dfilled_upd; assumption.
  - destruct Hstep; simpl in *; try assumption; try exact I.
    + unfold seedInit. destruct srcs as [|? [|? ?]]; simpl;
        repeat match goal with
        | |- context [match ?x with _ => _ end] => destruct x
        end; simpl; exact I.
    + apply upd_same.
Qed.

(** The invariant holds initially and is kept by every transition. *)
Lemma step_inv s l s' : inv s -> step s l s' -> inv s'.
Proof.
  intros Hinv Hs. constructor.
  - rewrite (step_objects _ _ _ Hs). apply Hinv.
  - destruct Hinv as [_ Hlen _ _ _ _ _ _].
    destruct Hs; simpl in *; [rewrite length_insert|]; assumption.
  - eapply step_wg; eauto.
  - eapply step_queue; eauto.
  - eapply step_wwf; eauto.
  - eapply step_dwf; eauto.
  - eapply step_wfilled; eauto.
  - eapply step_dfilled; eauto.
Qed.

Lemma init_inv srcs dst : inv (init cfg srcs dst).
Proof.
  constructor; simpl.
  - unfold objects. simpl.
    assert (Hnil : flat_map (fun w => wheld (pc w))
              (replicate (capacity cfg) (mkWorker [] PTop)) = []).
    { induction (capacity cfg); simpl; auto. }
    rewrite Hnil, app_nil_r. reflexivity.
  - apply length_replicate.
  - unfold outstanding. simpl.
    assert (Hz : sum_list_with wpending (replicate (capacity cfg) (mkWorker [] PTop)) = 0%nat).
    { induction (capacity cfg); simpl; auto. }
    rewrite Hz. reflexivity.
  - constructor.
  - apply Forall_replicate. split; [constructor|exact I].
  - exact I.
  - apply Forall_replicate. exact I.
  - exact I.
Qed.

Lemma run_inv srcs dst tr s : run (init cfg srcs dst) tr s -> inv s.
Proof.
  intros Hr. remember (init cfg srcs dst) as s0 eqn:Hs0.
  induction Hr as [s|s tr s1 l s2 Hr IH Hs]; subst.
  - apply init_inv.
  - eapply step_inv; eauto.
Qed.

(** ** Every transition lowers the measure *)

Notation measure := (measure cfg os_Stat os_Lstat).

Lemma qsum_upd_fresh a t h (l : list nat) :
  ~ In a l ->
  sum_list_with (fun b => S (S (tcost (upd a t h b)))) l =
  sum_list_with (fun b => S (S (tcost (h b)))) l.
Proof. intros Hn. exact (sum_upd_fresh (fun t => S (S (tcost t))) a t h l Hn). Qed.

Lemma cost_entries l :
  (list_sum (map (fun k => cost k + 8) l) =
   list_sum (map (fun k => cost k + 6) l) + 2 * length l)%nat.
Proof. induction l as [|k l IH]; simpl; lia. Qed.

Lemma batch_cons fi fis err rest :
  batch (fi :: fis) err rest = (cost fi + 6 + batch fis err rest)%nat.
Proof. unfold batch. simpl. lia. Qed.

Lemma tcost_child d fi : tcost (child d fi) = cost fi.
Proof. reflexivity. Qed.

Lemma tcost_entries t : (listing (entriesOf t) < tcost t)%nat.
Proof.
  unfold listing, entriesOf, tcost. destruct (srcfi t) as [[n m kids]|]; simpl; lia.
Qed.

Lemma tcost_pos t : (4 <= tcost t)%nat.
Proof. unfold tcost. destruct (srcfi t) as [[n m kids]|]; simpl; lia. Qed.

Lemma readdir_measure rest fis err rest' :
  0 < readdirBuffer cfg ->
  readdir_answer (readdirBuffer cfg) rest fis err rest' ->
  (batch fis err rest' < listing rest)%nat.
Proof.
  intros Hn [-> Ha]. apply Z.ltb_lt in Hn. rewrite Hn in Ha. destruct Ha as [_ Hne].
  unfold batch, listing. rewrite map_app, list_sum_app_nat, (cost_entries fis).
  destruct err as [e|]; [lia|].
  specialize (Hne eq_refl). destruct fis; [congruence|]. simpl. lia.
Qed.

Lemma seedInit_measure srcs dst :
  (dmeasure cfg os_Stat os_Lstat (snd (seedInit os_Stat srcs dst)) <
   dmeasure cfg os_Stat os_Lstat (DInit srcs dst))%nat.
Proof.
  unfold seedInit. destruct srcs as [|? [|? ?]]; simpl;
    repeat match goal with
    | |- context [match ?x with _ => _ end] => destruct x
    end; simpl; unfold seeding; simpl; lia.
Qed.

Lemma seedOne_cost m src t :
  snd (seedOne os_Stat os_Lstat cfg m src) = Some t ->
  seedCost cfg os_Stat os_Lstat src = (6 + tcost t)%nat.
Proof.
  unfold seedOne, seedCost.
  destruct (if noDereference cfg then os_Lstat src else os_Stat src) as [fi|e];
    [|discriminate].
  destruct (IsDir fi && negb (recursive cfg)); [discriminate|].
  simpl. intros [= <-]. reflexivity.
Qed.

Lemma seedCost_pos src : (6 <= seedCost cfg os_Stat os_Lstat src)%nat.
Proof.
  unfold seedCost.
  destruct (if noDereference cfg then os_Lstat src else os_Stat src); lia.
Qed.

Lemma step_measure s l s' :
  inv s -> 0 < readdirBuffer cfg -> step s l s' ->
  (measure s' < measure s)%nat.
Proof.
  intros [Hobj Hlen Hwg Hq Hw Hd Hwf Hdf] Hn Hs. unfold measure.
  destruct Hs as [i w tr sh' w' sh0 ws d Hlk Hstep | tr sh' d' sh0 ws d Hstep];
    simpl in *.
  - pose proof (sum_list_with_insert wmeasure ws i w w' Hlk) as Hi.
    pose proof (Forall_lookup_1 _ _ _ _ Hwf Hlk) as Hfill.
    destruct Hstep; unfold wmeasure, wfilled in *; simpl in *;
      rewrite ?map_app, ?list_sum_app_nat, ?sum_list_with_snoc, ?batch_cons in *;
      simpl in *; try lia.
    + destruct (take_fresh _ _ _ Hobj eq_refl) as (Hnq & _ & _). simpl in Hnq.
      rewrite qsum_upd_fresh by assumption. lia.
    + rewrite Hfill. lia.
    + pose proof (tcost_entries t). pose proof (tcost_pos t).
      destruct o; simpl in *; lia.
    + match goal with
      | Ha : readdir_answer _ _ _ _ _ |- _ => pose proof (readdir_measure _ _ _ _ Hn Ha)
      end. lia.
    + destruct (take_fresh _ _ _ Hobj eq_refl) as (Hnq & _ & _). simpl in Hnq.
      rewrite qsum_upd_fresh by assumption. lia.
    + rewrite Hfill, tcost_child. lia.
    + rewrite tcost_child in *. lia.
    + unfold batch, listing in *. simpl in *. lia.
    + unfold batch in *. simpl in *. lia.
  - destruct Hstep; simpl in *; rewrite ?sum_list_with_snoc; simpl;
      unfold seeding; simpl; try lia.
    + match goal with
      | |- context [seedInit _ ?srcs ?dst] =>
          pose proof (seedInit_measure srcs dst) as Hm
      end. simpl in Hm. unfold seeding in Hm. lia.
    + match goal with
      | |- context [seedCost _ _ _ ?src] => pose proof (seedCost_pos src)
      end. lia.
    + match goal with
      | Hso : snd (seedOne _ _ _ _ _) = Some _ |- _ => rewrite (seedOne_cost _ _ _ Hso)
      end. lia.
    + destruct (take_fresh _ _ _ Hobj eq_refl) as (Hnq & _ & _). simpl in Hnq.
      rewrite qsum_upd_fresh by assumption. lia.
    + simpl in Hdf. rewrite Hdf. lia.
Qed.

(** ** No reachable state is stuck before the driver returns *)

Lemma readdir_answer_exists n rest :
  exists fis err rest', readdir_answer n rest fis err rest'.
Proof.
  exists [], (Some io_EOF), rest. split; [reflexivity|].
  destruct (0 <? n) eqn:Hn; [|discriminate].
  apply Z.ltb_lt in Hn. split; [simpl; lia|discriminate].
Qed.

Lemma snoc_case {A} (l : list A) : l = [] \/ exists l' x, l = (l' ++ [x])%list.
Proof.
  induction l as [|a l IH] using rev_ind; [left; reflexivity|].
  right. eauto.
Qed.

(** A worker can move unless it waits on an empty queue with nothing
    buffered; its sends find room whenever it holds a Task Object. *)
Lemma worker_can_step s w :
  (wheld (pc w) <> [] ->
   (length (copyTasks s) < capacity cfg)%nat /\
   (length (freeCopyTasks s) < capacity cfg)%nat) ->
  pc w <> PPanic ->
  (idle w = true -> copyTasks s <> []) ->
  exists tr s' w', wstep s w tr s' w'.
Proof.
  destruct s as [free q h n]. destruct w as [l p]. simpl.
  intros Hroom Hpanic Hidle. destruct p; simpl in *.
  - destruct (snoc_case l) as [->|(l' & ct & ->)].
    + destruct q as [|ct q]; [exfalso; apply Hidle; reflexivity|].
      eexists _, _, _. apply W_recv.
    + destruct free as [|fct free].
      * eexists _, _, _. apply W_buffered_default.
      * eexists _, _, _. apply W_buffered_take.
  - eexists _, _, _. apply W_buffered_send. apply Hroom. discriminate.
  - eexists _, _, _. apply W_release. apply Hroom. discriminate.
  - destruct (runs_total (runTask cfg t)) as (tr & o & Hr).
    eexists _, _, _. apply W_exec. exact Hr.
  - destruct (readdir_answer_exists (readdirBuffer cfg) rest) as (fis & err & rest' & Ha).
    eexists _, _, _. apply W_readdir. exact Ha.
  - destruct fis as [|fi fis].
    + destruct err as [e|].
      * destruct (runs_total (endWalk d f e)) as (tr & [] & Hr).
        eexists _, _, _. apply W_batch_end. exact Hr.
      * eexists _, _, _. apply W_batch_next.
    + eexists _, _, _. apply W_add.
  - destruct free as [|ct free].
    + eexists _, _, _. apply W_child_default.
    + eexists _, _, _. apply W_child_take.
  - eexists _, _, _. apply W_child_send. apply Hroom. discriminate.
  - eexists _, _, _. apply W_done.
  - congruence.
Qed.

Lemma sum_list_with_lookup_le {A} (g : A -> nat) (l : list A) i x :
  l !! i = Some x -> (g x <= sum_list_with g l)%nat.
Proof.
  revert i. induction l as [|a l IH]; intros [|i] Hl; simpl in *; try discriminate.
  - injection Hl as ->. lia.
  - specialize (IH _ Hl). lia.
Qed.

Lemma holder_has_room s i w :
  inv s -> workers s !! i = Some w -> wheld (pc w) <> [] ->
  (length (copyTasks (sh s)) < capacity cfg)%nat /\
  (length (freeCopyTasks (sh s)) < capacity cfg)%nat.
Proof.
  intros Hinv Hlk Hh. pose proof (objects_length s (inv_objects _ _ Hinv)) as Hlen.
  pose proof (sum_list_with_lookup_le (fun w => length (wheld (pc w))) _ _ _ Hlk) as Hle.
  simpl in Hle. destruct (wheld (pc w)); [congruence|]. simpl in Hle. lia.
Qed.

Lemma worker_progress s i w :
  inv s -> workers s !! i = Some w ->
  idle w = false \/ copyTasks (sh s) <> [] ->
  exists ev s', step s (Worker i, ev) s'.
Proof.
  intros Hinv Hlk Hbusy.
  destruct (worker_can_step (sh s) w) as (tr & s' & w' & Hw).
  - apply (holder_has_room s i w Hinv Hlk).
  - pose proof (Forall_lookup_1 _ _ _ _ (inv_wwf _ _ Hinv) Hlk) as [_ Hpc].
    intros Heq. rewrite Heq in Hpc. exact Hpc.
  - intros Hi. destruct Hbusy; [congruence|assumption].
  - destruct s as [s0 ws d]. simpl in *.
    eexists _, _. eapply step_worker; eauto.
Qed.

Lemma all_idle_or (ws : list worker) :
  Forall (fun w => idle w = true) ws \/
  exists i w, ws !! i = Some w /\ idle w = false.
Proof.
  induction ws as [|w ws IH]; [left; constructor|].
  destruct (idle w) eqn:Hi.
  - destruct IH as [IH|(i & w' & Hlk & Hw)].
    + left. constructor; assumption.
    + right. exists (S i), w'. auto.
  - right. exists 0%nat, w. auto.
Qed.

Lemma idle_none (ws : list worker) :
  Forall (fun w => idle w = true) ws ->
  sum_list_with (fun w => length (wheld (pc w))) ws = 0%nat /\
  sum_list_with wpending ws = 0%nat.
Proof.
  induction 1 as [|w ws Hw _ [IH1 IH2]]; [auto|]. simpl.
  unfold idle, wpending in *. destruct w as [[|] []]; simpl in *; try discriminate.
  auto.
Qed.

Lemma progress s :
  inv s -> (0 < capacity cfg)%nat -> driver s <> DReturn ->
  exists l s', step s l s'.
Proof.
  intros Hinv Hcap Hd.
  destruct (all_idle_or (workers s)) as [Hidle|(i & w & Hlk & Hw)];
    [|destruct (worker_progress s i w) as (ev & s' & Hs); eauto].
  assert (Hq : copyTasks (sh s) <> [] -> exists l s', step s l s').
  { intros Hne. pose proof (inv_workers _ _ Hinv) as Hlen.
    destruct (workers s) as [|w ws] eqn:Hws; [simpl in Hlen; lia|].
    destruct (worker_progress s 0 w) as (ev & s' & Hs); eauto.
    rewrite Hws. reflexivity. }
  destruct (idle_none _ Hidle) as [Hheld Hpend].
  pose proof (objects_length s (inv_objects _ _ Hinv)) as Hlen.
  pose proof (inv_wg _ _ Hinv) as Hwg. unfold outstanding in Hwg.
  pose proof (inv_dfilled _ _ Hinv) as Hdf.
  destruct s as [[free q h n] ws d]. simpl in *.
  destruct d as [srcs dst|m [|src srcs]|t m srcs|ct t m srcs|ct t m srcs| |];
    simpl in *.
  - eexists _, _. apply step_driver, D_init.
  - eexists _, _. apply step_driver, D_seeded.
  - destruct (snd (seedOne os_Stat os_Lstat cfg m src)) as [t|] eqn:Hso.
    + eexists _, _. eapply step_driver, D_stat. exact Hso.
    + eexists _, _. eapply step_driver, D_skip. exact Hso.
  - destruct free as [|ct free].
    + apply Hq. destruct q; [simpl in Hlen; lia|discriminate].
    + eexists _, _. apply step_driver, D_take.
  - eexists _, _. apply step_driver, D_add.
  - eexists _, _. apply step_driver, D_send. lia.
  - destruct q as [|a q]; [|apply Hq; discriminate].
    simpl in Hwg. rewrite Hpend in Hwg. simpl in Hwg. subst n.
    eexists _, _. apply step_driver, D_wait.
  - congruence.
Qed.

(** ** Counting the WaitGroup operations of a run *)

Lemma runs_external {A} (p : prog A) tr a :
  runs p tr a -> Forall (fun e => external e = true) tr.
Proof.
  revert tr. induction p as [x|X c k IH|line k IH|line k IH]; simpl; intros tr.
  - intros [-> _]. constructor.
  - intros (x & tr' & -> & Hr). constructor; [destruct c; reflexivity|eauto].
  - intros (tr' & -> & Hr). constructor; [reflexivity|eauto].
  - intros (tr' & -> & Hr). constructor; [reflexivity|eauto].
Qed.

Lemma occurrences_external f tr :
  (forall e, external e = true -> f e = false) ->
  Forall (fun e => external e = true) tr -> occurrences f tr = 0%nat.
Proof.
  intros Hf. unfold occurrences. induction 1 as [|e tr He _ IH]; [reflexivity|].
  rewrite filter_cons_False; [exact IH|]. rewrite (Hf e He). discriminate.
Qed.

Lemma external_not_counted e :
  external e = true ->
  isAdd e = false /\ isDone e = false /\ isBegin e = false /\ isQueue e = false.
Proof. destruct e; simpl; intros; try discriminate; auto. Qed.

Lemma count_snoc f tr (l : label) :
  count f (tr ++ [l]) = (count f tr + occurrences f (snd l))%nat.
Proof.
  unfold count, occurrences, events. rewrite flat_map_app. simpl.
  rewrite app_nil_r, filter_app, length_app. reflexivity.
Qed.

Lemma seedInit_quiet srcs dst :
  Forall (fun e => external e = true) (fst (seedInit os_Stat srcs dst)).
Proof.
  unfold seedInit. destruct srcs as [|? [|? ?]]; simpl;
    repeat match goal with
    | |- context [match ?x with _ => _ end] => destruct x
    end; simpl; repeat constructor.
Qed.

Lemma seedOne_quiet m src :
  Forall (fun e => external e = true) (fst (seedOne os_Stat os_Lstat cfg m src)).
Proof.
  unfold seedOne. destruct (noDereference cfg);
    repeat match goal with
    | |- context [match ?x with _ => _ end] => destruct x
    end; simpl; repeat constructor.
Qed.

Ltac quiet f :=
  rewrite ?(occurrences_external f) by
    (first [ intros ? He; apply external_not_counted in He; tauto
           | assumption
           | eapply runs_external; eassumption
           | apply seedInit_quiet
           | apply seedOne_quiet ]).

(** What one transition does to the counter and to the tasks in hand. *)
Lemma step_counts s l s' :
  inv s -> step s l s' ->
  wg (sh s') = wg (sh s) + Z.of_nat (occurrences isAdd (snd l))
               - Z.of_nat (occurrences isDone (snd l)) /\
  (occurrences isBegin (snd l) + running (workers s) =
   occurrences isDone (snd l) + running (workers s'))%nat.
Proof.
  intros [Hobj Hlen Hwg Hq Hw Hd Hwf Hdf] Hs. unfold running.
  destruct Hs as [i w tr sh' w' sh0 ws d Hlk Hstep | tr sh' d' sh0 ws d Hstep];
    simpl in *.
  - pose proof (sum_list_with_insert executing ws i w w' Hlk) as Hi.
    pose proof (Forall_lookup_1 _ _ _ _ Hw Hlk) as [Hlocal Hpc].
    destruct Hstep;
      try match goal with
      | Hr : runs _ _ _ |- _ => pose proof (runs_external _ _ _ Hr) as Hext
      end;
      try match goal with
      | Hr : runs (runTask _ _) _ _ |- _ => pose proof (runTask_outcome _ _ _ Hr) as Hout
      end;
      unfold executing in *; simpl in *;
      try (split; [unfold occurrences; simpl; lia | unfold occurrences; simpl; lia]).
    + (* the body *)
      change (EBegin t :: tr) with ([EBegin t] ++ tr)%list.
      unfold occurrences. rewrite !filter_app, !length_app. fold (occurrences isAdd tr).
      fold (occurrences isDone tr). fold (occurrences isBegin tr).
      quiet isAdd. quiet isDone. quiet isBegin. simpl.
      destruct Hpc as (fi & Hfi & Hrec).
      destruct o; simpl in *; try (split; lia).
      destruct Hout as (fi' & Hfi' & Hdir & Hnr). rewrite Hfi in Hfi'.
      injection Hfi' as <-. rewrite Hrec in Hnr by assumption. discriminate.
    + (* the end of a listing *)
      quiet isAdd. quiet isDone. quiet isBegin. split; lia.
  - destruct Hstep; simpl in *;
      try (split; [unfold occurrences; simpl; lia | unfold occurrences; simpl; lia]).
    + quiet isAdd. quiet isDone. quiet isBegin. split; lia.
    + quiet isAdd. quiet isDone. quiet isBegin. split; lia.
    + quiet isAdd. quiet isDone. quiet isBegin. split; lia.
Qed.

Lemma run_counts srcs dst tr s :
  run (init cfg srcs dst) tr s ->
  wg (sh s) = Z.of_nat (count isAdd tr) - Z.of_nat (count isDone tr) /\
  count isBegin tr = (count isDone tr + running (workers s))%nat.
Proof.
  intros Hr. remember (init cfg srcs dst) as s0 eqn:Hs0.
  induction Hr as [s|s tr s1 l s2 Hr IH Hs].
  - subst. simpl. split; [reflexivity|]. unfold running.
    induction (capacity cfg); simpl; auto.
  - specialize (IH Hs0). subst s.
    pose proof (run_inv _ _ _ _ Hr) as Hinv.
    destruct (step_counts _ _ _ Hinv Hs) as [H1 H2].
    rewrite !count_snoc. destruct IH as [IH1 IH2]. split; lia.
Qed.

(** A worker moves only if there is a task in the queue or in its hands. *)
Lemma wstep_has_work s w tr s' w' :
  wstep s w tr s' w' -> (0 < length (copyTasks s) + wpending w)%nat.
Proof.
  intros Hw. destruct Hw; unfold wpending; simpl; rewrite ?length_app; simpl; lia.
Qed.

Lemma step_returned s l s' :
  inv s -> step s l s' ->
  (driver s = DReturn -> wg (sh s) = 0) ->
  driver s' = DReturn -> wg (sh s') = 0.
Proof.
  intros Hinv Hs Hret Hd'.
  destruct Hs as [i w tr sh' w' sh0 ws d Hlk Hstep | tr sh' d' sh0 ws d Hstep];
    simpl in *.
  - exfalso. specialize (Hret Hd'). pose proof (inv_wg _ _ Hinv) as Hwg.
    unfold outstanding in Hwg. simpl in Hwg.
    pose proof (wstep_has_work _ _ _ _ _ Hstep).
    pose proof (sum_list_with_lookup_le wpending _ _ _ Hlk). lia.
  - destruct Hstep; simpl in *; try discriminate; try reflexivity.
    + unfold seedInit in Hd'. destruct srcs as [|? [|? ?]]; simpl in Hd';
        repeat match type of Hd' with
        | context [match ?x with _ => _ end] => destruct x; simpl in Hd'
        end; discriminate.
Qed.

Lemma run_returned srcs dst tr s :
  run (init cfg srcs dst) tr s -> driver s = DReturn -> wg (sh s) = 0.
Proof.
  intros Hr. remember (init cfg srcs dst) as s0 eqn:Hs0.
  induction Hr as [s|s tr s1 l s2 Hr IH Hs]; subst.
  - discriminate.
  - eapply step_returned; eauto. eapply run_inv; eauto.
Qed.

(** ** Runs are bounded and can be completed *)

Lemma run_bounded srcs dst tr s :
  0 < readdirBuffer cfg ->
  run (init cfg srcs dst) tr s ->
  (length tr + measure s <= measure (init cfg srcs dst))%nat.
Proof.
  intros Hn Hr. remember (init cfg srcs dst) as s0 eqn:Hs0.
  induction Hr as [s|s tr s1 l s2 Hr IH Hs].
  - simpl. lia.
  - specialize (IH Hs0). subst s.
    pose proof (run_inv _ _ _ _ Hr) as Hinv.
    pose proof (step_measure _ _ _ Hinv Hn Hs).
    rewrite length_app. simpl. lia.
Qed.

Lemma run_completes srcs dst n :
  0 < readdirBuffer cfg -> (0 < capacity cfg)%nat ->
  forall tr s, (measure s <= n)%nat ->
  run (init cfg srcs dst) tr s ->
  exists tr' s', run (init cfg srcs dst) (tr ++ tr') s' /\ driver s' = DReturn.
Proof.
  intros Hn Hcap. induction n as [|n IH]; intros tr s Hm Hr.
  - pose proof (run_inv _ _ _ _ Hr) as Hinv.
    destruct (driver s) eqn:Hd;
      try (destruct (progress s Hinv Hcap) as (l & s' & Hs); [congruence|];
           pose proof (step_measure _ _ _ Hinv Hn Hs); lia).
    exists [], s. rewrite app_nil_r. auto.
  - pose proof (run_inv _ _ _ _ Hr) as Hinv.
    destruct (driver s) eqn:Hd;
      try (destruct (progress s Hinv Hcap) as (l & s' & Hs); [congruence|];
           pose proof (step_measure _ _ _ Hinv Hn Hs);
           destruct (IH (tr ++ [l])%list s') as (tr' & s'' & Hr' & Hd');
             [lia | econstructor; eauto |];
           exists (l :: tr'), s''; split; [|assumption];
           rewrite <- app_assoc in Hr'; exact Hr').
    exists [], s. rewrite app_nil_r. auto.
Qed.

Lemma executing_le_pending (ws : list worker) :
  (running ws <= sum_list_with wpending ws)%nat.
Proof.
  unfold running. induction ws as [|w ws IH]; simpl; [lia|].
  assert (executing w <= wpending w)%nat
    by (unfold executing, wpending; destruct (pc w); lia).
  lia.
Qed.

(** ** The theorems on the engine *)

(** C2. No deadlock, and termination. With at least one worker and a
    positive listing batch size, for every sources and destination, whatever
    the size of the directories (more entries than the Work Queue holds
    included) and whatever the schedule and the answers of the file system:
    a run of [n] transitions leaves a measure at least [n] below the initial
    one, so no run is infinite; a state before the driver's return always has
    a transition; a worker with a task buffered, in hand or under listing can
    itself always move, so it never blocks on a full queue or an empty pool;
    every run extends to one in which the driver returns; and when the driver
    has returned no task is left in the queue, in a buffer or unfinished. *)
Theorem no_deadlock (srcs : list string) (dst : string) (tr : list label) (s : state) :
  0 < parallelTasks cfg ->
  0 < readdirBuffer cfg ->
  run (init cfg srcs dst) tr s ->
  (length tr + measure s <= measure (init cfg srcs dst))%nat /\
  (driver s <> DReturn -> exists l s', step s l s') /\
  (forall i w, workers s !! i = Some w -> idle w = false ->
     exists ev s', step s (Worker i, ev) s') /\
  (exists tr' s', run (init cfg srcs dst) (tr ++ tr') s' /\ driver s' = DReturn) /\
  (driver s = DReturn -> outstanding s = 0%nat).
Proof.
  intros Hp Hn Hr.
  assert (Hcap : (0 < capacity cfg)%nat) by (unfold capacity; lia).
  pose proof (run_inv _ _ _ _ Hr) as Hinv.
  split; [|split; [|split; [|split]]].
  - apply run_bounded; assumption.
  - intros Hd. apply progress; assumption.
  - intros i w Hlk Hi. eapply worker_progress; eauto.
  - eapply run_completes; eauto.
  - intros Hd. pose proof (run_returned _ _ _ _ Hr Hd) as Hz.
    rewrite (inv_wg _ _ Hinv) in Hz. lia.
Qed.

(** C3. Completion-tracker balance. In every state of a run the WaitGroup
    counter is the number of [wg.Add(1)] minus the number of [wg.Done()] so
    far, is never negative, and is exactly the number of tasks submitted and
    not finished; the tasks a worker has started on are those finished plus
    those in progress, so none is finished twice and none is dropped; and once
    the driver has returned the counter is zero, increments and decrements
    are equal in number, and every submitted task was run and finished once.
    With a worker and a positive batch size the run can always reach that
    state. *)
Theorem tracker_balance (srcs : list string) (dst : string) (tr : list label) (s : state) :
  run (init cfg srcs dst) tr s ->
  wg (sh s) = Z.of_nat (count isAdd tr) - Z.of_nat (count isDone tr) /\
  0 <= wg (sh s) /\
  wg (sh s) = Z.of_nat (outstanding s) /\
  count isBegin tr = (count isDone tr + running (workers s))%nat /\
  (driver s = DReturn ->
     wg (sh s) = 0 /\ count isAdd tr = count isDone tr /\
     count isBegin tr = count isAdd tr /\ outstanding s = 0%nat) /\
  (0 < parallelTasks cfg -> 0 < readdirBuffer cfg ->
     exists tr' s', run (init cfg srcs dst) (tr ++ tr') s' /\
       driver s' = DReturn /\ wg (sh s') = 0).
Proof.
  intros Hr. pose proof (run_inv _ _ _ _ Hr) as Hinv.
  destruct (run_counts _ _ _ _ Hr) as [Hwg Hbegin].
  pose proof (inv_wg _ _ Hinv) as Hout.
  split; [exact Hwg|]. split; [lia|]. split; [exact Hout|]. split; [exact Hbegin|].
  split.
  - intros Hd. pose proof (run_returned _ _ _ _ Hr Hd) as Hz.
    pose proof (executing_le_pending (workers s)) as Hle.
    unfold outstanding in *. repeat split; lia.
  - intros Hp Hn.
    assert (Hcap : (0 < capacity cfg)%nat) by (unfold capacity; lia).
    destruct (run_completes srcs dst _ Hn Hcap tr s (le_n _) Hr) as (tr' & s' & Hr' & Hd').
    exists tr', s'. split; [assumption|]. split; [assumption|].
    eapply run_returned; eauto.
Qed.

(** The transitions of one worker, read off the state. *)
Lemma step_worker_inv s i ev s1 :
  step s (Worker i, ev) s1 ->
  exists w w' sh', workers s !! i = Some w /\ wstep (sh s) w ev sh' w' /\
    s1 = mkState sh' (<[i := w']> (workers s)) (driver s).
Proof.
  intros Hs. inversion Hs; subst. simpl. eauto 8.
Qed.

Lemma lookup_after_insert (ws : list worker) i w w' :
  ws !! i = Some w -> <[i := w']> ws !! i = Some w'.
Proof.
  intros Hlk. apply list_lookup_insert_eq. eapply lookup_lt_Some; eauto.
Qed.

(** With a Task Object in the pool the queue has room: the pool and the
    queue together never hold more than [capacity] objects. *)
Lemma pool_gives_room s fct free :
  inv s -> freeCopyTasks (sh s) = fct :: free ->
  (length (copyTasks (sh s)) < capacity cfg)%nat.
Proof.
  intros Hinv Hf. pose proof (objects_length s (inv_objects _ _ Hinv)) as Hlen.
  rewrite Hf in Hlen. simpl in Hlen. lia.
Qed.

Lemma overflow_refines s l ct :
  (forall fct free, freeCopyTasks s = fct :: free ->
     (length (copyTasks s) < capacity cfg)%nat) ->
  forall s' w', overflow_code cfg s l ct s' w' <-> (s', w') = overflow_spec cfg s l ct.
Proof.
  intros Hroom s' w'. unfold overflow_spec. split.
  - intros Hc. destruct Hc as [s0 l0 ct0 tr1 s1 fct ct' tr2 s2 w2 H1 H2 | s0 l0 ct0 tr1 s1 ct' H1].
    + inversion H1; subst.
      match goal with Heq : (_ ++ [_])%list = (_ ++ [_])%list |- _ =>
        apply app_inj_tail in Heq; destruct Heq; subst end.
      inversion H2; subst. simpl.
      match goal with Hlt : (length _ < capacity cfg)%nat |- _ =>
        apply Nat.ltb_lt in Hlt; rewrite Hlt end.
      reflexivity.
    + inversion H1; subst.
      match goal with Heq : (_ ++ [_])%list = (_ ++ [_])%list |- _ =>
        apply app_inj_tail in Heq; destruct Heq; subst end.
      reflexivity.
  - destruct s as [free q h n]. simpl in *. destruct free as [|fct free].
    + intros [= -> ->]. eapply OC_local. apply W_buffered_default.
    + specialize (Hroom _ _ eq_refl). pose proof Hroom as Hlt.
      apply Nat.ltb_lt in Hlt. rewrite Hlt. intros [= -> ->].
      eapply OC_published; [apply W_buffered_take|].
      apply W_buffered_send. exact Hroom.
Qed.

(** C1. Overflow discipline of the worker loop, in every state of a run.
    A worker at the loop head with a buffered task can move, and what the
    code does with that task (the select on the pool, then the send of line
    298 or the default case) is what the specification says: published when
    a Task Object is acquired and sent, run by the worker itself otherwise.
    The send, once a Task Object is held, is never blocked. A worker at the
    loop head with an empty buffer moves only by receiving from the Work
    Queue, and does not move while the queue is empty; and no worker
    receives from the queue with a task in its buffer. *)
Theorem overflow_discipline (srcs : list string) (dst : string) (tr : list label)
    (s : state) (i : nat) (w : worker) :
  run (init cfg srcs dst) tr s ->
  workers s !! i = Some w ->
  (forall l ct, w = mkWorker (l ++ [ct]) PTop ->
     (exists ev s1, step s (Worker i, ev) s1) /\
     (forall s' w', overflow_code cfg (sh s) l ct s' w' <->
                    (s', w') = overflow_spec cfg (sh s) l ct) /\
     (freeCopyTasks (sh s) = [] ->
        forall ev s1, step s (Worker i, ev) s1 ->
          ev = [EDefault] /\ sh s1 = sh s /\
          workers s1 !! i = Some (mkWorker l (PExec ct)))) /\
  (forall l fct ct, w = mkWorker l (PPublish fct ct) ->
     exists s1, step s (Worker i, [EQueue ct]) s1 /\
       copyTasks (sh s1) = (copyTasks (sh s) ++ [fct])%list /\
       heap (sh s1) fct = ct /\
       workers s1 !! i = Some (mkWorker l PTop)) /\
  (w = mkWorker [] PTop ->
     (forall ev s1, step s (Worker i, ev) s1 ->
        exists ct q, copyTasks (sh s) = ct :: q /\ ev = [ERecv (heap (sh s) ct)]) /\
     (copyTasks (sh s) = [] -> ~ exists ev s1, step s (Worker i, ev) s1)) /\
  (forall ev s1 t, step s (Worker i, ev) s1 -> In (ERecv t) ev ->
     w = mkWorker [] PTop).
Proof.
  intros Hr Hlk. pose proof (run_inv _ _ _ _ Hr) as Hinv. clear Hr.
  split; [|split; [|split]].
  - intros l ct ->. split; [|split].
    + eapply worker_progress; eauto. left. destruct l; reflexivity.
    + apply overflow_refines. intros fct free Hf. eapply pool_gives_room; eauto.
    + intros Hfree ev s1 Hs.
      apply step_worker_inv in Hs as (w0 & w' & sh' & Hlk' & Hw & ->).
      rewrite Hlk in Hlk'. injection Hlk' as <-. simpl.
      rewrite (lookup_after_insert _ _ _ _ Hlk).
      destruct s as [[free q h n] ws d]. simpl in *. subst free.
      inversion Hw; subst; simpl in *; try discriminate;
        try (match goal with Heq : [] = (_ ++ [_])%list |- _ =>
               destruct (app_cons_not_nil _ _ _ Heq) end).
      match goal with Heq : (_ ++ [_])%list = (_ ++ [_])%list |- _ =>
        apply app_inj_tail in Heq; destruct Heq; subst end.
      auto.
  - intros l fct ct ->.
    pose proof (Forall_lookup_1 _ _ _ _ (inv_wfilled _ _ Hinv) Hlk) as Hfill.
    unfold wfilled in Hfill. simpl in Hfill.
    destruct (holder_has_room s i _ Hinv Hlk) as [Hroom _]; [discriminate|].
    destruct s as [[free q h n] ws d]. simpl in *.
    eexists. split; [|split; [|split]].
    + rewrite <- Hfill. eapply step_worker; [exact Hlk|].
      apply W_buffered_send. exact Hroom.
    + reflexivity.
    + exact Hfill.
    + simpl. eapply lookup_after_insert; eauto.
  - intros ->. destruct s as [[free q h n] ws d]. simpl in *. split.
    + intros ev s1 Hs.
      apply step_worker_inv in Hs as (w0 & w' & sh' & Hlk' & Hw & ->).
      simpl in *. rewrite Hlk in Hlk'. injection Hlk' as <-.
      inversion Hw; subst; simpl in *;
        try (match goal with Heq : (_ ++ [_])%list = [] |- _ =>
               symmetry in Heq; destruct (app_cons_not_nil _ _ _ Heq) end).
      eauto.
    + intros Hq (ev & s1 & Hs).
      apply step_worker_inv in Hs as (w0 & w' & sh' & Hlk' & Hw & ->).
      simpl in *. rewrite Hlk in Hlk'. injection Hlk' as <-. subst q.
      inversion Hw; subst; simpl in *;
        try (match goal with Heq : (_ ++ [_])%list = [] |- _ =>
               symmetry in Heq; destruct (app_cons_not_nil _ _ _ Heq) end).
  - intros ev s1 t Hs Hin.
    apply step_worker_inv in Hs as (w0 & w' & sh' & Hlk' & Hw & ->).
    rewrite Hlk in Hlk'. injection Hlk' as <-.
    destruct Hw;
      try match goal with
      | Hr : runs _ _ _ |- _ => pose proof (runs_external _ _ _ Hr) as Hext;
                                rewrite Forall_forall in Hext
      end;
      simpl in Hin; try (intuition discriminate); try reflexivity.
    + destruct Hin as [Hin|Hin]; [discriminate|].
      apply list_elem_of_In in Hin. apply Hext in Hin. discriminate.
    + apply list_elem_of_In in Hin. apply Hext in Hin. discriminate.
Qed.


(** ** The driver follows its plan *)

Notation seedOne := (seedOne os_Stat os_Lstat cfg).
Notation seedInit := (seedInit os_Stat).
Notation seedAll := (seedAll os_Stat os_Lstat cfg).
Notation seedEvents := (seedEvents os_Stat os_Lstat cfg).
Notation seedingEvents := (seedingEvents os_Stat os_Lstat cfg).
Notation driverRest := (driverRest os_Stat os_Lstat cfg).
Notation seeded := (seeded cfg os_Stat os_Lstat).
Notation seedErrors := (seedErrors os_Stat os_Lstat cfg).

Lemma eventsOf_snoc t tr (l : label) :
  eventsOf t (tr ++ [l]) = (eventsOf t tr ++ eventsOf t [l])%list.
Proof. unfold eventsOf. rewrite flat_map_app. reflexivity. Qed.

Lemma step_driverRest s l s' :
  inv s -> step s l s' ->
  (eventsOf Driver [l] ++ driverRest (driver s'))%list = driverRest (driver s).
Proof.
  intros Hinv Hs. pose proof (inv_dfilled _ _ Hinv) as Hdf.
  destruct Hs as [i w ev sh' w' sh0 ws d Hlk Hstep | ev sh' d' sh0 ws d Hstep];
    simpl in *; [reflexivity|].
  rewrite app_nil_r.
  destruct Hstep; simpl in *; try reflexivity.
  - unfold seedingEvents. rewrite <- app_assoc. f_equal.
    unfold seedInit. destruct srcs as [|? [|? ?]]; simpl;
      repeat match goal with
      | |- context [match ?x with _ => _ end] => destruct x
      end; reflexivity.
  - unfold seedEvents. rewrite H0, app_nil_r, <- app_assoc. reflexivity.
  - unfold seedEvents. rewrite H0. rewrite <- !app_assoc. reflexivity.
  - rewrite Hdf. reflexivity.
Qed.

Lemma run_driverRest srcs dst tr s :
  run (init cfg srcs dst) tr s ->
  (eventsOf Driver tr ++ driverRest (driver s))%list = driverRest (DInit srcs dst).
Proof.
  intros Hr. remember (init cfg srcs dst) as s0 eqn:Hs0.
  induction Hr as [s|s tr s1 l s2 Hr IH Hs].
  - subst. reflexivity.
  - specialize (IH Hs0). subst s.
    pose proof (run_inv _ _ _ _ Hr) as Hinv.
    rewrite eventsOf_snoc, <- app_assoc, (step_driverRest _ _ _ Hinv Hs). exact IH.
Qed.

(** When the driver is past the seeding, its events are the planned ones. *)
Lemma driver_seeded srcs dst tr s :
  run (init cfg srcs dst) tr s ->
  (driver s = DWait -> eventsOf Driver tr = seedingEvents srcs dst) /\
  (driver s = DReturn -> eventsOf Driver tr = (seedingEvents srcs dst ++ [EWait])%list).
Proof.
  intros Hr. pose proof (run_driverRest _ _ _ _ Hr) as Hp. split; intros Hd;
    rewrite Hd in Hp; simpl in Hp.
  - apply app_inj_tail in Hp. tauto.
  - rewrite app_nil_r in Hp. exact Hp.
Qed.

Lemma seedAll_multi dst srcs :
  stats (seedAll (Multi dst) srcs) = srcs /\
  queued (seedAll (Multi dst) srcs) = seeded dst srcs /\
  errLines (seedAll (Multi dst) srcs) = seedErrors srcs.
Proof.
  unfold stats, queued, errLines.
  induction srcs as [|src srcs (IH1 & IH2 & IH3)]; [auto|].
  unfold seedAll in *. simpl. rewrite !omap_app, IH1, IH2, IH3.
  unfold seedEvents, seedOne. simpl.
  destruct (noDereference cfg);
    match goal with
    | |- context [match ?r with Ok _ => _ | Err _ => _ end] => destruct r as [fi|e]
    end; simpl; try (destruct (IsDir fi && negb (recursive cfg)); simpl); auto.
Qed.

(** C7 (as amended). Multi-source destination policy. With two or more
    sources, once the driver has finished seeding: if [os.Stat] of the
    destination fails with an error other than not-exist, the driver has
    submitted nothing, stat'ed no source, and reported that one error; if the
    destination does not exist or is not a directory, it has submitted
    nothing, stat'ed no source, and reported the one policy line; otherwise
    it has stat'ed every source in order, submitted one task per source that
    could be stat'ed and is not an omitted directory, each with destination
    [path.Join(dst, path.Base(src))], and reported one line for each other
    source. *)
Theorem multi_source_policy (srcs : list string) (dst : string) (tr : list label)
    (s : state) :
  (2 <= length srcs)%nat ->
  run (init cfg srcs dst) tr s ->
  driver s = DWait ->
  let evs := eventsOf Driver tr in
  match os_Stat dst with
  | Err err =>
      queued evs = [] /\ stats evs = [dst] /\
      errLines evs = [if os_IsNotExist err then notDirectory dst else fmtErr 104 dst err]
  | Ok dstfi =>
      if IsDir dstfi then
        stats evs = dst :: srcs /\
        queued evs = seeded dst srcs /\
        errLines evs = seedErrors srcs /\
        Forall (fun t => exists fi, t = mkTask (src t) (path_Join dst (path_Base (src t))) (Some fi))
          (queued evs)
      else
        queued evs = [] /\ stats evs = [dst] /\ errLines evs = [notDirectory dst]
  end.
Proof.
  intros Hlen Hr Hd evs. subst evs.
  destruct (driver_seeded _ _ _ _ Hr) as [Hw _]. rewrite (Hw Hd).
  unfold seedingEvents, seedInit.
  destruct srcs as [|s1 [|s2 srcs]]; simpl in Hlen; try lia.
  destruct (os_Stat dst) as [dstfi|err].
  - destruct (IsDir dstfi); cbn [negb fst snd seedingFrom]; [|simpl; auto].
    + destruct (seedAll_multi dst (s1 :: s2 :: srcs)) as (H1 & H2 & H3).
      unfold stats, queued, errLines in *. rewrite !omap_app, H1, H2, H3.
      repeat split; try reflexivity.
      clear. induction (s1 :: s2 :: srcs) as [|x l IH]; simpl; [constructor|].
      destruct (if noDereference cfg then os_Lstat x else os_Stat x) as [fi|e];
        [|exact IH].
      destruct (IsDir fi && negb (recursive cfg)); [exact IH|].
      constructor; [exists fi; reflexivity|exact IH].
  - destruct (os_IsNotExist err); simpl; auto.
Qed.

End EngineFacts.

(** ** The preserve-links flag *)

Lemma string_app_assoc (a b c : string) : ((a ++ b) ++ c)%string = (a ++ b ++ c)%string.
Proof. induction a as [|x a IH]; simpl; [reflexivity|]. rewrite IH. reflexivity. Qed.

Lemma string_app_inv_head (s a b : string) :
  (s ++ a)%string = (s ++ b)%string -> a = b.
Proof. induction s as [|x s IH]; simpl; [auto|]. intros [= Heq]. auto. Qed.

Lemma goSyntax_bool_inj (b1 b2 : bool) (suf : string) :
  (goSyntax_bool b1 ++ suf)%string = (goSyntax_bool b2 ++ suf)%string -> b1 = b2.
Proof. destruct b1, b2; simpl; intros Heq; try reflexivity; discriminate. Qed.

Section Inert.
Context `{GoLib}.
Context (os_Stat os_Lstat : string -> result FileInfo).

Lemma sameButLinks_fields c1 c2 :
  sameButLinks c1 c2 ->
  exists v nd r mb eb pt rb cb u pm l1 l2,
    c1 = mkConfig v nd r mb eb pt rb cb u l1 pm /\
    c2 = mkConfig v nd r mb eb pt rb cb u l2 pm.
Proof.
  unfold sameButLinks, set_preserveLinks. destruct c1, c2. simpl.
  intros [= -> -> -> -> -> -> -> -> -> ->]. eauto 20.
Qed.

Lemma wstep_sameButLinks c1 c2 s w ev s' w' :
  sameButLinks c1 c2 -> wstep c1 s w ev s' w' -> wstep c2 s w ev s' w'.
Proof.
  intros Hs Hw.
  apply sameButLinks_fields in Hs
    as (v & nd & r & mb & eb & pt & rb & cb & u & pm & l1 & l2 & -> & ->).
  destruct Hw; cbn [readdirBuffer] in *;
    first [ apply W_buffered_take | apply W_buffered_send | apply W_buffered_default
          | apply W_recv | apply W_release | apply W_exec | apply W_readdir
          | apply W_add | apply W_child_take | apply W_child_send
          | apply W_child_default | apply W_batch_next | apply W_batch_end
          | apply W_done ];
    match goal with Hx : _ |- _ => exact Hx end.
Qed.

Lemma dstep_sameButLinks c1 c2 s d ev s' d' :
  sameButLinks c1 c2 ->
  dstep os_Stat os_Lstat c1 s d ev s' d' -> dstep os_Stat os_Lstat c2 s d ev s' d'.
Proof.
  intros Hs Hd.
  apply sameButLinks_fields in Hs
    as (v & nd & r & mb & eb & pt & rb & cb & u & pm & l1 & l2 & -> & ->).
  destruct Hd;
    try (first [ apply D_init | apply D_seeded | apply D_take | apply D_add
               | apply D_send | apply D_wait ];
         try match goal with Hx : _ |- _ => exact Hx end; fail).
  - match goal with
    | Hso : snd (seedOne _ _ _ ?m ?src) = None |- dstep _ _ ?c2 ?s (DSeed _ (_ :: ?srcs)) _ _ _ =>
        exact (D_skip os_Stat os_Lstat c2 m src srcs s Hso)
    end.
  - match goal with
    | Hso : snd (seedOne _ _ _ ?m ?src) = Some ?t |- dstep _ _ ?c2 ?s (DSeed _ (_ :: ?srcs)) _ _ _ =>
        exact (D_stat os_Stat os_Lstat c2 m src srcs t s Hso)
    end.
Qed.

Lemma step_sameButLinks c1 c2 s l s' :
  sameButLinks c1 c2 ->
  step os_Stat os_Lstat c1 s l s' -> step os_Stat os_Lstat c2 s l s'.
Proof.
  intros Hs Hst. destruct Hst.
  - eapply step_worker; eauto using wstep_sameButLinks.
  - eapply step_driver; eauto using dstep_sameButLinks.
Qed.

Lemma run_sameButLinks c1 c2 s tr s' :
  sameButLinks c1 c2 ->
  run os_Stat os_Lstat c1 s tr s' -> run os_Stat os_Lstat c2 s tr s'.
Proof.
  intros Hs Hr. induction Hr; econstructor; eauto using step_sameButLinks.
Qed.

Lemma init_sameButLinks c1 c2 srcs dst :
  sameButLinks c1 c2 -> init c1 srcs dst = init c2 srcs dst.
Proof.
  intros Hs.
  apply sameButLinks_fields in Hs
    as (v & nd & r & mb & eb & pt & rb & cb & u & pm & l1 & l2 & -> & ->).
  reflexivity.
Qed.

Lemma sameButLinks_sym c1 c2 : sameButLinks c1 c2 -> sameButLinks c2 c1.
Proof. unfold sameButLinks. congruence. Qed.

Lemma sameButLinks_set b c : sameButLinks (set_preserveLinks b c) c.
Proof. reflexivity. Qed.

Lemma sameButLinks_umask u c1 c2 :
  sameButLinks c1 c2 -> sameButLinks (set_umask u c1) (set_umask u c2).
Proof.
  intros Hs.
  apply sameButLinks_fields in Hs
    as (v & nd & r & mb & eb & pt & rb & cb & u' & pm & l1 & l2 & -> & ->).
  reflexivity.
Qed.


Context (syscall_Umask : Z).

Notation CPCP := (CPCP os_Stat os_Lstat syscall_Umask).

Lemma CPCP_sameButLinks c1 c2 args out tr res :
  sameButLinks c1 c2 ->
  CPCP c1 args out tr res -> CPCP c2 args (dump c2 args) tr res.
Proof.
  intros Hs Hc. destruct Hc as [err He | cfg' srcs dst tr s He Hr Hd].
  - apply (CPCP_usage os_Stat os_Lstat syscall_Umask c2 args err).
    unfold CPCP_start in *. simpl in *.
    destruct args as [|a [|a' args]]; simpl in *; try congruence.
  - unfold CPCP_start in He. simpl in He.
    destruct args as [|a [|a' args]]; try discriminate.
    injection He as <- <- <-.
    pose proof (sameButLinks_umask (Z.land syscall_Umask 511) _ _ Hs) as Hu.
    eapply (CPCP_copies os_Stat os_Lstat syscall_Umask c2 (a :: a' :: args));
      [reflexivity| |exact Hd].
    rewrite <- (init_sameButLinks _ _ _ _ Hu).
    eapply run_sameButLinks; eauto.
Qed.

Lemma CPCP_prints c args out tr res : CPCP c args out tr res -> out = dump c args.
Proof. intros Hc. destruct Hc; reflexivity. Qed.

Lemma dump_quiet c1 c2 args :
  sameButLinks c1 c2 -> verbosity c2 <= 1 -> dump c1 args = dump c2 args.
Proof.
  intros Hs Hv.
  apply sameButLinks_fields in Hs
    as (v & nd & r & mb & eb & pt & rb & cb & u & pm & l1 & l2 & -> & ->).
  unfold dump. simpl in *. destruct (1 <? v) eqn:Hlt; [|reflexivity].
  apply Z.ltb_lt in Hlt. lia.
Qed.

(** With a verbosity above 1 the first line of the dump holds the
    preserve-links field, between the same text before and after it whatever
    the flag is. *)
Lemma dump_loud c b args :
  1 < verbosity c ->
  exists pre suf,
    dump (set_preserveLinks b c) args =
      [EPrint (pre ++ ", preserveLinks:" ++ goSyntax_bool b ++ suf);
       EPrint ("args are " ++ goSyntax_strings args)] /\
    dump c args =
      [EPrint (pre ++ ", preserveLinks:" ++ goSyntax_bool (preserveLinks c) ++ suf);
       EPrint ("args are " ++ goSyntax_strings args)].
Proof.
  intros Hv. destruct c as [v nd r mb eb pt rb cb u pl pm].
  unfold dump, set_preserveLinks, goSyntax_config.
  cbn [verbosity noDereference recursive messageBuffer errBuffer parallelTasks
       readdirBuffer copyBuffer umask preserveLinks preserveMode] in *.
  apply Z.ltb_lt in Hv. rewrite Hv.
  exists ("cfg is " ++ "&cpcp.config{verbosity:" ++ fmt_d v ++
          ", noDereference:" ++ goSyntax_bool nd ++
          ", recursive:" ++ goSyntax_bool r ++
          ", messageBuffer:" ++ fmt_d mb ++
          ", errBuffer:" ++ fmt_d eb ++
          ", parallelTasks:" ++ fmt_d pt ++
          ", readdirBuffer:" ++ fmt_d rb ++
          ", copyBuffer:" ++ fmt_d cb ++
          ", umask:0x" ++ fmt_x u)%string,
         (", preserveMode:" ++ goSyntax_bool pm ++ "}")%string.
  rewrite !string_app_assoc. split; reflexivity.
Qed.

Lemma dump_differs c b args :
  1 < verbosity c -> b <> preserveLinks c ->
  dump (set_preserveLinks b c) args <> dump c args.
Proof.
  intros Hv Hb. destruct (dump_loud c b args Hv) as (pre & suf & -> & ->).
  intros [= Heq]. apply Hb.
  apply string_app_inv_head in Heq. simpl in Heq. injection Heq as Heq.
  exact (goSyntax_bool_inj _ _ _ Heq).
Qed.

(** C10 (as amended). The preserve-links flag changes nothing but the dump
    of the configuration. For two configurations that differ only in the
    flag: the engine has the same transitions, with the same labels (tasks
    queued, file system calls, message and error lines); [CPCP] makes the
    same runs and returns the same result; and what it prints at lines 23-26
    is the same too when the verbosity is at most 1. The lines printed there
    are the only place where the flag shows: with a verbosity above 1 the
    line with the configuration differs in the preserve-links field, and
    nowhere else, when the flag does, and so does what [CPCP] prints. *)
Theorem preserve_links_only_in_dump (cfg : config) (b : bool) :
  (forall s l s', step os_Stat os_Lstat (set_preserveLinks b cfg) s l s' <->
                  step os_Stat os_Lstat cfg s l s') /\
  (forall srcs dst, init (set_preserveLinks b cfg) srcs dst = init cfg srcs dst) /\
  (forall args tr res,
     (exists out, CPCP (set_preserveLinks b cfg) args out tr res) <->
     (exists out, CPCP cfg args out tr res)) /\
  (forall args out tr res, verbosity cfg <= 1 ->
     (CPCP (set_preserveLinks b cfg) args out tr res <-> CPCP cfg args out tr res)) /\
  (forall args, 1 < verbosity cfg ->
     (exists pre suf,
        dump (set_preserveLinks b cfg) args =
          [EPrint (pre ++ ", preserveLinks:" ++ goSyntax_bool b ++ suf);
           EPrint ("args are " ++ goSyntax_strings args)] /\
        dump cfg args =
          [EPrint (pre ++ ", preserveLinks:" ++ goSyntax_bool (preserveLinks cfg) ++ suf);
           EPrint ("args are " ++ goSyntax_strings args)]) /\
     (b <> preserveLinks cfg ->
      forall out out' tr tr' res res',
        CPCP (set_preserveLinks b cfg) args out tr res ->
        CPCP cfg args out' tr' res' -> out <> out')).
Proof.
  pose proof (sameButLinks_set b cfg) as Hs.
  pose proof (sameButLinks_sym _ _ Hs) as Hs'.
  split; [|split; [|split; [|split]]];
    [| | | |intros args Hv; split;
            [exact (dump_loud cfg b args Hv)|
             intros Hb out out' tr tr' res res' Hc Hc';
             rewrite (CPCP_prints _ _ _ _ _ Hc), (CPCP_prints _ _ _ _ _ Hc');
             exact (dump_differs cfg b args Hv Hb)]].
  - intros s l s'. split; apply step_sameButLinks; assumption.
  - intros srcs dst. apply init_sameButLinks. assumption.
  - intros args tr res. split; intros [out Hc]; eexists.
    + eapply CPCP_sameButLinks; [exact Hs|exact Hc].
    + eapply CPCP_sameButLinks; [exact Hs'|exact Hc].
  - intros args out tr res Hv. split; intros Hc.
    + pose proof (CPCP_prints _ _ _ _ _ Hc) as ->.
      rewrite (dump_quiet _ _ args Hs Hv).
      eapply CPCP_sameButLinks; [exact Hs|exact Hc].
    + pose proof (CPCP_prints _ _ _ _ _ Hc) as ->.
      rewrite <- (dump_quiet _ _ args Hs Hv).
      eapply CPCP_sameButLinks; [exact Hs'|exact Hc].
Qed.

End Inert.

(** ** Runs of the body in which every call succeeds *)

Section Success.
Context `{GoLib}.

Lemma runTask_regular_ok cfg t fi srcf dstf :
  srcfi t = Some fi -> IsDir fi = false -> FileMode.IsRegular (Mode fi) = true ->
  (0 <? verbosity cfg) = false ->
  runs (runTask cfg t)
    [EOpen (src t) (Ok srcf); ECreate (dst t) (Ok dstf); ECopyBuffer dstf srcf None;
     EClose srcf None; EClose dstf None; EChmod (dst t) (destMode cfg fi) None]
    Finish.
Proof.
  intros Hfi Hdir Hreg Hv. unfold runTask, copyRegular. rewrite Hfi, Hdir, Hreg, Hv.
  simpl. exists (Ok srcf). eexists. split; [reflexivity|].
  exists (Ok dstf). eexists. split; [reflexivity|].
  exists None. eexists. split; [reflexivity|].
  exists None. eexists. split; [reflexivity|].
  exists None. eexists. split; [reflexivity|].
  exists None. eexists. split; [reflexivity|]. split; reflexivity.
Qed.

Lemma runTask_symlink_ok cfg t fi target :
  srcfi t = Some fi -> IsDir fi = false -> FileMode.IsRegular (Mode fi) = false ->
  (0 <? verbosity cfg) = false ->
  runs (runTask cfg t)
    [EReadlink (src t) (Ok target); ESymlink target (dst t) None] Finish.
Proof.
  intros Hfi Hdir Hreg Hv. unfold runTask, copySymlink.
  rewrite Hfi, Hdir, Hreg, Hv, symlinkTest_true.
  simpl. exists (Ok target). eexists. split; [reflexivity|].
  exists None. eexists. split; [reflexivity|]. split; reflexivity.
Qed.

End Success.

(** * The theorems at concrete inputs *)

(** C4 at a regular file of mode 0644 under umask 022. *)
Lemma permission_rule_witness :
  exists r, In (EChmod "b" (Z.land 420 18) r) Example.copy_a.
Proof.
  assert (Hr : runs (runTask (H := Example.lib) Example.cfg1 Example.task_a)
                 Example.copy_a Finish).
  { apply (runTask_regular_ok (H := Example.lib) Example.cfg1 Example.task_a
             Example.file_a 3%nat 4%nat); reflexivity. }
  destruct (permission_rule (H := Example.lib) Example.cfg1 Example.task_a
              Example.file_a Example.copy_a Finish eq_refl Hr) as (_ & _ & Hreg).
  apply (Hreg eq_refl eq_refl 3%nat 4%nat); simpl; auto.
Defined.

(** C6 at a symbolic link. *)
Lemma symlink_round_trip_witness :
  exists r, In (ESymlink "target" "m" r) Example.copy_l.
Proof.
  assert (Hr : runs (runTask (H := Example.lib) Example.cfg1 Example.task_l)
                 Example.copy_l Finish).
  { apply (runTask_symlink_ok (H := Example.lib) Example.cfg1 Example.task_l
             Example.link_l "target"); reflexivity. }
  destruct (symlink_round_trip (H := Example.lib) Example.cfg1 Example.task_l
              Example.link_l Example.copy_l Finish eq_refl eq_refl eq_refl Hr)
    as (_ & _ & Hlink & _).
  apply (Hlink "target"). simpl. auto.
Defined.

Section Runs.
Context `{GoLib}.
Context (os_Stat os_Lstat : string -> result FileInfo).
Context (cfg : config).

(** Runs can be built from their first transition. *)
Lemma run_cons s l s1 tr s2 :
  step os_Stat os_Lstat cfg s l s1 ->
  run os_Stat os_Lstat cfg s1 tr s2 ->
  run os_Stat os_Lstat cfg s (l :: tr) s2.
Proof.
  intros Hs Hr. induction Hr as [s1|s1 tr s2 l' s3 Hr IH Hs'].
  - apply (run_snoc os_Stat os_Lstat cfg s [] s l s1); [apply run_nil|exact Hs].
  - change (l :: tr ++ [l'])%list with ((l :: tr) ++ [l'])%list.
    eapply run_snoc; eauto.
Qed.

(** Runs compose. *)
Lemma run_app s tr1 s1 tr2 s2 :
  run os_Stat os_Lstat cfg s tr1 s1 ->
  run os_Stat os_Lstat cfg s1 tr2 s2 ->
  run os_Stat os_Lstat cfg s (tr1 ++ tr2) s2.
Proof.
  intros H1 H2. induction H2 as [s1|s1 tr2 s2 l s3 H2 IH Hs].
  - rewrite app_nil_r. exact H1.
  - rewrite app_assoc. eapply run_snoc; eauto.
Qed.

End Runs.

(** The run of [cp -P -r a b] up to the first receive of the worker. *)
Lemma example_receiving :
  run (H := Example.lib) Example.stat Example.stat Example.cfg1
    (init Example.cfg1 ["a"] "b") Example.receiving Example.received.
Proof.
  unfold Example.receiving.
  eapply run_cons; [apply step_driver; apply D_init|].
  eapply run_cons; [apply step_driver; eapply D_stat; reflexivity|].
  eapply run_cons; [apply step_driver; apply D_take|].
  eapply run_cons; [apply step_driver; apply D_add|].
  eapply run_cons; [apply step_driver; apply D_send; vm_compute; lia|].
  eapply run_cons; [eapply (step_worker _ _ _ 0); [reflexivity|apply W_recv]|].
  apply run_nil.
Qed.

(** The run of [cp a l out] up to the wait, where [out] cannot be stat'ed. *)
Lemma example_refusing :
  run (H := Example.lib) Example.stat Example.stat Example.cfg1
    (init Example.cfg1 ["a"; "l"] "out") Example.refusing Example.refused.
Proof.
  unfold Example.refusing.
  eapply run_cons; [apply step_driver; apply D_init|].
  apply run_nil.
Qed.

(** ** The engine at [cp -P -r -v d e] *)

Lemma walk_d_runs :
  runs (runTask (H := Example.lib) WalkExample.verbose1 WalkExample.task_d)
    WalkExample.walk_d (Walk 3%nat).
Proof.
  unfold runTask, copyDir. simpl.
  eexists. split; [reflexivity|].
  exists None. eexists. split; [reflexivity|].
  exists (Ok 3%nat). eexists. split; [reflexivity|]. split; reflexivity.
Qed.

Lemma copy_dl_runs :
  runs (runTask (H := Example.lib) WalkExample.verbose1 WalkExample.task_dl)
    WalkExample.copy_dl Finish.
Proof.
  unfold runTask, copySymlink. simpl.
  eexists. split; [reflexivity|].
  exists (Ok "target"). eexists. split; [reflexivity|].
  exists None. eexists. split; [reflexivity|]. split; reflexivity.
Qed.

Lemma copy_da_runs :
  runs (runTask (H := Example.lib) WalkExample.verbose1 WalkExample.task_da)
    WalkExample.copy_da Finish.
Proof.
  unfold runTask, copyRegular. simpl.
  eexists. split; [reflexivity|].
  exists (Ok 4%nat). eexists. split; [reflexivity|].
  exists (Ok 5%nat). eexists. split; [reflexivity|].
  exists None. eexists. split; [reflexivity|].
  exists None. eexists. split; [reflexivity|].
  exists None. eexists. split; [reflexivity|].
  exists None. eexists. split; [reflexivity|]. split; reflexivity.
Qed.

Ltac worker_moves lem :=
  eapply run_cons;
  [ eapply (step_worker _ _ _ 0%nat); [reflexivity | lem] | ].

Ltac driver_moves lem :=
  eapply run_cons; [ apply step_driver; lem | ].

(** The run up to the first batch of the listing. *)
Lemma walk_listing :
  run (H := Example.lib) Example.stat Example.stat WalkExample.verbose1
    (init WalkExample.verbose1 ["d"] "e") WalkExample.listingRun WalkExample.listing.
Proof.
  unfold WalkExample.listingRun.
  driver_moves ltac:(apply D_init).
  driver_moves ltac:(eapply D_stat; reflexivity).
  driver_moves ltac:(apply D_take).
  driver_moves ltac:(apply D_add).
  driver_moves ltac:(apply D_send; vm_compute; lia).
  worker_moves ltac:(apply W_recv).
  worker_moves ltac:(apply W_release; vm_compute; lia).
  worker_moves ltac:(exact (W_exec WalkExample.verbose1 [] WalkExample.task_d
                              WalkExample.walk_d (Walk 3%nat) _ walk_d_runs)).
  worker_moves ltac:(apply (W_readdir WalkExample.verbose1 [] WalkExample.task_d 3%nat
                              [Example.file_a; Example.link_l]
                              [Example.file_a; Example.link_l] None []);
                     split; [reflexivity|]; simpl; split; [lia|discriminate]).
  apply run_nil.
Qed.

(** From there to the end of the listing. *)
Lemma walk_buffering :
  run (H := Example.lib) Example.stat Example.stat WalkExample.verbose1
    WalkExample.listing WalkExample.bufferingRun WalkExample.buffered.
Proof.
  unfold WalkExample.bufferingRun, WalkExample.listing.
  worker_moves ltac:(apply W_add).
  worker_moves ltac:(apply W_child_take).
  worker_moves ltac:(apply W_child_send; vm_compute; lia).
  worker_moves ltac:(apply W_add).
  worker_moves ltac:(apply (W_child_default (H := Example.lib) WalkExample.verbose1 [])).
  worker_moves ltac:(apply W_batch_next).
  worker_moves ltac:(apply (W_readdir WalkExample.verbose1 _ WalkExample.task_d 3%nat
                              [] [] (Some io_EOF) []);
                     split; [reflexivity|]; simpl; split; [lia|discriminate]).
  worker_moves ltac:(apply W_batch_end; exists None; eexists;
                     split; [reflexivity|]; split; reflexivity).
  worker_moves ltac:(apply W_done).
  apply run_nil.
Qed.

Lemma walk_buffered :
  run (H := Example.lib) Example.stat Example.stat WalkExample.verbose1
    (init WalkExample.verbose1 ["d"] "e") WalkExample.buffering WalkExample.buffered.
Proof. exact (run_app _ _ _ _ _ _ _ _ walk_listing walk_buffering). Qed.

(** And from there to the return of [wg.Wait()]. *)
Lemma walk_returning :
  run (H := Example.lib) Example.stat Example.stat WalkExample.verbose1
    WalkExample.buffered WalkExample.returningRun WalkExample.returned.
Proof.
  unfold WalkExample.returningRun, WalkExample.buffered.
  worker_moves ltac:(apply (W_buffered_default WalkExample.verbose1 [])).
  worker_moves ltac:(exact (W_exec WalkExample.verbose1 [] WalkExample.task_dl
                              WalkExample.copy_dl Finish _ copy_dl_runs)).
  worker_moves ltac:(apply W_done).
  worker_moves ltac:(apply W_recv).
  worker_moves ltac:(apply W_release; vm_compute; lia).
  worker_moves ltac:(exact (W_exec WalkExample.verbose1 [] WalkExample.task_da
                              WalkExample.copy_da Finish _ copy_da_runs)).
  worker_moves ltac:(apply W_done).
  driver_moves ltac:(apply D_seeded).
  driver_moves ltac:(apply D_wait).
  apply run_nil.
Qed.

Lemma walk_returned :
  run (H := Example.lib) Example.stat Example.stat WalkExample.verbose1
    (init WalkExample.verbose1 ["d"] "e") WalkExample.returning WalkExample.returned.
Proof. exact (run_app _ _ _ _ _ _ _ _ walk_buffered walk_returning). Qed.

(** C1 where the buffer is in use. In [cp -P -r -v d e] with one worker the
    listing of [d] leaves the only Task Object in the Work Queue and the
    second entry in the buffer of the worker. Back at the head of its loop
    the worker is not blocked; it finds the pool empty, takes the default
    case of the select and runs the buffered task itself, which is what the
    specification says of a task that cannot be published. *)
Lemma overflow_discipline_witness :
  workers WalkExample.buffered !! 0%nat =
    Some (mkWorker [WalkExample.task_dl] PTop) /\
  freeCopyTasks (sh WalkExample.buffered) = [] /\
  copyTasks (sh WalkExample.buffered) = [0%nat] /\
  (exists ev s1,
     step (H := Example.lib) Example.stat Example.stat WalkExample.verbose1
       WalkExample.buffered (Worker 0, ev) s1) /\
  (forall s' w',
     overflow_code (H := Example.lib) WalkExample.verbose1 (sh WalkExample.buffered)
       [] WalkExample.task_dl s' w' <->
     (s', w') = (sh WalkExample.buffered, mkWorker [] (PExec WalkExample.task_dl))) /\
  (forall ev s1,
     step (H := Example.lib) Example.stat Example.stat WalkExample.verbose1
       WalkExample.buffered (Worker 0, ev) s1 ->
     ev = [EDefault] /\ sh s1 = sh WalkExample.buffered /\
     workers s1 !! 0%nat = Some (mkWorker [] (PExec WalkExample.task_dl))).
Proof.
  destruct (overflow_discipline (H := Example.lib) Example.stat Example.stat
              WalkExample.verbose1 ["d"] "e" WalkExample.buffering WalkExample.buffered
              0%nat (mkWorker [WalkExample.task_dl] PTop) walk_buffered eq_refl)
    as (Hbuf & _).
  destruct (Hbuf [] WalkExample.task_dl eq_refl) as (Hmove & Hspec & Hlocal).
  split; [reflexivity|]. split; [reflexivity|]. split; [reflexivity|].
  split; [exact Hmove|]. split; [exact Hspec|]. exact (Hlocal eq_refl).
Defined.

(** C2 at a directory with two entries and a Work Queue of capacity one. *)
Lemma no_deadlock_witness :
  (capacity Example.cfg1 < length (Entries Example.dir_d))%nat /\
  exists tr s,
    run (H := Example.lib) Example.stat Example.stat Example.cfg1
      (init Example.cfg1 ["d"] "e") tr s /\ driver s = DReturn.
Proof.
  split; [vm_compute; lia|].
  destruct (no_deadlock (H := Example.lib) Example.stat Example.stat Example.cfg1
              ["d"] "e" [] (init Example.cfg1 ["d"] "e")
              ltac:(reflexivity) ltac:(reflexivity) (run_nil _ _ _ _))
    as (_ & _ & _ & Hdone & _).
  exact Hdone.
Defined.

(** C3 after one task was submitted and received. *)
Lemma tracker_balance_witness :
  wg (sh Example.received) =
    Z.of_nat (count isAdd Example.receiving) - Z.of_nat (count isDone Example.receiving) /\
  wg (sh Example.received) = Z.of_nat (outstanding Example.received).
Proof.
  destruct (tracker_balance (H := Example.lib) Example.stat Example.stat Example.cfg1
              ["a"] "b" Example.receiving Example.received example_receiving)
    as (Hwg & _ & Hout & _).
  split; assumption.
Defined.

(** C7 at a destination that cannot be stat'ed. *)
Lemma multi_source_policy_witness :
  queued (eventsOf Driver Example.refusing) = [] /\
  stats (eventsOf Driver Example.refusing) = ["out"] /\
  errLines (eventsOf Driver Example.refusing) = [fmtErr 104 "out" Example.eacces].
Proof.
  exact (multi_source_policy (H := Example.lib) Example.stat Example.stat Example.cfg1
           ["a"; "l"] "out" Example.refusing Example.refused
           ltac:(simpl; lia) example_refusing eq_refl).
Defined.

(** C7 as stated fails there: the destination is not reported missing, yet
    no source is stat'ed, and the one line is not the policy line. *)
Lemma stat_error_is_a_third_case :
  run (H := Example.lib) Example.stat Example.stat Example.cfg1
    (init Example.cfg1 ["a"; "l"] "out") Example.refusing Example.refused /\
  driver Example.refused = DWait /\
  notADirectory Example.stat "out" = false /\
  stats (eventsOf Driver Example.refusing) = ["out"] /\
  errLines (eventsOf Driver Example.refusing) <> [notDirectory (H := Example.lib) "out"] /\
  ~ multiSourceClaim (H := Example.lib) Example.stat Example.stat Example.cfg1
      ["a"; "l"] "out".
Proof.
  split; [exact example_refusing|]. split; [reflexivity|]. split; [reflexivity|].
  split; [reflexivity|]. split; [vm_compute; discriminate|].
  intros Hclaim. specialize (Hclaim _ _ example_refusing eq_refl).
  unfold multiSourcePolicy in Hclaim.
  change (notADirectory Example.stat "out") with false in Hclaim.
  destruct Hclaim as [Hstats _]. vm_compute in Hstats. discriminate.
Qed.



(** C10 as stated fails with [-v -v]: the dump of the configuration shows
    the flag. *)
Lemma dump_shows_preserve_links :
  CPCP (H := Example.lib) Example.stat Example.stat 18 Example.verbose2 []
    (dump (H := Example.lib) Example.verbose2 []) []
    (Some (mkError "nothing specified to copy" KOther)) /\
  dump (H := Example.lib) (set_preserveLinks true Example.verbose2) [] <>
    dump (H := Example.lib) Example.verbose2 [] /\
  ~ preserveLinksInert (H := Example.lib) Example.stat Example.stat 18.
Proof.
  assert (Hrun : CPCP (H := Example.lib) Example.stat Example.stat 18 Example.verbose2 []
            (dump (H := Example.lib) Example.verbose2 []) []
            (Some (mkError "nothing specified to copy" KOther))).
  { apply (CPCP_usage (H := Example.lib) Example.stat Example.stat 18 Example.verbose2 []).
    reflexivity. }
  assert (Hne : dump (H := Example.lib) (set_preserveLinks true Example.verbose2) [] <>
                dump (H := Example.lib) Example.verbose2 []).
  { vm_compute. discriminate. }
  split; [exact Hrun|]. split; [exact Hne|].
  intros Hclaim. apply Hne.
  apply (Hclaim Example.verbose2 true) in Hrun.
  apply CPCP_prints in Hrun. congruence.
Qed.

(** * The parser of the later iteration *)

Module Part000Facts.
Import Part000 Part000Args.

Lemma args_ind (P : list string -> Prop) :
  (forall args, (forall args', (length args' < length args)%nat -> P args') -> P args) ->
  forall args, P args.
Proof.
  intros IH args. remember (length args) as n eqn:Hn.
  revert args Hn. induction n as [n IHn] using lt_wf_ind.
  intros args ->. apply IH. intros args' Hlt. eapply IHn; [exact Hlt|reflexivity].
Qed.

Lemma parseLoop_operand a rest cfg srcs :
  isOperand a = true ->
  parseLoop (a :: rest) cfg srcs = parseLoop rest cfg (srcs ++ [a])%list.
Proof. unfold isOperand. intros Ho. simpl. rewrite Ho. reflexivity. Qed.

Lemma parseLoop_dash rest cfg srcs :
  parseLoop ("-" :: rest) cfg srcs = parseLoop rest cfg (srcs ++ rest)%list.
Proof. reflexivity. Qed.

Lemma parseLoop_preserve param rest cfg srcs :
  parseLoop ("--preserve" :: param :: rest) cfg srcs =
  parseLoop rest (applyOpts cfg ["preserve=" ++ param]) srcs.
Proof. reflexivity. Qed.

Lemma parseLoop_option a rest cfg srcs :
  isOperand a = false -> a <> "-" -> a <> "--preserve" ->
  parseLoop (a :: rest) cfg srcs = parseLoop rest (applyOpts cfg (optionsOf a)) srcs.
Proof.
  unfold isOperand. intros Ho Hd Hp.
  cbn [parseLoop]. rewrite Ho.
  destruct (String.eqb a "-") eqn:Hd'; [apply String.eqb_eq in Hd'; contradiction|].
  unfold optionsOf, isOperand. rewrite Ho.
  destruct a as [|c0 [|c1 long]]; try reflexivity.
  destruct (Ascii.eqb c1 "-") eqn:Hc1; [|reflexivity].
  destruct (strings_Contains long "="); simpl; [reflexivity|].
  destruct (String.eqb long "preserve") eqn:Hl; [|reflexivity].
  apply String.eqb_eq in Hl. apply Ascii.eqb_eq in Hc1. subst.
  simpl in Ho. apply negb_false_iff in Ho. apply Ascii.eqb_eq in Ho. subst. contradiction.
Qed.

Lemma arg_cases a :
  isOperand a = true \/ a = "-" \/ a = "--preserve" \/
  (isOperand a = false /\ a <> "-" /\ a <> "--preserve").
Proof.
  destruct (isOperand a) eqn:Ho; [left; reflexivity|].
  destruct (String.eqb a "-") eqn:Hd; [apply String.eqb_eq in Hd; auto|].
  destruct (String.eqb a "--preserve") eqn:Hp; [apply String.eqb_eq in Hp; auto|].
  apply String.eqb_neq in Hd, Hp. auto 6.
Qed.

Lemma optionsOf_operand a : isOperand a = true -> optionsOf a = [].
Proof. unfold optionsOf. intros ->. reflexivity. Qed.

Lemma applyOpts_nil cfg : applyOpts cfg [] = cfg.
Proof. reflexivity. Qed.

(** [srcs] only grows, by what the arguments add to it. *)
Lemma parseLoop_srcs args : forall cfg srcs,
  parseLoop args cfg srcs =
  match parseLoop args cfg [] with
  | inl err => inl err
  | inr (cfg', added) => inr (cfg', (srcs ++ added)%list)
  end.
Proof.
  induction args as [args IH] using args_ind. intros cfg srcs.
  destruct args as [|a rest]; [simpl; rewrite app_nil_r; reflexivity|].
  destruct (arg_cases a) as [Ho|[->|[->|(Ho & Hd & Hp)]]].
  - rewrite !(parseLoop_operand _ _ _ _ Ho).
    rewrite (IH rest ltac:(simpl; lia) cfg (srcs ++ [a])%list).
    rewrite (IH rest ltac:(simpl; lia) cfg ([] ++ [a])%list).
    destruct (parseLoop rest cfg []) as [e|[c d]]; [reflexivity|].
    simpl. rewrite <- app_assoc. reflexivity.
  - rewrite !parseLoop_dash.
    rewrite (IH rest ltac:(simpl; lia) cfg (srcs ++ rest)%list).
    rewrite (IH rest ltac:(simpl; lia) cfg ([] ++ rest)%list).
    destruct (parseLoop rest cfg []) as [e|[c d]]; [reflexivity|].
    simpl. rewrite <- app_assoc. reflexivity.
  - destruct rest as [|param rest]; [reflexivity|].
    rewrite !parseLoop_preserve.
    apply (IH rest ltac:(simpl; lia)).
  - rewrite !(parseLoop_option _ _ _ _ Ho Hd Hp).
    apply (IH rest ltac:(simpl; lia)).
Qed.

(** ** What the options do to the configuration *)

Lemma setPreserve_fields preserves : forall cfg,
  let cfg' := fst (setPreserve preserves cfg) in
  sameSizes cfg cfg' /\ keepsFlags cfg cfg' /\
  verbosity cfg' = verbosity cfg /\ dereference cfg' = dereference cfg /\
  recursive cfg' = recursive cfg.
Proof.
  unfold sameSizes, keepsFlags.
  induction preserves as [|p rest IH]; intros cfg; simpl; [tauto|].
  repeat match goal with
         | |- context [if ?b then _ else _] => destruct b
         end;
    try (simpl; tauto);
    match goal with
    | |- context [setPreserve rest ?c] => specialize (IH c)
    end; simpl in IH; intuition congruence.
Qed.

Lemma applyOpt_fields cfg opt :
  sameSizes cfg (applyOpt cfg opt) /\ keepsFlags cfg (applyOpt cfg opt).
Proof.
  unfold applyOpt.
  repeat match goal with
         | |- context [if ?b then _ else _] => destruct b
         end;
    try (unfold sameSizes, keepsFlags; simpl; tauto).
  pose proof (setPreserve_fields
                (strings_Split
                   match snd (strings_SplitN2 opt "=") with
                   | Some a => a
                   | None => ""
                   end ",") cfg) as Hs.
  simpl in Hs. unfold keepsFlags in *. intuition congruence.
Qed.

Lemma sameSizes_trans c1 c2 c3 : sameSizes c1 c2 -> sameSizes c2 c3 -> sameSizes c1 c3.
Proof. unfold sameSizes. intuition congruence. Qed.

Lemma keepsFlags_trans c1 c2 c3 : keepsFlags c1 c2 -> keepsFlags c2 c3 -> keepsFlags c1 c3.
Proof. unfold keepsFlags. intuition. Qed.

Lemma fold_applyOpt_fields opts : forall cfg,
  sameSizes cfg (fold_left applyOpt opts cfg) /\
  keepsFlags cfg (fold_left applyOpt opts cfg).
Proof.
  induction opts as [|o opts IH]; intros cfg; simpl.
  - unfold sameSizes, keepsFlags. tauto.
  - destruct (applyOpt_fields cfg o) as [H1 H2].
    destruct (IH (applyOpt cfg o)) as [H3 H4].
    split; [eapply sameSizes_trans|eapply keepsFlags_trans]; eassumption.
Qed.

Lemma applyOpts_fields cfg opts :
  sameSizes cfg (applyOpts cfg opts) /\ keepsFlags cfg (applyOpts cfg opts).
Proof. apply fold_applyOpt_fields. Qed.

Lemma parseLoop_fields args : forall cfg srcs cfg' srcs',
  parseLoop args cfg srcs = inr (cfg', srcs') ->
  sameSizes cfg cfg' /\ keepsFlags cfg cfg'.
Proof.
  induction args as [args IH] using args_ind. intros cfg srcs cfg' srcs'.
  destruct args as [|a rest].
  { simpl. intros [= <- <-]. unfold sameSizes, keepsFlags. tauto. }
  destruct (arg_cases a) as [Ho|[->|[->|(Ho & Hd & Hp)]]].
  - rewrite (parseLoop_operand _ _ _ _ Ho). apply IH. simpl; lia.
  - rewrite parseLoop_dash. apply IH. simpl; lia.
  - destruct rest as [|param rest]; [discriminate|].
    rewrite parseLoop_preserve. intros Hr.
    apply IH in Hr as [H1 H2]; [|simpl; lia].
    destruct (applyOpts_fields cfg ["preserve=" ++ param]) as [H3 H4].
    split; [eapply sameSizes_trans|eapply keepsFlags_trans]; eassumption.
  - rewrite (parseLoop_option _ _ _ _ Ho Hd Hp). intros Hr.
    apply IH in Hr as [H1 H2]; [|simpl; lia].
    destruct (applyOpts_fields cfg (optionsOf a)) as [H3 H4].
    split; [eapply sameSizes_trans|eapply keepsFlags_trans]; eassumption.
Qed.

Lemma parseLoop_error args : forall cfg srcs err,
  parseLoop args cfg srcs = inl err -> err = preserveNeedsParameter.
Proof.
  induction args as [args IH] using args_ind. intros cfg srcs err.
  destruct args as [|a rest]; [discriminate|].
  destruct (arg_cases a) as [Ho|[->|[->|(Ho & Hd & Hp)]]].
  - rewrite (parseLoop_operand _ _ _ _ Ho). apply IH. simpl; lia.
  - rewrite parseLoop_dash. apply IH. simpl; lia.
  - destruct rest as [|param rest]; [simpl; congruence|].
    rewrite parseLoop_preserve. apply IH. simpl; lia.
  - rewrite (parseLoop_option _ _ _ _ Ho Hd Hp). apply IH. simpl; lia.
Qed.

Lemma fold_options_app (l1 l2 : list string) cfg :
  fold_left (fun c a => applyOpts c (optionsOf a)) (l1 ++ l2)%list cfg =
  fold_left (fun c a => applyOpts c (optionsOf a)) l2
    (fold_left (fun c a => applyOpts c (optionsOf a)) l1 cfg).
Proof. apply fold_left_app. Qed.

(** Without [-] and [--preserve] every argument is read on its own. *)
Lemma parseLoop_plain args : forall cfg srcs,
  existsb looksAhead args = false ->
  parseLoop args cfg srcs =
  inr (fold_left (fun c a => applyOpts c (optionsOf a)) args cfg,
       (srcs ++ List.filter isOperand args)%list).
Proof.
  induction args as [|a rest IH]; intros cfg srcs Hp.
  { simpl. rewrite app_nil_r. reflexivity. }
  simpl in Hp. apply orb_false_iff in Hp as [Ha Hp].
  unfold looksAhead in Ha. apply orb_false_iff in Ha as [Hd Hpr].
  apply String.eqb_neq in Hd, Hpr.
  destruct (isOperand a) eqn:Ho.
  - rewrite (parseLoop_operand _ _ _ _ Ho), IH by auto.
    simpl. rewrite Ho, (optionsOf_operand _ Ho), applyOpts_nil, <- app_assoc.
    reflexivity.
  - rewrite (parseLoop_option _ _ _ _ Ho Hd Hpr), IH by auto.
    simpl. rewrite Ho. reflexivity.
Qed.

Section Results.
Context `{GoLib}.

(** [parseArgs] returns three errors and no other; in particular it never
    reports a word that [--preserve] does not support. *)
Theorem parseArgs_errors (args : list string) (err : error) :
  parseArgs args = inl err ->
  err = preserveNeedsParameter \/ err = nothingToCopy \/
  exists src, err = missingDestination src.
Proof.
  unfold parseArgs. destruct (parseLoop args defaults []) as [e|[cfg srcs]] eqn:Hl.
  - intros [= <-]. left. eapply parseLoop_error, Hl.
  - destruct srcs as [|s [|s' srcs]]; intros [= <-]; eauto.
Qed.

(** On success the buffer sizes are the built-in ones, the mask is still
    zero, and there is at least one source. *)
Theorem parseArgs_fixed_fields (args : list string) (cfg : config)
    (srcs : list string) (dst : string) :
  parseArgs args = inr (cfg, srcs, dst) ->
  messageBuffer cfg = 1000 /\ errBuffer cfg = 1000 /\ parallelTasks cfg = 1000 /\
  readdirBuffer cfg = 1000 /\ copyBuffer cfg = 65536 /\ umask cfg = 0 /\
  srcs <> [].
Proof.
  unfold parseArgs. destruct (parseLoop args defaults []) as [e|[cfg0 srcs0]] eqn:Hl;
    [discriminate|].
  apply parseLoop_fields in Hl as [(H1 & H2 & H3 & H4 & H5 & H6) _].
  destruct srcs0 as [|s [|s' srcs0]]; intros [= <- <- <-].
  simpl in *. repeat split; try assumption. discriminate.
Qed.

(** Options and operands mix freely. When no argument is [-] or
    [--preserve], the operands are the arguments that are empty or do not
    start with a dash, in their order, the last one being the destination;
    the configuration is what the other arguments make of the defaults, from
    left to right. *)
Theorem operands_and_options_mix (args : list string) :
  existsb looksAhead args = false ->
  parseArgs args =
  let cfg := fold_left (fun c a => applyOpts c (optionsOf a)) args defaults in
  match List.filter isOperand args with
  | [] => inl nothingToCopy
  | [src] => inl (missingDestination src)
  | operands => inr (cfg, removelast operands, List.last operands "")
  end.
Proof.
  intros Hp. unfold parseArgs. rewrite parseLoop_plain by auto. cbn [app].
  destruct (List.filter isOperand args) as [|s [|s' l]]; reflexivity.
Qed.

End Results.

(** A lone [-] adds every argument after it to the operands and then goes on
    with those same arguments: they are operands a second time, or options
    that take effect as well. *)
Theorem dash_takes_the_rest_twice (rest : list string) (cfg : config)
    (srcs : list string) :
  parseLoop ("-" :: rest) cfg srcs =
    match parseLoop rest cfg [] with
    | inl err => inl err
    | inr (cfg', added) => inr (cfg', (srcs ++ rest ++ added)%list)
    end /\
  (forallb isOperand rest = true ->
   parseLoop ("-" :: rest) cfg srcs = inr (cfg, (srcs ++ rest ++ rest)%list)).
Proof.
  assert (Hfirst : parseLoop ("-" :: rest) cfg srcs =
    match parseLoop rest cfg [] with
    | inl err => inl err
    | inr (cfg', added) => inr (cfg', (srcs ++ rest ++ added)%list)
    end).
  { rewrite parseLoop_dash, parseLoop_srcs.
    destruct (parseLoop rest cfg []) as [e|[c d]]; [reflexivity|].
    rewrite <- app_assoc. reflexivity. }
  split; [exact Hfirst|].
  intros Hall. rewrite Hfirst.
  assert (Hplain : existsb looksAhead rest = false).
  { clear -Hall. induction rest as [|a rest IH]; [reflexivity|].
    simpl in *. apply andb_true_iff in Hall as [Ha Hr].
    rewrite (IH Hr), orb_false_r.
    unfold looksAhead. destruct (String.eqb a "-") eqn:E1.
    { apply String.eqb_eq in E1. subst. discriminate. }
    destruct (String.eqb a "--preserve") eqn:E2; [|reflexivity].
    apply String.eqb_eq in E2. subst. discriminate. }
  rewrite parseLoop_plain by auto. simpl.
  assert (Hf : List.filter isOperand rest = rest).
  { clear -Hall. induction rest as [|a rest IH]; [reflexivity|].
    simpl in *. apply andb_true_iff in Hall as [Ha Hr]. rewrite Ha, (IH Hr).
    reflexivity. }
  assert (Hc : fold_left (fun c a => applyOpts c (optionsOf a)) rest cfg = cfg).
  { clear -Hall. revert cfg. induction rest as [|a rest IH]; intros cfg; [reflexivity|].
    simpl in *. apply andb_true_iff in Hall as [Ha Hr].
    rewrite (optionsOf_operand _ Ha), applyOpts_nil. apply IH, Hr. }
  rewrite Hf, Hc. reflexivity.
Qed.

(** ** Words that [--preserve] does not support *)

Lemma setPreserve_unsupported l1 : forall bad l2 cfg,
  forallb supported l1 = true -> supported bad = false ->
  setPreserve (l1 ++ bad :: l2) cfg =
  (fst (setPreserve l1 cfg), Some (UnsupportedPreserve bad)).
Proof.
  unfold supported.
  induction l1 as [|p l1 IH]; intros bad l2 cfg Hl Hb; simpl in *.
  - repeat (apply orb_false_iff in Hb as [Hb ?]).
    repeat match goal with E : String.eqb _ _ = false |- _ => rewrite E; clear E end.
    reflexivity.
  - apply andb_true_iff in Hl as [Hp Hl].
    repeat match goal with
           | |- context [if String.eqb p ?s then _ else _] =>
               destruct (String.eqb p s) eqn:?
           end; try (apply IH; assumption).
    discriminate.
Qed.

Lemma parseLoop_preserve_eq spec rest cfg srcs :
  parseLoop (("--preserve=" ++ spec) :: rest) cfg srcs =
  parseLoop rest (fst (setPreserve (strings_Split spec ",") cfg)) srcs.
Proof. reflexivity. Qed.

Lemma parseLoop_preserve_next spec rest cfg srcs :
  parseLoop ("--preserve" :: spec :: rest) cfg srcs =
  parseLoop rest (fst (setPreserve (strings_Split spec ",") cfg)) srcs.
Proof. reflexivity. Qed.

(** A word [--preserve] does not support is not an error: the words before
    it in the list take effect, and it and the words after it are dropped
    without notice. *)
Theorem unsupported_preserve_is_dropped (spec : string) (l1 : list string)
    (bad : string) (l2 rest : list string) (cfg : config) (srcs : list string) :
  strings_Split spec "," = (l1 ++ bad :: l2)%list ->
  forallb supported l1 = true ->
  supported bad = false ->
  parseLoop (("--preserve=" ++ spec) :: rest) cfg srcs =
    parseLoop rest (fst (setPreserve l1 cfg)) srcs /\
  parseLoop ("--preserve" :: spec :: rest) cfg srcs =
    parseLoop rest (fst (setPreserve l1 cfg)) srcs.
Proof.
  intros Hs Hl Hb.
  rewrite parseLoop_preserve_eq, parseLoop_preserve_next, Hs.
  rewrite (setPreserve_unsupported l1 bad l2 cfg Hl Hb). split; reflexivity.
Qed.

(** ** Options the parser does not know *)

Lemma applyOpt_name cfg opt :
  applyOpt cfg opt =
  let name := optName opt in
  if String.eqb name "dereference" then set_dereference true cfg
  else if String.eqb name "no-dereference" then set_dereference false cfg
  else if String.eqb name "preserve" then
    fst (setPreserve
           (strings_Split (match snd (strings_SplitN2 opt "=") with
                           | Some a => a
                           | None => ""
                           end) ",") cfg)
  else if String.eqb name "recursive" then set_recursive true cfg
  else if String.eqb name "verbose" then set_verbosity (int_incr (verbosity cfg)) cfg
  else cfg.
Proof.
  unfold applyOpt, optName.
  destruct (strings_SplitN2 opt "=") as [h [t|]]; reflexivity.
Qed.

Lemma applyOpt_unknown cfg opt :
  knownOption (optName opt) = false -> applyOpt cfg opt = cfg.
Proof.
  unfold knownOption. intros Hk. rewrite applyOpt_name. cbv zeta.
  repeat (apply orb_false_iff in Hk as [Hk ?]).
  repeat match goal with E : String.eqb _ _ = false |- _ => rewrite E; clear E end.
  reflexivity.
Qed.

Lemma optName_archive opt : String.eqb opt "archive" = true -> optName opt = "archive".
Proof. intros E. apply String.eqb_eq in E. subst. reflexivity. Qed.

Lemma applyOpts_unknown opts : forall cfg,
  forallb (fun opt => negb (knownOption (optName opt))) opts = true ->
  applyOpts cfg opts = cfg.
Proof.
  unfold applyOpts.
  induction opts as [|o opts IH]; intros cfg Hall; [reflexivity|].
  simpl in Hall. apply andb_true_iff in Hall as [Ho Hall].
  apply negb_true_iff in Ho.
  simpl. destruct (String.eqb o "archive") eqn:E.
  { apply optName_archive in E. rewrite E in Ho. discriminate. }
  simpl. rewrite (applyOpt_unknown _ _ Ho). apply IH, Hall.
Qed.

(** An option the parser does not know is passed over without notice, and so
    is [--]: it does not end the options. *)
Theorem unknown_options_are_ignored (a : string) (rest : list string)
    (cfg : config) (srcs : list string) :
  isOperand a = false ->
  a <> "-" ->
  forallb (fun opt => negb (knownOption (optName opt))) (optionsOf a) = true ->
  parseLoop (a :: rest) cfg srcs = parseLoop rest cfg srcs.
Proof.
  intros Ho Hd Hall.
  assert (Hp : a <> "--preserve") by (intros ->; discriminate).
  rewrite (parseLoop_option _ _ _ _ Ho Hd Hp), (applyOpts_unknown _ _ Hall).
  reflexivity.
Qed.

(** ** Which of [-L], [-P], [-d] and [-a] decides *)

Lemma setPreserve_dereference preserves cfg :
  dereference (fst (setPreserve preserves cfg)) = dereference cfg.
Proof. apply (setPreserve_fields preserves cfg). Qed.

Lemma applyOpt_dereference cfg opt :
  dereference (applyOpt cfg opt) =
  if String.eqb (optName opt) "dereference" then true
  else if String.eqb (optName opt) "no-dereference" then false
  else dereference cfg.
Proof.
  rewrite applyOpt_name. cbv zeta.
  repeat match goal with
         | |- context [if ?b then _ else _] => destruct b
         end; try reflexivity.
  apply setPreserve_dereference.
Qed.

Lemma lastDeref_some opts : forall b,
  fold_left (fun r opt =>
               if String.eqb (optName opt) "dereference" then Some true
               else if String.eqb (optName opt) "no-dereference" then Some false
               else r) opts (Some b) <> None.
Proof.
  induction opts as [|o opts IH]; intros b; simpl; [discriminate|].
  repeat match goal with
         | |- context [if ?c then _ else _] => destruct c
         end; apply IH.
Qed.

Lemma fold_applyOpt_dereference opts : forall cfg r b,
  (forall b', r = Some b' -> dereference cfg = b') ->
  fold_left (fun r opt =>
               if String.eqb (optName opt) "dereference" then Some true
               else if String.eqb (optName opt) "no-dereference" then Some false
               else r) opts r = Some b ->
  dereference (fold_left applyOpt opts cfg) = b.
Proof.
  induction opts as [|o opts IH]; intros cfg r b Hr; simpl.
  - apply Hr.
  - pose proof (applyOpt_dereference cfg o) as Ha.
    apply IH. intros b'.
    destruct (String.eqb (optName o) "dereference"); [congruence|].
    destruct (String.eqb (optName o) "no-dereference"); [congruence|].
    intros Hb. rewrite Ha. auto.
Qed.

Lemma fold_applyOpt_neutral opts : forall cfg r,
  fold_left (fun r opt =>
               if String.eqb (optName opt) "dereference" then Some true
               else if String.eqb (optName opt) "no-dereference" then Some false
               else r) opts r = None ->
  dereference (fold_left applyOpt opts cfg) = dereference cfg.
Proof.
  induction opts as [|o opts IH]; intros cfg r; simpl; [reflexivity|].
  pose proof (applyOpt_dereference cfg o) as Ha.
  destruct (String.eqb (optName o) "dereference");
    [intros Hn; apply lastDeref_some in Hn; contradiction|].
  destruct (String.eqb (optName o) "no-dereference");
    [intros Hn; apply lastDeref_some in Hn; contradiction|].
  intros Hn. rewrite (IH _ _ Hn). exact Ha.
Qed.

Lemma applyOpts_dereference cfg opts :
  dereference (applyOpts cfg opts) =
  match lastDeref (expandArchive opts) with
  | Some b => b
  | None => dereference cfg
  end.
Proof.
  unfold applyOpts, lastDeref.
  destruct (fold_left _ (expandArchive opts) None) as [b|] eqn:Hf.
  - eapply fold_applyOpt_dereference; [|exact Hf]. discriminate.
  - eapply fold_applyOpt_neutral, Hf.
Qed.

Lemma lastDeref_neutral opts :
  forallb (fun opt => negb (String.eqb (optName opt) "dereference") &&
                      negb (String.eqb (optName opt) "no-dereference")) opts = true ->
  lastDeref opts = None.
Proof.
  unfold lastDeref.
  induction opts as [|o opts IH]; intros Hall; [reflexivity|].
  simpl in *. apply andb_true_iff in Hall as [Ho Hall].
  apply andb_true_iff in Ho as [H1 H2].
  apply negb_true_iff in H1, H2. rewrite H1, H2. apply IH, Hall.
Qed.

Lemma neutral_keeps_dereference args : forall cfg srcs cfg' srcs',
  forallb derefNeutral args = true ->
  parseLoop args cfg srcs = inr (cfg', srcs') ->
  dereference cfg' = dereference cfg.
Proof.
  induction args as [args IH] using args_ind. intros cfg srcs cfg' srcs' Hall.
  destruct args as [|a rest]; [simpl; congruence|].
  simpl in Hall. apply andb_true_iff in Hall as [Ha Hall].
  destruct (arg_cases a) as [Ho|[->|[->|(Ho & Hd & Hp)]]].
  - rewrite (parseLoop_operand _ _ _ _ Ho). apply IH; [simpl; lia|exact Hall].
  - rewrite parseLoop_dash. apply IH; [simpl; lia|exact Hall].
  - destruct rest as [|param rest]; [discriminate|].
    rewrite parseLoop_preserve_next. intros Hr.
    simpl in Hall. apply andb_true_iff in Hall as [_ Hall].
    apply IH in Hr; [|simpl; lia|exact Hall].
    rewrite Hr. apply setPreserve_dereference.
  - rewrite (parseLoop_option _ _ _ _ Ho Hd Hp). intros Hr.
    apply IH in Hr; [|simpl; lia|exact Hall].
    rewrite Hr, applyOpts_dereference.
    unfold derefNeutral in Ha. rewrite Ho in Ha. simpl in Ha.
    rewrite (lastDeref_neutral _ Ha). reflexivity.
Qed.

Lemma parseLoop_past pre : forall l2 cfg srcs,
  existsb (String.eqb "--preserve") pre = false ->
  exists cfg1 srcs1,
    parseLoop (pre ++ l2) cfg srcs = parseLoop l2 cfg1 srcs1.
Proof.
  induction pre as [|a pre IH]; intros l2 cfg srcs Hp; [simpl; eauto|].
  simpl in Hp. apply orb_false_iff in Hp as [Ha Hp].
  rewrite <- app_comm_cons.
  destruct (arg_cases a) as [Ho|[->|[->|(Ho & Hd & Hpr)]]].
  - rewrite (parseLoop_operand _ _ _ _ Ho). apply IH, Hp.
  - rewrite parseLoop_dash. apply IH, Hp.
  - discriminate.
  - rewrite (parseLoop_option _ _ _ _ Ho Hd Hpr). apply IH, Hp.
Qed.

(** Whichever of [-L], [-P], [-d], [-a] and their long forms comes last
    decides whether sources are dereferenced: the one behind which the
    arguments leave the setting alone. *)
Theorem dereference_last_wins (pre : list string) (a : string) (post : list string)
    (cfg : config) (srcs : list string) (b : bool) (cfg' : config)
    (srcs' : list string) :
  existsb (String.eqb "--preserve") pre = false ->
  lastDeref (expandArchive (optionsOf a)) = Some b ->
  forallb derefNeutral post = true ->
  parseLoop (pre ++ a :: post) cfg srcs = inr (cfg', srcs') ->
  dereference cfg' = b.
Proof.
  intros Hpre Ha Hpost Hr.
  destruct (parseLoop_past pre (a :: post) cfg srcs Hpre) as (cfg1 & srcs1 & Heq).
  rewrite Heq in Hr. clear Heq.
  destruct (arg_cases a) as [Ho|[->|[->|(Ho & Hd & Hp)]]].
  - rewrite (optionsOf_operand _ Ho) in Ha. discriminate.
  - discriminate.
  - discriminate.
  - rewrite (parseLoop_option _ _ _ _ Ho Hd Hp) in Hr.
    apply (neutral_keeps_dereference _ _ _ _ _ Hpost) in Hr.
    rewrite Hr, applyOpts_dereference, Ha. reflexivity.
Qed.

(** ** Counting [-v] *)





End Part000Facts.

(** * [parseArgs] of [cpcp.go] *)

Module ParseFacts.

Lemma wrap_nil r : wrap [] r = r.
Proof. destruct r; reflexivity. Qed.

Lemma wrap_app l1 l2 r : wrap (l1 ++ l2) r = wrap l1 (wrap l2 r).
Proof. destruct r; simpl; rewrite <- ?app_assoc; reflexivity. Qed.

Lemma leftToRight_cons arg rest cfg :
  String.eqb arg "--preserve" = false ->
  leftToRight (arg :: rest) cfg =
  match setPreserve (preserves arg) cfg with
  | inl err => PreserveFailed err
  | inr cfg' => wrap (leaves arg) (leftToRight rest cfg')
  end.
Proof.
  intros Hp. simpl. rewrite Hp.
  destruct (setPreserve (preserves arg) cfg) as [err|cfg']; [reflexivity|].
  destruct (leftToRight rest cfg'); reflexivity.
Qed.

Lemma settled_inv arg :
  settled arg = true ->
  String.eqb arg "--preserve" = false /\ preserves arg = [] /\ leaves arg = [arg].
Proof.
  unfold settled, passes, preserves, leaves.
  destruct (strings_HasPrefix arg "--preserve="); [discriminate|].
  destruct (String.eqb arg "-a" || String.eqb arg "--archive"); [discriminate|].
  destruct (String.eqb arg "-d"); [discriminate|].
  destruct (String.eqb arg "--preserve"); [discriminate|].
  destruct (String.eqb arg "-R"); [discriminate|]. auto.
Qed.

Lemma settled_passes arg : settled arg = true -> passes arg = 0%nat.
Proof.
  unfold settled. intros Hs. apply andb_true_iff in Hs as [Hs _].
  apply Nat.eqb_eq, Hs.
Qed.

Lemma leftToRight_settled seen : forall l cfg,
  forallb settled seen = true ->
  leftToRight (seen ++ l) cfg = wrap seen (leftToRight l cfg).
Proof.
  induction seen as [|a seen IH]; intros l cfg Hs; [symmetry; apply wrap_nil|].
  simpl in Hs. apply andb_true_iff in Hs as [Ha Hs].
  destruct (settled_inv _ Ha) as (Hp & Hpres & Hl).
  rewrite <- app_comm_cons, (leftToRight_cons _ _ _ Hp), Hpres, Hl. cbn [setPreserve].
  rewrite (IH _ _ Hs). change (a :: seen) with ([a] ++ seen)%list.
  apply eq_sym, wrap_app.
Qed.

Lemma weight_app l1 l2 : weight (l1 ++ l2) = (weight l1 + weight l2)%nat.
Proof. unfold weight. rewrite map_app, list_sum_app. reflexivity. Qed.

Lemma weight_settled seen : forallb settled seen = true -> weight seen = 0%nat.
Proof.
  induction seen as [|a seen IH]; [reflexivity|]. simpl. intros Hs.
  apply andb_true_iff in Hs as [Ha Hs].
  unfold weight in *. simpl. rewrite (settled_passes _ Ha), (IH Hs). reflexivity.
Qed.

Lemma forallb_snoc (f : string -> bool) l a :
  forallb f l = true -> f a = true -> forallb f (l ++ [a]) = true.
Proof. intros Hl Ha. rewrite forallb_app, Hl. simpl. rewrite Ha. reflexivity. Qed.

(** One pass against the reading from left to right. *)
Lemma scan_leftToRight todo : forall seen cfg,
  forallb settled seen = true ->
  match scan seen todo cfg with
  | Break l => wrap seen (leftToRight todo cfg) = Rewritten l cfg
  | Again l cfg' =>
      (weight l < weight todo)%nat /\
      leftToRight l cfg' = wrap seen (leftToRight todo cfg)
  | Failed err => leftToRight todo cfg = PreserveFailed err
  | Panicked => leftToRight todo cfg = IndexOutOfRange
  end.
Proof.
  induction todo as [|arg rest IH]; intros seen cfg Hs.
  { simpl. rewrite app_nil_r. reflexivity. }
  pose proof (weight_settled _ Hs) as Hw0.
  cbn [scan].
  destruct (strings_HasPrefix arg "--preserve=") eqn:Hpre.
  { assert (Hp : String.eqb arg "--preserve" = false).
    { apply String.eqb_neq. intros ->. discriminate. }
    rewrite (leftToRight_cons _ _ _ Hp). unfold preserves, leaves. rewrite Hpre.
    destruct (setPreserve _ cfg) as [err|cfg']; [reflexivity|].
    rewrite wrap_nil, weight_app, Hw0. split.
    - unfold weight. simpl. unfold passes at 2. rewrite Hpre. lia.
    - apply leftToRight_settled, Hs. }
  destruct (String.eqb arg "-a" || String.eqb arg "--archive") eqn:Ha.
  { assert (Hp : String.eqb arg "--preserve" = false).
    { apply orb_true_iff in Ha as [Ha|Ha]; apply String.eqb_eq in Ha; subst; reflexivity. }
    rewrite (leftToRight_cons _ _ _ Hp). unfold preserves, leaves. rewrite Hpre, Ha.
    rewrite <- !app_assoc, !weight_app, Hw0. split.
    - unfold weight. simpl. unfold passes at 2. rewrite Hpre, Ha. lia.
    - rewrite (leftToRight_settled _ _ _ Hs). f_equal. simpl.
      destruct (leftToRight rest _) as [l c| |]; reflexivity. }
  destruct (String.eqb arg "-d") eqn:Hd.
  { apply String.eqb_eq in Hd. subst arg.
    rewrite <- !app_assoc, !weight_app, Hw0. split.
    - unfold weight. simpl. lia.
    - rewrite (leftToRight_settled _ _ _ Hs). f_equal. simpl.
      destruct (leftToRight rest _) as [l c| |]; reflexivity. }
  destruct (String.eqb arg "--preserve") eqn:Hp.
  { apply String.eqb_eq in Hp. subst arg.
    destruct rest as [|spec rest']; [reflexivity|]. simpl leftToRight.
    destruct (setPreserve _ cfg) as [err|cfg']; [reflexivity|].
    rewrite weight_app, Hw0. split.
    - unfold weight. simpl. lia.
    - apply leftToRight_settled, Hs. }
  assert (Hcons : leftToRight (arg :: rest) cfg =
                  wrap (leaves arg) (leftToRight rest cfg)).
  { rewrite (leftToRight_cons _ _ _ Hp). unfold preserves. rewrite Hpre, Ha, Hd.
    reflexivity. }
  assert (Hpass : passes arg = 0%nat).
  { unfold passes. rewrite Hpre, Ha, Hd, Hp. reflexivity. }
  assert (Hweight : weight (arg :: rest) = weight rest).
  { unfold weight. simpl. rewrite Hpass. reflexivity. }
  rewrite Hcons, Hweight. unfold leaves. rewrite Hpre, Ha, Hd.
  destruct (String.eqb arg "-R") eqn:HR.
  - specialize (IH (seen ++ ["-r"])%list cfg (forallb_snoc settled seen "-r" Hs eq_refl)).
    destruct (scan _ rest cfg); rewrite ?wrap_app in IH;
      first [exact IH | rewrite IH; reflexivity].
  - assert (Hsa : settled arg = true).
    { unfold settled. rewrite Hpass, HR. reflexivity. }
    specialize (IH (seen ++ [arg])%list cfg (forallb_snoc _ _ _ Hs Hsa)).
    destruct (scan _ rest cfg); rewrite ?wrap_app in IH;
      first [exact IH | rewrite IH; reflexivity].
Qed.

(** The loop ends after at most one pass more than the weight of its
    arguments, and in what the reading from left to right gives. *)
Lemma rewriteArgs_leftToRight fuel : forall oargs cfg,
  (weight oargs < fuel)%nat ->
  rewriteArgs fuel oargs cfg = Some (leftToRight oargs cfg).
Proof.
  induction fuel as [|fuel IH]; intros oargs cfg Hf; [lia|].
  pose proof (scan_leftToRight oargs [] cfg eq_refl) as Hs.
  cbn [rewriteArgs]. destruct (scan [] oargs cfg) as [l|l cfg'|err|].
  - rewrite wrap_nil in Hs. congruence.
  - destruct Hs as [Hw Hs]. rewrite wrap_nil in Hs. rewrite IH by lia. congruence.
  - congruence.
  - congruence.
Qed.

Lemma rewriteArgs_sound fuel : forall oargs cfg r,
  rewriteArgs fuel oargs cfg = Some r -> r = leftToRight oargs cfg.
Proof.
  induction fuel as [|fuel IH]; intros oargs cfg r; [discriminate|].
  pose proof (scan_leftToRight oargs [] cfg eq_refl) as Hs.
  cbn [rewriteArgs]. destruct (scan [] oargs cfg) as [l|l cfg'|err|].
  - rewrite wrap_nil in Hs. congruence.
  - destruct Hs as [_ Hs]. rewrite wrap_nil in Hs. intros Hr.
    apply IH in Hr. congruence.
  - congruence.
  - congruence.
Qed.

Lemma list_len_ind (P : list string -> Prop) :
  (forall l, (forall l', (length l' < length l)%nat -> P l') -> P l) ->
  forall l, P l.
Proof.
  intros IH l. remember (length l) as n eqn:Hn.
  revert l Hn. induction n as [n IHn] using lt_wf_ind.
  intros l ->. apply IH. intros l' Hlt. eapply IHn; [exact Hlt|reflexivity].
Qed.

Lemma wrap_rewritten seen r l c :
  wrap seen r = Rewritten l c -> exists l', r = Rewritten l' c /\ l = (seen ++ l')%list.
Proof. destruct r; simpl; intros [= <- <-] || discriminate. eauto. Qed.

(** Arguments that parse on their own do so in front of any others. *)
Lemma leftToRight_app pre : forall post cfg l c,
  leftToRight pre cfg = Rewritten l c ->
  leftToRight (pre ++ post) cfg = wrap l (leftToRight post c).
Proof.
  induction pre as [pre IH] using list_len_ind. intros post cfg l c.
  destruct pre as [|arg rest].
  { simpl. intros [= <- <-]. symmetry. apply wrap_nil. }
  destruct (String.eqb arg "--preserve") eqn:Hp.
  - apply String.eqb_eq in Hp. subst arg.
    destruct rest as [|spec rest']; [discriminate|]. simpl.
    destruct (setPreserve _ cfg) as [err|cfg']; [discriminate|].
    apply IH. simpl. lia.
  - rewrite <- app_comm_cons, !(leftToRight_cons _ _ _ Hp).
    destruct (setPreserve _ cfg) as [err|cfg']; [discriminate|].
    intros Hr. apply wrap_rewritten in Hr as (l' & Hr & ->).
    rewrite (IH rest ltac:(simpl; lia) post cfg' l' c Hr).
    symmetry. apply wrap_app.
Qed.

Lemma leaves_settled arg :
  String.eqb arg "--preserve" = false -> forallb settled (leaves arg) = true.
Proof.
  intros Hp. unfold leaves.
  destruct (strings_HasPrefix arg "--preserve=") eqn:Hpre; [reflexivity|].
  destruct (String.eqb arg "-a" || String.eqb arg "--archive") eqn:Ha; [reflexivity|].
  destruct (String.eqb arg "-d") eqn:Hd; [reflexivity|].
  destruct (String.eqb arg "-R") eqn:HR; [reflexivity|].
  simpl. unfold settled, passes. rewrite Hpre, Ha, Hd, Hp, HR. reflexivity.
Qed.

Lemma leftToRight_result oargs : forall cfg l c,
  leftToRight oargs cfg = Rewritten l c -> forallb settled l = true.
Proof.
  induction oargs as [oargs IH] using list_len_ind. intros cfg l c.
  destruct oargs as [|arg rest].
  { simpl. intros [= <- <-]. reflexivity. }
  destruct (String.eqb arg "--preserve") eqn:Hp.
  - apply String.eqb_eq in Hp. subst arg.
    destruct rest as [|spec rest']; [discriminate|]. simpl.
    destruct (setPreserve _ cfg) as [err|cfg']; [discriminate|].
    apply IH. simpl. lia.
  - rewrite (leftToRight_cons _ _ _ Hp).
    destruct (setPreserve _ cfg) as [err|cfg']; [discriminate|].
    intros Hr. apply wrap_rewritten in Hr as (l' & Hr & ->).
    rewrite forallb_app, (leaves_settled _ Hp).
    apply (IH rest ltac:(simpl; lia) cfg' l' c Hr).
Qed.

(** ** The theorems on the rewriting of the arguments *)

(** The loop labelled [L] ends, after at most one pass more than the
    arguments weigh, and whatever the number of passes allowed, a result it
    gives is what reading the arguments once from left to right gives: [-a]
    stands for [--no-dereference -r] and the
    words [links] and [all], [-d] for [--no-dereference] and [links], [-R]
    for [-r], [--preserve=WORDS] and [--preserve WORDS] for their words. *)
Theorem rewriting_reads_left_to_right (fuel : nat) (oargs : list string)
    (cfg : config) :
  ((weight oargs < fuel)%nat ->
   rewriteArgs fuel oargs cfg = Some (leftToRight oargs cfg)) /\
  (forall r, rewriteArgs fuel oargs cfg = Some r -> r = leftToRight oargs cfg).
Proof.
  split.
  - apply rewriteArgs_leftToRight.
  - intros r. apply rewriteArgs_sound.
Qed.

(** After the rewriting no argument is [-a], [--archive], [-d], [-R] or
    [--preserve], and none starts with [--preserve=], wherever it stood; an
    argument after [--] is rewritten like any other. *)
Theorem rewritten_args_are_settled (fuel : nat) (oargs : list string)
    (cfg : config) (l : list string) (c : config) :
  rewriteArgs fuel oargs cfg = Some (Rewritten l c) ->
  forallb settled l = true.
Proof.
  intros Hr. apply rewriteArgs_sound in Hr. symmetry in Hr.
  eapply leftToRight_result, Hr.
Qed.

(** [--preserve] as the last argument, behind arguments that parse, is an
    index out of range at line 221. *)
Theorem trailing_preserve_panics (fuel fuel' : nat) (pre : list string)
    (cfg : config) (l : list string) (c : config) :
  rewriteArgs fuel pre cfg = Some (Rewritten l c) ->
  (weight (pre ++ ["--preserve"]) < fuel')%nat ->
  rewriteArgs fuel' (pre ++ ["--preserve"]) cfg = Some IndexOutOfRange.
Proof.
  intros Hr Hf. apply rewriteArgs_sound in Hr. symmetry in Hr.
  rewrite (rewriteArgs_leftToRight _ _ _ Hf), (leftToRight_app _ _ _ _ _ Hr).
  reflexivity.
Qed.

(** Arguments that parse on their own parse the same in front of any
    others, which then start from the configuration reached. *)
Theorem rewriting_composes (f1 f2 fuel : nat) (pre post : list string)
    (cfg : config) (l : list string) (c : config) (r : rewritten) :
  rewriteArgs f1 pre cfg = Some (Rewritten l c) ->
  rewriteArgs f2 post c = Some r ->
  (weight (pre ++ post) < fuel)%nat ->
  rewriteArgs fuel (pre ++ post) cfg = Some (wrap l r).
Proof.
  intros H1 H2 Hf. apply rewriteArgs_sound in H1, H2. symmetry in H1. subst r.
  rewrite (rewriteArgs_leftToRight _ _ _ Hf), (leftToRight_app _ _ _ _ _ H1).
  reflexivity.
Qed.

(** ** Which flag decides on dereferencing *)

Lemma leftToRight_plain oargs : forall cfg l c,
  existsb (String.eqb "--preserve") oargs = false ->
  leftToRight oargs cfg = Rewritten l c ->
  l = flat_map leaves oargs.
Proof.
  induction oargs as [|arg rest IH]; intros cfg l c Hp.
  { simpl. intros [= <- <-]. reflexivity. }
  cbn [existsb] in Hp. apply orb_false_iff in Hp as [Ha Hp].
  rewrite String.eqb_sym in Ha.
  rewrite (leftToRight_cons _ _ _ Ha).
  destruct (setPreserve _ cfg) as [err|cfg']; [discriminate|].
  intros Hr. apply wrap_rewritten in Hr as (l' & Hr & ->).
  simpl. f_equal. eapply IH; eassumption.
Qed.

Lemma noderef_decided a b : forall nd,
  derefFlag a = Some b -> fold_left noderefStep (leaves a) nd = b.
Proof.
  intros nd. unfold derefFlag.
  destruct (String.eqb a "-L" || String.eqb a "--dereference") eqn:H1.
  { intros [= <-].
    apply orb_true_iff in H1 as [H1|H1]; apply String.eqb_eq in H1; subst;
      reflexivity. }
  destruct (String.eqb a "-P" || String.eqb a "--no-dereference" ||
            String.eqb a "-d" || String.eqb a "-a" || String.eqb a "--archive") eqn:H2;
    [|discriminate].
  intros [= <-].
  repeat (apply orb_true_iff in H2 as [H2|H2]);
    apply String.eqb_eq in H2; subst; reflexivity.
Qed.

Lemma noderef_untouched a : forall nd,
  derefFlag a = None -> fold_left noderefStep (leaves a) nd = nd.
Proof.
  intros nd. unfold derefFlag.
  destruct (String.eqb a "-L" || String.eqb a "--dereference") eqn:H1; [discriminate|].
  destruct (String.eqb a "-P" || String.eqb a "--no-dereference" ||
            String.eqb a "-d" || String.eqb a "-a" || String.eqb a "--archive") eqn:H2;
    [discriminate|].
  intros _.
  repeat (apply orb_false_iff in H2 as [H2 ?]).
  unfold leaves.
  destruct (strings_HasPrefix a "--preserve="); [reflexivity|].
  repeat match goal with E : String.eqb a _ = false |- _ => rewrite E end.
  simpl orb. cbv iota.
  destruct (String.eqb a "-R") eqn:HR; [reflexivity|].
  simpl. unfold noderefStep. rewrite H1.
  repeat match goal with E : String.eqb a _ = false |- _ => rewrite E end.
  reflexivity.
Qed.

Lemma noderef_neutral post : forall nd,
  forallb (fun x => match derefFlag x with None => true | Some _ => false end) post = true ->
  fold_left noderefStep (flat_map leaves post) nd = nd.
Proof.
  induction post as [|x post IH]; intros nd Hall; [reflexivity|].
  simpl in *. apply andb_true_iff in Hall as [Hx Hall].
  rewrite fold_left_app, IH by exact Hall.
  apply noderef_untouched. destruct (derefFlag x); [discriminate|reflexivity].
Qed.

(** ** The closed form of [setPreserve] *)

Lemma set_preserve_flags cfg :
  set_preserveMode (preserveMode cfg) (set_preserveLinks (preserveLinks cfg) cfg) = cfg.
Proof. destruct cfg; reflexivity. Qed.

(** [setPreserve] fails on the first word it does not know, and otherwise
    switches on what the words ask for and switches nothing off. *)
Theorem setPreserve_closed_form (preserves : list string) (cfg : config) :
  setPreserve preserves cfg =
  match List.find (fun p => negb (knownPreserve p)) preserves with
  | Some p => inl (UnsupportedPreserve p)
  | None =>
      inr (set_preserveMode (preserveMode cfg || existsb asksMode preserves)
             (set_preserveLinks (preserveLinks cfg || existsb asksLinks preserves) cfg))
  end.
Proof.
  revert cfg. induction preserves as [|p rest IH]; intros cfg.
  { simpl. rewrite !orb_false_r, set_preserve_flags. reflexivity. }
  cbn [setPreserve List.find existsb]. unfold knownPreserve, asksMode, asksLinks.
  destruct (String.eqb p "") eqn:E0.
  { apply String.eqb_eq in E0. subst p. simpl. apply IH. }
  destruct (String.eqb p "links") eqn:E1.
  { apply String.eqb_eq in E1. subst p. simpl. rewrite IH.
    destruct (List.find _ rest); [reflexivity|].
    destruct cfg; simpl. rewrite !orb_true_r. reflexivity. }
  destruct (String.eqb p "mode") eqn:E2.
  { apply String.eqb_eq in E2. subst p. simpl. rewrite IH.
    destruct (List.find _ rest); [reflexivity|].
    destruct cfg; simpl. rewrite !orb_true_r. reflexivity. }
  destruct (String.eqb p "all") eqn:E3.
  { apply String.eqb_eq in E3. subst p. simpl. rewrite IH.
    destruct (List.find _ rest); [reflexivity|].
    destruct cfg; simpl. rewrite !orb_true_r. reflexivity. }
  reflexivity.
Qed.

Lemma setPreserve_umask preserves : forall cfg cfg',
  setPreserve preserves cfg = inr cfg' -> umask cfg' = umask cfg.
Proof.
  induction preserves as [|p rest IH]; intros cfg cfg'; simpl.
  { intros [= <-]. reflexivity. }
  repeat match goal with
         | |- context [if ?b then _ else _] => destruct b
         end; try discriminate; intros Hs; apply IH in Hs; exact Hs.
Qed.

Lemma leftToRight_umask oargs : forall cfg l c,
  leftToRight oargs cfg = Rewritten l c -> umask c = umask cfg.
Proof.
  induction oargs as [oargs IH] using list_len_ind. intros cfg l c.
  destruct oargs as [|arg rest].
  { simpl. intros [= <- <-]. reflexivity. }
  destruct (String.eqb arg "--preserve") eqn:Hp.
  - apply String.eqb_eq in Hp. subst arg.
    destruct rest as [|spec rest']; [discriminate|]. simpl.
    destruct (setPreserve _ cfg) as [err|cfg'] eqn:Hs; [discriminate|].
    intros Hr. apply IH in Hr; [|simpl; lia].
    rewrite Hr. eapply setPreserve_umask, Hs.
  - rewrite (leftToRight_cons _ _ _ Hp).
    destruct (setPreserve _ cfg) as [err|cfg'] eqn:Hs; [discriminate|].
    intros Hr. apply wrap_rewritten in Hr as (l' & Hr & ->).
    apply IH in Hr; [|simpl; lia].
    rewrite Hr. eapply setPreserve_umask, Hs.
Qed.

Section Finish.
Context (flags_ParseArgs : list string -> result (parseOpts * list string)).

(** The last of [-L], [-P], [-d], [-a] and their long forms decides whether
    symbolic links are followed: the one behind which no argument is one of
    them. Only whole arguments count. *)
Theorem noDereference_last_wins (fuel : nat) (pre : list string) (a : string)
    (post : list string) (b : bool) (cfg' : config) (args' : list string) :
  existsb (String.eqb "--preserve") (pre ++ a :: post) = false ->
  derefFlag a = Some b ->
  forallb (fun x => match derefFlag x with None => true | Some _ => false end) post = true ->
  parseArgs flags_ParseArgs fuel (pre ++ a :: post) = Some (Parsed cfg' args') ->
  noDereference cfg' = b.
Proof.
  intros Hp Ha Hpost. unfold parseArgs.
  destruct (rewriteArgs fuel _ zeroConfig) as [[l c|err|]|] eqn:Hr; try discriminate.
  apply rewriteArgs_sound in Hr. symmetry in Hr.
  apply (leftToRight_plain _ _ _ _ Hp) in Hr. subst l.
  unfold finishArgs. destruct (flags_ParseArgs _) as [[opts rest]|err]; [|discriminate].
  intros [= <- <-]. cbn [noDereference]. unfold noderefOf.
  rewrite flat_map_app. cbn [flat_map]. rewrite !fold_left_app.
  rewrite (noderef_neutral _ _ Hpost). apply noderef_decided, Ha.
Qed.

(** Every configuration [parseArgs] returns has the built-in sizes, so a
    positive number of workers and a positive batch size, and a mask that is
    still zero. *)
Theorem parseArgs_sizes (fuel : nat) (args : list string) (cfg : config)
    (args' : list string) :
  parseArgs flags_ParseArgs fuel args = Some (Parsed cfg args') ->
  parsed cfg /\ umask cfg = 0 /\ 0 <= verbosity cfg /\
  0 < parallelTasks cfg /\ 0 < readdirBuffer cfg /\ capacity cfg = 1000%nat.
Proof.
  unfold parseArgs.
  destruct (rewriteArgs fuel args zeroConfig) as [[l c|err|]|] eqn:Hr; try discriminate.
  unfold finishArgs. destruct (flags_ParseArgs l) as [[opts rest]|err]; [|discriminate].
  intros [= <- <-]. unfold parsed, capacity. simpl.
  apply rewriteArgs_sound in Hr. symmetry in Hr. apply leftToRight_umask in Hr.
  repeat split; try lia; try reflexivity. exact Hr.
Qed.

End Finish.

End ParseFacts.

(** * The parsers at some arguments *)

Module ParseWitnesses.
Import Part000 Part000Args Part000Facts.

Lemma parseArgs_errors_witness :
  parseArgs (H := Example.lib) ["--preserve=bogus"; "a"] = inl (missingDestination (H := Example.lib) "a") /\
  (missingDestination (H := Example.lib) "a" = preserveNeedsParameter \/
   missingDestination (H := Example.lib) "a" = nothingToCopy \/
   exists src, missingDestination (H := Example.lib) "a" = missingDestination (H := Example.lib) src).
Proof.
  split; [reflexivity|].
  exact (parseArgs_errors (H := Example.lib) ["--preserve=bogus"; "a"] _ eq_refl).
Defined.

Lemma parseArgs_fixed_fields_witness :
  parseArgs (H := Example.lib) ["-r"; "a"; "b"] =
    inr (set_recursive true defaults, ["a"], "b") /\
  parallelTasks (set_recursive true defaults) = 1000 /\
  readdirBuffer (set_recursive true defaults) = 1000.
Proof.
  split; [reflexivity|].
  destruct (parseArgs_fixed_fields (H := Example.lib) ["-r"; "a"; "b"]
              (set_recursive true defaults) ["a"] "b" eq_refl)
    as (_ & _ & Hp & Hr & _).
  split; assumption.
Defined.

Lemma operands_and_options_mix_witness :
  parseArgs (H := Example.lib) ["a"; "-r"; "b"; "--verbose"; "c"] =
  inr (set_verbosity 1 (set_recursive true defaults), ["a"; "b"], "c").
Proof.
  exact (operands_and_options_mix (H := Example.lib)
           ["a"; "-r"; "b"; "--verbose"; "c"] eq_refl).
Defined.

Lemma unsupported_preserve_is_dropped_witness :
  parseLoop ["--preserve=links,bogus,mode"; "a"; "b"] defaults [] =
  inr (set_preserveLinks true defaults, ["a"; "b"]).
Proof.
  exact (proj1 (unsupported_preserve_is_dropped "links,bogus,mode" ["links"] "bogus"
                  ["mode"] ["a"; "b"] defaults [] eq_refl eq_refl eq_refl)).
Defined.

Lemma unknown_options_are_ignored_witness :
  parseLoop ["--"; "-r"; "a"; "b"] defaults [] =
  inr (set_recursive true defaults, ["a"; "b"]).
Proof.
  exact (unknown_options_are_ignored "--" ["-r"; "a"; "b"] defaults []
           eq_refl ltac:(discriminate) eq_refl).
Defined.

Lemma dereference_last_wins_witness :
  exists cfg' srcs',
    parseLoop ["-L"; "x"; "-ra"; "-v"; "y"] defaults [] = inr (cfg', srcs') /\
    dereference cfg' = false.
Proof.
  eexists _, _. split; [reflexivity|].
  exact (dereference_last_wins ["-L"; "x"] "-ra" ["-v"; "y"] defaults [] false _ _
           eq_refl eq_refl eq_refl eq_refl).
Defined.


End ParseWitnesses.

Module RewriteWitnesses.
Import ParseFacts.

Lemma rewriting_reads_left_to_right_witness :
  rewriteArgs 5 ["-a"; "src"; "-R"; "dst"] zeroConfig =
  Some (Rewritten ["--no-dereference"; "-r"; "src"; "-r"; "dst"]
          (set_preserveMode true (set_preserveLinks true zeroConfig))).
Proof.
  exact (proj1 (rewriting_reads_left_to_right 5 ["-a"; "src"; "-R"; "dst"] zeroConfig)
           ltac:(vm_compute; lia)).
Defined.

Lemma rewritten_args_are_settled_witness :
  forallb settled ["--"; "--no-dereference"; "x"] = true.
Proof.
  exact (rewritten_args_are_settled 3 ["--"; "-d"; "x"] zeroConfig
           ["--"; "--no-dereference"; "x"] (set_preserveLinks true zeroConfig) eq_refl).
Defined.

Lemma trailing_preserve_panics_witness :
  rewriteArgs 2 ["-R"; "a"; "b"; "--preserve"] zeroConfig = Some IndexOutOfRange.
Proof.
  exact (trailing_preserve_panics 1 2 ["-R"; "a"; "b"] zeroConfig ["-r"; "a"; "b"]
           zeroConfig eq_refl ltac:(vm_compute; lia)).
Defined.

Lemma rewriting_composes_witness :
  rewriteArgs 4 ["-d"; "a"; "--preserve"; "mode"; "b"] zeroConfig =
  Some (Rewritten ["--no-dereference"; "a"; "b"]
          (set_preserveMode true (set_preserveLinks true zeroConfig))).
Proof.
  exact (rewriting_composes 3 2 4 ["-d"; "a"] ["--preserve"; "mode"; "b"] zeroConfig
           ["--no-dereference"; "a"] (set_preserveLinks true zeroConfig)
           (Rewritten ["b"] (set_preserveMode true (set_preserveLinks true zeroConfig)))
           eq_refl eq_refl ltac:(vm_compute; lia)).
Defined.

Lemma noDereference_last_wins_witness :
  exists cfg' args',
    parseArgs ParseExample.noFlags 10 ["-L"; "-a"; "x"; "y"] = Some (Parsed cfg' args') /\
    noDereference cfg' = true.
Proof.
  eexists _, _. split; [reflexivity|].
  exact (noDereference_last_wins ParseExample.noFlags 10 ["-L"] "-a" ["x"; "y"] true _ _
           eq_refl eq_refl eq_refl eq_refl).
Defined.

Lemma parseArgs_sizes_witness :
  exists cfg' args',
    parseArgs ParseExample.noFlags 10 ["-a"; "x"; "y"] = Some (Parsed cfg' args') /\
    0 < parallelTasks cfg' /\ 0 < readdirBuffer cfg'.
Proof.
  eexists _, _. split; [reflexivity|].
  destruct (parseArgs_sizes ParseExample.noFlags 10 ["-a"; "x"; "y"] _ _ eq_refl)
    as (_ & _ & _ & Hp & Hr & _).
  split; assumption.
Defined.

End RewriteWitnesses.

(** * The mask, the error lines and the printers *)

(** ** The permission bits that are kept *)

Section MaskFacts.
Context `{GoLib}.

(** With preserve-mode off, a permission bit of the source reaches the
    destination exactly when it is set in the process umask, and no other
    bit does: the mode is ANDed with the umask itself, not with its
    complement. *)
Theorem masked_mode_keeps_umask_bits (syscall_Umask : Z) (cfg cfg' : config)
    (args srcs : list string) (dst : string) (srcfi : FileInfo) :
  snd (CPCP_start syscall_Umask cfg args) = inr (cfg', srcs, dst) ->
  preserveMode cfg = false ->
  (forall n, 0 <= n ->
     Z.testbit (destMode cfg' srcfi) n =
     Z.testbit (Mode srcfi) n && Z.testbit syscall_Umask n && (n <? 9)) /\
  0 <= destMode cfg' srcfi <= 511 /\
  FileMode.IsDir (destMode cfg' srcfi) = false.
Proof.
  unfold CPCP_start. simpl. destruct args as [|a [|b args]]; try discriminate.
  intros [= <- <- <-] Hpm. unfold destMode. simpl. rewrite Hpm. simpl.
  assert (Hbits : forall n, 0 <= n ->
            Z.testbit (Z.land (Mode srcfi) (Z.land syscall_Umask 511)) n =
            Z.testbit (Mode srcfi) n && Z.testbit syscall_Umask n && (n <? 9)).
  { intros n Hn. rewrite !Z.land_spec.
    replace 511 with (Z.ones 9) by reflexivity.
    rewrite Z.testbit_ones_nonneg by lia. apply andb_assoc. }
  assert (Hrange : 0 <= Z.land (Mode srcfi) (Z.land syscall_Umask 511) <= 511).
  { rewrite Z.land_assoc. replace 511 with (Z.ones 9) by reflexivity.
    rewrite Z.land_ones by lia. change (2 ^ 9) with 512.
    change (Z.ones 9) with 511.
    pose proof (Z.mod_pos_bound (Z.land (Mode srcfi) syscall_Umask) 512 ltac:(lia)).
    lia. }
  split; [exact Hbits|]. split; [exact Hrange|].
  unfold FileMode.IsDir. apply negb_false_iff, Z.eqb_eq.
  apply Z.bits_inj'. intros n Hn. rewrite Z.land_spec, Z.bits_0, Hbits by exact Hn.
  unfold FileMode.ModeDir. rewrite Z.shiftl_1_l, Z.pow2_bits_eqb by lia.
  destruct (n <? 9) eqn:Hlt.
  - apply Z.ltb_lt in Hlt. replace (31 =? n) with false by (symmetry; apply Z.eqb_neq; lia).
    apply andb_false_r.
  - rewrite !andb_false_r. reflexivity.
Qed.

End MaskFacts.
(** ** No line for a printer is empty *)

Lemma append_nonempty (s : string) (c : ascii) (t : string) :
  (s ++ String c t)%string <> "".
Proof. destruct s; discriminate. Qed.

Lemma fmtErr_nonempty line pth err : fmtErr line pth err <> "".
Proof. unfold fmtErr. apply append_nonempty. Qed.

Lemma speaks_bind {A B} (p : prog A) (f : A -> prog B) :
  speaks p -> (forall a, speaks (f a)) -> speaks (bind p f).
Proof.
  intros Hp Hf. induction p as [a|X c k IH|line k IH|line k IH]; simpl in *.
  - apply Hf.
  - intros x. apply IH, Hp.
  - destruct Hp. split; auto.
  - destruct Hp. split; auto.
Qed.

Lemma runs_speaks {A} (p : prog A) tr a :
  speaks p -> runs p tr a -> Forall audible tr.
Proof.
  revert tr. induction p as [x|X c k IH|line k IH|line k IH]; simpl; intros tr Hp.
  - intros [-> _]. constructor.
  - intros (x & tr' & -> & Hr). constructor; [destruct c; exact I|eauto].
  - destruct Hp as [Hl Hp]. intros (tr' & -> & Hr). constructor; [exact Hl|eauto].
  - destruct Hp as [Hl Hp]. intros (tr' & -> & Hr). constructor; [exact Hl|eauto].
Qed.

Section Audible.
Context `{GoLib}.
Context (os_Stat os_Lstat : string -> result FileInfo).
Context (cfg : config).

Lemma omitting_nonempty src : omitting src <> "".
Proof. discriminate. Qed.

Lemma notDirectory_nonempty dst : notDirectory dst <> "".
Proof. discriminate. Qed.

Lemma speaks_report line pth r : speaks (report line pth r).
Proof. destruct r; simpl; auto using fmtErr_nonempty. Qed.

Ltac speaking :=
  repeat first
    [ apply speaks_bind
    | apply speaks_report
    | apply fmtErr_nonempty
    | apply omitting_nonempty
    | apply append_nonempty
    | exact I
    | progress intros
    | match goal with
      | |- speaks (if ?b then _ else _) => destruct b
      | |- speaks (match ?r with Some _ => _ | None => _ end) => destruct r
      | |- speaks (match ?r with Ok _ => _ | Err _ => _ end) => destruct r
      | |- _ /\ _ => split
      end
    | progress (unfold call, errs_send, msgs_send, skip; simpl) ].

Lemma speaks_runTask t : speaks (runTask cfg t).
Proof.
  unfold runTask, copyDir, copyRegular, copySymlink.
  destruct (srcfi t) as [fi|]; speaking.
Qed.

Lemma speaks_endWalk d f err : speaks (endWalk d f err).
Proof. unfold endWalk. speaking. Qed.

Ltac audible_list :=
  repeat match goal with
         | |- Forall _ [] => constructor
         | |- Forall _ (_ :: _) => constructor
         end;
  try match goal with
      | |- audible (EErrs (fmtErr _ _ _)) => apply fmtErr_nonempty
      | |- audible (EErrs (omitting _)) => apply omitting_nonempty
      | |- audible (EErrs (notDirectory _)) => apply notDirectory_nonempty
      | |- audible (EErrs _) => fail 1
      | |- audible (EMsgs _) => fail 1
      | |- audible _ => exact I
      end.

Lemma seedInit_audible srcs dst : Forall audible (fst (seedInit os_Stat srcs dst)).
Proof.
  unfold seedInit.
  destruct srcs as [|src [|src' srcs]]; cbv zeta;
    destruct (os_Stat dst) as [dstfi|err];
    try destruct (IsDir dstfi); try destruct (os_IsNotExist err);
    cbn [fst negb]; audible_list.
Qed.

Lemma seedOne_audible m src : Forall audible (fst (seedOne os_Stat os_Lstat cfg m src)).
Proof.
  unfold seedOne. cbv zeta.
  destruct (noDereference cfg);
    match goal with
    | |- context [match ?r with Ok _ => _ | Err _ => _ end] => destruct r as [fi|err]
    end;
    try destruct (IsDir fi && negb (recursive cfg));
    cbn [fst]; audible_list.
Qed.

Lemma step_audible s l s' :
  step os_Stat os_Lstat cfg s l s' -> Forall audible (snd l).
Proof.
  intros Hs. inversion Hs as [i w tr sh' w' sh0 ws d Hlk Hw|tr sh' d' sh0 ws d Hd]; subst; simpl.
  - inversion Hw; subst;
      try (eapply runs_speaks; [apply speaks_endWalk|eassumption]);
      try (constructor; [exact I|];
           eapply runs_speaks; [apply speaks_runTask|eassumption]);
      audible_list.
  - inversion Hd; subst;
      auto using seedInit_audible, seedOne_audible; audible_list.
Qed.

Lemma run_audible s tr s' :
  run os_Stat os_Lstat cfg s tr s' -> Forall audible (events tr).
Proof.
  induction 1 as [s|s tr s1 l s2 Hr IH Hs]; [constructor|].
  unfold events in *. rewrite flat_map_app. apply Forall_app. split; [exact IH|].
  simpl. rewrite app_nil_r. eapply step_audible, Hs.
Qed.

End Audible.

Lemma audible_errLines evs :
  Forall audible evs -> Forall (fun line => line <> "") (errLines evs).
Proof.
  unfold errLines. induction 1 as [|e evs He _ IH]; [constructor|].
  destruct e; simpl; try exact IH. constructor; assumption.
Qed.

Lemma audible_msgLines evs :
  Forall audible evs -> Forall (fun line => line <> "") (msgLines evs).
Proof.
  unfold msgLines. induction 1 as [|e evs He _ IH]; [constructor|].
  destruct e; simpl; try exact IH. constructor; assumption.
Qed.

Lemma printed_all lines :
  Forall (fun line => line <> "") lines -> printed lines = lines.
Proof.
  induction 1 as [|line lines Hl _ IH]; [reflexivity|].
  simpl. apply String.eqb_neq in Hl. rewrite Hl, IH. reflexivity.
Qed.

Lemma errCount_all lines :
  Forall (fun line => line <> "") lines ->
  errCount lines = Z.of_nat (length lines) mod 2 ^ 32.
Proof.
  induction 1 as [|line lines Hl _ IH]; [reflexivity|].
  cbn [errCount length]. apply String.eqb_neq in Hl. rewrite Hl, IH.
  rewrite Nat2Z.inj_succ, <- Z.add_1_l.
  rewrite Zplus_mod_idemp_r. reflexivity.
Qed.

Section Printers.
Context `{GoLib}.
Context (os_Stat os_Lstat : string -> result FileInfo).
Context (cfg : config).

(** No line a thread sends to a printer is empty, so neither printer stops
    before its channel is closed: every line is printed, and the count of
    errors is the number of error lines, modulo 2^32. With fewer than 2^32 of
    them [CPCP] returns [nil] exactly when no error line was sent. *)
Theorem printers_miss_no_line (srcs : list string) (dst : string)
    (tr : list label) (s : state) :
  run os_Stat os_Lstat cfg (init cfg srcs dst) tr s ->
  printed (errLines (events tr)) = errLines (events tr) /\
  printed (msgLines (events tr)) = msgLines (events tr) /\
  errCount (errLines (events tr)) = Z.of_nat (length (errLines (events tr))) mod 2 ^ 32 /\
  (Z.of_nat (length (errLines (events tr))) < 2 ^ 32 ->
   CPCP_result tr =
   match errLines (events tr) with
   | [] => None
   | lines =>
       Some (mkError ("there were " ++ fmt_d (Z.of_nat (length lines)) ++ " errors") KOther)
   end).
Proof.
  intros Hr. apply run_audible in Hr.
  pose proof (audible_errLines _ Hr) as He.
  pose proof (audible_msgLines _ Hr) as Hm.
  split; [apply printed_all, He|]. split; [apply printed_all, Hm|].
  split; [apply errCount_all, He|].
  intros Hlt. unfold CPCP_result. rewrite (errCount_all _ He).
  rewrite Z.mod_small by lia.
  destruct (errLines (events tr)) as [|line lines]; [reflexivity|].
  replace (0 <? Z.of_nat (length (line :: lines))) with true; [reflexivity|].
  symmetry. apply Z.ltb_lt. simpl length. lia.
Qed.

End Printers.

Lemma masked_mode_keeps_umask_bits_witness :
  0 <= destMode (set_umask (Z.land 18 511) Example.cfg1) Example.file_a <= 511 /\
  Z.testbit (destMode (set_umask (Z.land 18 511) Example.cfg1) Example.file_a) 2 = false.
Proof.
  destruct (masked_mode_keeps_umask_bits (H := Example.lib) 18 Example.cfg1
              (set_umask (Z.land 18 511) Example.cfg1) ["a"; "b"] ["a"] "b"
              Example.file_a eq_refl eq_refl) as (Hbits & Hrange & _).
  split; [exact Hrange|].
  rewrite (Hbits 2 ltac:(lia)). reflexivity.
Defined.

Lemma printers_miss_no_line_witness :
  printed (errLines (events Example.receiving)) = errLines (events Example.receiving) /\
  errCount (errLines (events Example.refusing)) = 1.
Proof.
  split.
  - exact (proj1 (printers_miss_no_line (H := Example.lib) Example.stat Example.stat
                    Example.cfg1 ["a"] "b" Example.receiving Example.received
                    example_receiving)).
  - destruct (printers_miss_no_line (H := Example.lib) Example.stat Example.stat
                Example.cfg1 ["a"; "l"] "out" Example.refusing Example.refused
                example_refusing) as (_ & _ & Hc & _).
    rewrite Hc. reflexivity.
Defined.

(** ** An error line names the place that reported it *)

Lemma digits_no_colon d : strings_Contains (DecimalString.NilEmpty.string_of_uint d) ":" = false.
Proof. induction d; simpl; auto. Qed.

Lemma fmt_d_no_colon n : strings_Contains (fmt_d n) ":" = false.
Proof.
  unfold fmt_d, DecimalString.NilZero.string_of_int, DecimalString.NilZero.string_of_uint.
  destruct (Z.to_int n) as [d|d]; destruct d; try reflexivity;
    try apply (digits_no_colon (Decimal.D0 _)); try apply (digits_no_colon (Decimal.D1 _));
    try apply (digits_no_colon (Decimal.D2 _)); try apply (digits_no_colon (Decimal.D3 _));
    try apply (digits_no_colon (Decimal.D4 _)); try apply (digits_no_colon (Decimal.D5 _));
    try apply (digits_no_colon (Decimal.D6 _)); try apply (digits_no_colon (Decimal.D7 _));
    try apply (digits_no_colon (Decimal.D8 _)); try apply (digits_no_colon (Decimal.D9 _)).
Qed.

Lemma to_int_not_nil n :
  Z.to_int n <> Decimal.Pos Decimal.Nil /\ Z.to_int n <> Decimal.Neg Decimal.Nil.
Proof.
  pose proof (DecimalZ.to_of (Z.to_int n)) as Hn. rewrite DecimalZ.of_to in Hn.
  split; intros Heq; rewrite Heq in Hn; discriminate.
Qed.

Lemma fmt_d_inj n m : fmt_d n = fmt_d m -> n = m.
Proof.
  unfold fmt_d. intros Heq. apply DecimalZ.to_int_inj.
  destruct (to_int_not_nil n) as [Hn1 Hn2]. destruct (to_int_not_nil m) as [Hm1 Hm2].
  pose proof (DecimalString.NilZero.isi _ Hn1 Hn2) as H1.
  pose proof (DecimalString.NilZero.isi _ Hm1 Hm2) as H2.
  rewrite Heq in H1. congruence.
Qed.

Lemma contains_append s c t : strings_Contains (s ++ String c t) c = true.
Proof.
  induction s as [|a s IH]; simpl.
  - rewrite Ascii.eqb_refl. reflexivity.
  - rewrite IH. apply orb_true_r.
Qed.

(** What stands behind the last colon of a string. *)
Lemma after_last_colon s1 : forall s2 d1 d2,
  strings_Contains d1 ":" = false -> strings_Contains d2 ":" = false ->
  (s1 ++ String ":" d1)%string = (s2 ++ String ":" d2)%string -> d1 = d2.
Proof.
  induction s1 as [|a s1 IH]; intros [|b s2] d1 d2 H1 H2; simpl; intros [= Heq].
  - assumption.
  - subst d1. rewrite contains_append in H1. discriminate.
  - subst d2. rewrite contains_append in H2. discriminate.
  - subst. eapply IH; eauto.
Qed.

(** Two error lines formatted at different places of the source differ,
    whatever the paths and the errors are: the line number that ends an error
    line is that of the call that reported it. *)
Theorem error_line_names_its_call_site (line1 line2 : Z) (pth1 pth2 : string)
    (err1 err2 : error) :
  line1 <> line2 ->
  fmtErr line1 pth1 err1 <> fmtErr line2 pth2 err2.
Proof.
  intros Hne Heq. apply Hne. apply fmt_d_inj. unfold fmtErr in Heq. cbv zeta in Heq.
  repeat match type of Heq with
         | context [(?a ++ (" @" ++ ?b))%string] =>
             change (a ++ (" @" ++ b))%string with (a ++ (" @cpcp.go" ++ b))%string in Heq
         end.
  simpl append in Heq.
  match type of Heq with
  | (?a ++ _)%string = (?b ++ _)%string =>
      apply (after_last_colon (a ++ " @cpcp.go") (b ++ " @cpcp.go")
               (fmt_d line1) (fmt_d line2) (fmt_d_no_colon _) (fmt_d_no_colon _))
  end.
  rewrite !string_app_assoc. exact Heq.
Qed.

Lemma error_line_names_its_call_site_witness :
  fmtErr 326 "d" Example.eacces <> fmtErr 333 "d" Example.eacces.
Proof.
  exact (error_line_names_its_call_site 326 333 "d" "d" Example.eacces Example.eacces
           ltac:(discriminate)).
Defined.

(** * More on the engine *)

Section EngineMore.
Context `{GoLib}.
Context (os_Stat os_Lstat : string -> result FileInfo).
Context (cfg : config).

Notation step := (step os_Stat os_Lstat cfg).
Notation run := (run os_Stat os_Lstat cfg).

(** ** The branches of the body that no worker takes *)

(** A worker never meets a task without metadata, and never a directory when
    the run is not recursive: the body does not panic at line 315 and does
    not take the branch of lines 316-318, which goes back to the head of the
    loop without [wg.Done()]. *)
Theorem worker_never_omits_nor_panics (srcs : list string) (dst : string)
    (tr : list label) (s : state) (i : nat) (l : list copyTask) (t : copyTask)
    (ev : list event) (o : outcome) :
  run (init cfg srcs dst) tr s ->
  workers s !! i = Some (mkWorker l (PExec t)) ->
  runs (runTask cfg t) ev o ->
  o = Finish \/ exists f, o = Walk f.
Proof.
  intros Hr Hlk Hb. pose proof (run_inv _ _ _ _ _ _ _ Hr) as Hinv.
  pose proof (Forall_lookup_1 _ _ _ _ (inv_wwf _ _ Hinv) Hlk) as [_ Hpc].
  simpl in Hpc. destruct Hpc as (fi & Hfi & Hrec).
  pose proof (runTask_outcome _ _ _ _ Hb) as Ho.
  destruct o as [| |f|]; eauto.
  - destruct Ho as (fi' & Hfi' & Hdir & Hnr). rewrite Hfi in Hfi'.
    injection Hfi' as <-. rewrite (Hrec Hdir) in Hnr. discriminate.
  - congruence.
Qed.

(** ** The descriptors of a run *)

Lemma occurrences_app f (l1 l2 : list event) :
  occurrences f (l1 ++ l2) = (occurrences f l1 + occurrences f l2)%nat.
Proof. unfold occurrences. rewrite filter_app, length_app. reflexivity. Qed.

Lemma occurrences_cons f e (l : list event) :
  occurrences f (e :: l) = ((if f e then 1 else 0) + occurrences f l)%nat.
Proof.
  unfold occurrences. destruct (f e) eqn:He.
  - rewrite filter_cons_True by assumption. reflexivity.
  - rewrite filter_cons_False by congruence. reflexivity.
Qed.

Lemma occurrences_nil f : occurrences f [] = 0%nat.
Proof. reflexivity. Qed.

Ltac tally :=
  rewrite ?occurrences_app, ?occurrences_cons, ?occurrences_nil; simpl; try lia.

(** The body opens what it closes, but for a source left open when the
    destination cannot be created, and for a directory on its way to the
    listing. *)
Lemma runTask_descriptors t tr o :
  runs (runTask cfg t) tr o ->
  occurrences isOpened tr =
  (occurrences isClosed tr + occurrences isCreateFailed tr +
   match o with Walk _ => 1 | _ => 0 end)%nat.
Proof.
  unfold runTask, copyDir, copyRegular, copySymlink. intros Hr.
  destruct (srcfi t) as [fi|]; runs_inv; tally.
Qed.

Lemma endWalk_descriptors d f err tr :
  runs (endWalk d f err) tr tt ->
  occurrences isOpened tr = 0%nat /\ occurrences isClosed tr = 1%nat /\
  occurrences isCreateFailed tr = 0%nat.
Proof.
  unfold endWalk. intros Hr. runs_inv; tally; auto.
Qed.

Lemma handleFree_occurrences evs :
  Forall handleFree evs ->
  occurrences isOpened evs = 0%nat /\ occurrences isClosed evs = 0%nat /\
  occurrences isCreateFailed evs = 0%nat.
Proof.
  induction 1 as [|e evs (H1 & H2 & H3) _ IH]; [auto|].
  rewrite !occurrences_cons, H1, H2, H3. exact IH.
Qed.

Ltac handle_free :=
  repeat match goal with
         | |- Forall _ [] => constructor
         | |- Forall _ (_ :: _) => constructor
         | |- handleFree _ => repeat split
         end.

Lemma seedInit_handleFree srcs dst : Forall handleFree (fst (seedInit os_Stat srcs dst)).
Proof.
  unfold seedInit.
  destruct srcs as [|src [|src' srcs]]; cbv zeta;
    destruct (os_Stat dst) as [dstfi|err];
    try destruct (IsDir dstfi); try destruct (os_IsNotExist err);
    cbn [fst negb]; handle_free.
Qed.

Lemma seedOne_handleFree m src :
  Forall handleFree (fst (seedOne os_Stat os_Lstat cfg m src)).
Proof.
  unfold seedOne. cbv zeta.
  destruct (noDereference cfg);
    match goal with
    | |- context [match ?r with Ok _ => _ | Err _ => _ end] => destruct r as [fi|err]
    end;
    try destruct (IsDir fi && negb (recursive cfg));
    cbn [fst]; handle_free.
Qed.

Lemma step_descriptors s l s' :
  step s l s' ->
  (occurrences isOpened (snd l) + sum_list_with walking (workers s) =
   occurrences isClosed (snd l) + occurrences isCreateFailed (snd l) +
   sum_list_with walking (workers s'))%nat.
Proof.
  intros Hs.
  destruct Hs as [i w tr sh' w' sh0 ws d Hlk Hstep | tr sh' d' sh0 ws d Hstep];
    simpl.
  - pose proof (sum_list_with_insert walking ws i w w' Hlk) as Hi.
    destruct Hstep;
      try match goal with
          | Hb : runs (runTask _ _) _ _ |- _ =>
              pose proof (runTask_descriptors _ _ _ Hb) as Hd
          | Hb : runs (endWalk _ _ _) _ _ |- _ =>
              destruct (endWalk_descriptors _ _ _ _ Hb) as (H1 & H2 & H3)
          end;
      try match goal with
          | Hd : context [match ?o with Walk _ => _ | _ => _ end] |- _ => destruct o
          end;
      unfold walking in *; simpl in Hi; tally.
  - destruct Hstep; tally;
      match goal with
      | |- context [fst (seedInit _ ?a ?b)] =>
          destruct (handleFree_occurrences _ (seedInit_handleFree a b)) as (H1 & H2 & H3)
      | |- context [fst (seedOne _ _ _ ?m ?x)] =>
          destruct (handleFree_occurrences _ (seedOne_handleFree m x)) as (H1 & H2 & H3)
      end; lia.
Qed.

Lemma walking_le_pending (ws : list worker) :
  (sum_list_with walking ws <= sum_list_with wpending ws)%nat.
Proof.
  induction ws as [|w ws IH]; simpl; [lia|].
  assert (walking w <= wpending w)%nat
    by (unfold walking, wpending; destruct (pc w); lia).
  lia.
Qed.

(** Descriptors, counted between the transitions of the engine, where every
    worker stands at an operation on a channel or on the WaitGroup or at a
    call of [Readdir]: the body of a task is one transition, so that no
    worker is then between the [os.Open] of line 371 and the [Close] calls
    of lines 383-384. At such a point every descriptor the run has opened is
    closed, or belongs to a worker that is listing a directory, or is the
    source of a regular file whose destination could not be created. When
    [CPCP] returns, the descriptors still open are those of the last kind,
    one for each such failure. *)
Theorem descriptors_balance (srcs : list string) (dst : string) (tr : list label)
    (s : state) :
  run (init cfg srcs dst) tr s ->
  count isOpened tr =
    (count isClosed tr + count isCreateFailed tr +
     sum_list_with walking (workers s))%nat /\
  (driver s = DReturn ->
   count isOpened tr = (count isClosed tr + count isCreateFailed tr)%nat).
Proof.
  intros Hr.
  assert (Hbal : count isOpened tr =
            (count isClosed tr + count isCreateFailed tr +
             sum_list_with walking (workers s))%nat).
  { remember (init cfg srcs dst) as s0 eqn:Hs0.
    induction Hr as [s|s tr s1 l s2 Hr IH Hs].
    - subst. simpl. unfold count. simpl.
      induction (capacity cfg) as [|n IHn]; simpl; auto.
    - specialize (IH Hs0). pose proof (step_descriptors _ _ _ Hs) as Hd.
      rewrite !count_snoc. lia. }
  split; [exact Hbal|].
  intros Hd. pose proof (run_inv _ _ _ _ _ _ _ Hr) as Hinv.
  pose proof (run_returned _ _ _ _ _ _ _ Hr Hd) as Hz.
  pose proof (inv_wg _ _ Hinv) as Hwg. unfold outstanding in Hwg.
  pose proof (walking_le_pending (workers s)). lia.
Qed.

(** ** Every entry listed becomes a task *)

Lemma listed_app l1 l2 : listed (l1 ++ l2) = (listed l1 + listed l2)%nat.
Proof. unfold listed. rewrite map_app, list_sum_app. reflexivity. Qed.

Lemma listed_external evs :
  Forall (fun e => external e = true) evs -> listed evs = 0%nat.
Proof.
  unfold listed. induction 1 as [|e evs He _ IH]; [reflexivity|].
  simpl. rewrite IH. destruct e; try discriminate; reflexivity.
Qed.

Lemma events_snoc tr (l : label) : events (tr ++ [l]) = (events tr ++ snd l)%list.
Proof. unfold events. rewrite flat_map_app. simpl. rewrite app_nil_r. reflexivity. Qed.

Lemma isAdd_external evs :
  Forall (fun e => external e = true) evs -> occurrences isAdd evs = 0%nat.
Proof.
  induction 1 as [|e evs He _ IH]; [reflexivity|].
  rewrite occurrences_cons, IH. destruct e; try discriminate; reflexivity.
Qed.

Lemma step_listed s l s' :
  step s l s' ->
  (occurrences isAdd (snd l) + sum_list_with entriesLeft (workers s') =
   occurrences isAdd (eventsOf Driver [l]) + listed (snd l) +
   sum_list_with entriesLeft (workers s))%nat.
Proof.
  intros Hs.
  destruct Hs as [i w tr sh' w' sh0 ws d Hlk Hstep | tr sh' d' sh0 ws d Hstep];
    simpl; rewrite ?app_nil_r.
  - pose proof (sum_list_with_insert entriesLeft ws i w w' Hlk) as Hi.
    destruct Hstep;
      try match goal with
          | Hb : runs _ _ _ |- _ =>
              pose proof (isAdd_external _ (runs_external _ _ _ Hb)) as Ha;
              pose proof (listed_external _ (runs_external _ _ _ Hb)) as Hl
          end;
      try match goal with
          | |- context [after _ ?o] => destruct o
          end;
      unfold entriesLeft in *; simpl in Hi; tally;
      unfold listed; simpl; try lia.
    all: fold (listed tr); lia.
  - destruct Hstep; tally; unfold listed; simpl; try lia;
      match goal with
      | |- context [fst (seedInit _ ?a ?b)] =>
          pose proof (listed_external _ (seedInit_quiet os_Stat a b)) as Hl
      | |- context [fst (seedOne _ _ _ ?m ?x)] =>
          pose proof (listed_external _ (seedOne_quiet os_Stat os_Lstat cfg m x)) as Hl
      end; unfold listed in Hl; lia.
Qed.

Lemma entriesLeft_le_pending (ws : list worker) :
  sum_list_with wpending ws = 0%nat -> sum_list_with entriesLeft ws = 0%nat.
Proof.
  induction ws as [|w ws IH]; simpl; [auto|]. intros Hz.
  assert (wpending w = 0%nat) as Hw by lia.
  rewrite IH by lia. unfold wpending, entriesLeft in *.
  destruct (pc w); simpl in *; lia.
Qed.

Lemma occurrences_isAdd_app (l1 l2 : list event) :
  occurrences isAdd (l1 ++ l2) = (occurrences isAdd l1 + occurrences isAdd l2)%nat.
Proof. apply occurrences_app. Qed.

Lemma queued_external evs :
  Forall (fun e => external e = true) evs -> queued evs = [].
Proof.
  unfold queued. induction 1 as [|e evs He _ IH]; [reflexivity|].
  destruct e; try discriminate; exact IH.
Qed.

Lemma seedAll_adds m srcs :
  occurrences isAdd (seedAll os_Stat os_Lstat cfg m srcs) =
  length (queued (seedAll os_Stat os_Lstat cfg m srcs)).
Proof.
  unfold seedAll. induction srcs as [|src srcs IH]; [reflexivity|].
  simpl. unfold queued in *. rewrite occurrences_app, omap_app, length_app, IH.
  f_equal. unfold seedEvents.
  rewrite occurrences_app, omap_app, length_app.
  rewrite (isAdd_external _ (seedOne_quiet os_Stat os_Lstat cfg m src)).
  pose proof (queued_external _ (seedOne_quiet os_Stat os_Lstat cfg m src)) as Hq.
  unfold queued in Hq. rewrite Hq.
  destruct (snd (seedOne os_Stat os_Lstat cfg m src)); reflexivity.
Qed.

Lemma seedingEvents_adds srcs dst :
  occurrences isAdd (seedingEvents os_Stat os_Lstat cfg srcs dst) =
  length (queued (seedingEvents os_Stat os_Lstat cfg srcs dst)).
Proof.
  unfold seedingEvents, queued. rewrite occurrences_app, omap_app, length_app.
  rewrite (isAdd_external _ (seedInit_quiet os_Stat srcs dst)).
  pose proof (queued_external _ (seedInit_quiet os_Stat srcs dst)) as Hq.
  unfold queued in Hq. rewrite Hq.
  destruct (snd (seedInit os_Stat srcs dst)); try reflexivity.
  simpl. apply seedAll_adds.
Qed.

(** Each entry a listing returns is counted into the WaitGroup once, when
    the loop of line 344 reaches it. When [CPCP] returns, the tasks that
    were run, and finished, are as many as the tasks the driver queued and
    the entries the listings returned together. *)
Theorem every_listed_entry_is_run (srcs : list string) (dst : string)
    (tr : list label) (s : state) :
  run (init cfg srcs dst) tr s ->
  (count isAdd tr + sum_list_with entriesLeft (workers s) =
   occurrences isAdd (eventsOf Driver tr) + listed (events tr))%nat /\
  (driver s = DReturn ->
   count isBegin tr = (length (queued (eventsOf Driver tr)) + listed (events tr))%nat /\
   count isDone tr = count isBegin tr).
Proof.
  intros Hr.
  assert (Hbal : (count isAdd tr + sum_list_with entriesLeft (workers s) =
                  occurrences isAdd (eventsOf Driver tr) + listed (events tr))%nat).
  { remember (init cfg srcs dst) as s0 eqn:Hs0.
    induction Hr as [s|s tr s1 l s2 Hr IH Hs].
    - subst. simpl. unfold count. simpl.
      induction (capacity cfg) as [|n IHn]; simpl; auto.
    - specialize (IH Hs0). pose proof (step_listed _ _ _ Hs) as Hd.
      rewrite count_snoc, eventsOf_snoc, occurrences_app, events_snoc, listed_app.
      lia. }
  split; [exact Hbal|].
  intros Hd. pose proof (run_inv _ _ _ _ _ _ _ Hr) as Hinv.
  pose proof (run_returned _ _ _ _ _ _ _ Hr Hd) as Hz.
  pose proof (inv_wg _ _ Hinv) as Hwg. unfold outstanding in Hwg.
  destruct (run_counts _ _ _ _ _ _ _ Hr) as [Hc1 Hc2].
  pose proof (executing_le_pending (workers s)) as Hle.
  rewrite (entriesLeft_le_pending (workers s)) in Hbal by lia.
  destruct (driver_seeded _ _ _ _ _ _ _ Hr) as [_ Hev]. specialize (Hev Hd).
  rewrite Hev in *. unfold queued in *.
  rewrite occurrences_app in Hbal. rewrite omap_app, length_app. simpl.
  pose proof (seedingEvents_adds srcs dst) as Hs. unfold queued in Hs.
  unfold occurrences at 2 in Hbal. simpl in Hbal.
  split; lia.
Qed.

(** ** One source *)

(** With one source the driver stats the destination and, when that is a
    directory, copies to the source's base name below it; when the stat of
    the destination fails, whatever the error, or it is no directory, the
    destination is used as it is and nothing is reported. The source is then
    stat'ed, or lstat'ed under no-dereference, and becomes the one task,
    unless that fails or it is a directory and the run is not recursive,
    which is the one line reported. *)
Theorem single_source_policy (src dst : string) (tr : list label) (s : state) :
  run (init cfg [src] dst) tr s ->
  driver s = DWait ->
  let evs := eventsOf Driver tr in
  let dst' :=
    match os_Stat dst with
    | Ok dstfi => if IsDir dstfi then path_Join dst (path_Base src) else dst
    | Err _ => dst
    end in
  stats evs = [dst; src] /\
  match (if noDereference cfg then os_Lstat src else os_Stat src) with
  | Err err => queued evs = [] /\ errLines evs = [fmtErr 90 src err]
  | Ok srcfi =>
      if IsDir srcfi && negb (recursive cfg)
      then queued evs = [] /\ errLines evs = [omitting src]
      else queued evs = [mkTask src dst' (Some srcfi)] /\ errLines evs = []
  end.
Proof.
  intros Hr Hd evs dst'. subst evs dst'.
  destruct (driver_seeded _ _ _ _ _ _ _ Hr) as [Hw _]. rewrite (Hw Hd).
  unfold seedingEvents, seedInit. cbv zeta.
  destruct (os_Stat dst) as [dstfi|err0]; cbn [fst snd seedingFrom];
    unfold seedAll, seedEvents, seedOne; cbv zeta; cbn [flat_map];
    destruct (noDereference cfg);
    match goal with
    | |- context [match ?r with Ok _ => _ | Err _ => _ end] => destruct r as [srcfi|err]
    end;
    try destruct (IsDir srcfi && negb (recursive cfg));
    repeat split; reflexivity.
Qed.

End EngineMore.

(** * The engine at [cp a b] *)

Lemma example_released :
  run (H := Example.lib) Example.stat Example.stat Example.cfg1
    (init Example.cfg1 ["a"] "b")
    (Example.receiving ++ [(Worker 0, [EFree])]) Example.released.
Proof.
  eapply run_snoc; [exact example_receiving|].
  refine (step_worker _ _ _ 0%nat (mkWorker [] (PRelease 0 Example.task_a)) [EFree]
            _ (mkWorker [] (PExec Example.task_a))
            _ [mkWorker [] (PRelease 0 Example.task_a)] _ eq_refl _).
  apply W_release. vm_compute. lia.
Qed.

Lemma example_copy_a :
  runs (runTask (H := Example.lib) Example.cfg1 Example.task_a) Example.copy_a Finish.
Proof.
  apply (runTask_regular_ok (H := Example.lib) Example.cfg1 Example.task_a
           Example.file_a 3%nat 4%nat); reflexivity.
Qed.

Lemma example_copied :
  run (H := Example.lib) Example.stat Example.stat Example.cfg1
    (init Example.cfg1 ["a"] "b") RunExample.copying RunExample.copied.
Proof.
  unfold RunExample.copying.
  change (Example.receiving ++ [(Worker 0, [EFree]); (Worker 0, EBegin Example.task_a :: Example.copy_a)])%list
    with ((Example.receiving ++ [(Worker 0, [EFree])]) ++
          [(Worker 0, EBegin Example.task_a :: Example.copy_a)])%list.
  eapply run_snoc; [exact example_released|].
  refine (step_worker _ _ _ 0%nat (mkWorker [] (PExec Example.task_a))
            (EBegin Example.task_a :: Example.copy_a)
            _ (mkWorker [] PDone)
            _ [mkWorker [] (PExec Example.task_a)] _ eq_refl _).
  exact (W_exec Example.cfg1 [] Example.task_a Example.copy_a Finish _ example_copy_a).
Qed.

Lemma example_waiting :
  run (H := Example.lib) Example.stat Example.stat Example.cfg1
    (init Example.cfg1 ["a"] "b") RunExample.awaiting RunExample.waiting.
Proof.
  eapply run_snoc; [exact example_receiving|].
  apply step_driver. apply D_seeded.
Qed.

Lemma worker_never_omits_nor_panics_witness :
  workers Example.released !! 0%nat = Some (mkWorker [] (PExec Example.task_a)) /\
  (Finish = Finish \/ exists f, Finish = Walk f).
Proof.
  split; [reflexivity|].
  exact (worker_never_omits_nor_panics (H := Example.lib) Example.stat Example.stat
           Example.cfg1 ["a"] "b" _ Example.released 0%nat [] Example.task_a
           Example.copy_a Finish example_released eq_refl example_copy_a).
Defined.

Lemma descriptors_balance_witness :
  (count isOpened WalkExample.listingRun = 1%nat /\
   sum_list_with walking (workers WalkExample.listing) = 1%nat /\
   count isOpened WalkExample.listingRun =
   (count isClosed WalkExample.listingRun + count isCreateFailed WalkExample.listingRun +
    sum_list_with walking (workers WalkExample.listing))%nat) /\
  (count isOpened WalkExample.returning = 3%nat /\
   count isOpened WalkExample.returning =
   (count isClosed WalkExample.returning +
    count isCreateFailed WalkExample.returning)%nat).
Proof.
  split.
  - split; [reflexivity|]. split; [reflexivity|].
    exact (proj1 (descriptors_balance (H := Example.lib) Example.stat Example.stat
                    WalkExample.verbose1 ["d"] "e" WalkExample.listingRun
                    WalkExample.listing walk_listing)).
  - split; [reflexivity|].
    exact (proj2 (descriptors_balance (H := Example.lib) Example.stat Example.stat
                    WalkExample.verbose1 ["d"] "e" WalkExample.returning
                    WalkExample.returned walk_returned) eq_refl).
Defined.

Lemma every_listed_entry_is_run_witness :
  (sum_list_with entriesLeft (workers WalkExample.listing) = 2%nat /\
   (count isAdd WalkExample.listingRun +
    sum_list_with entriesLeft (workers WalkExample.listing) =
    occurrences isAdd (eventsOf Driver WalkExample.listingRun) +
    listed (events WalkExample.listingRun))%nat) /\
  (listed (events WalkExample.returning) = 2%nat /\
   count isBegin WalkExample.returning =
   (length (queued (eventsOf Driver WalkExample.returning)) +
    listed (events WalkExample.returning))%nat /\
   count isDone WalkExample.returning = count isBegin WalkExample.returning).
Proof.
  split.
  - split; [reflexivity|].
    exact (proj1 (every_listed_entry_is_run (H := Example.lib) Example.stat Example.stat
                    WalkExample.verbose1 ["d"] "e" WalkExample.listingRun
                    WalkExample.listing walk_listing)).
  - split; [reflexivity|].
    exact (proj2 (every_listed_entry_is_run (H := Example.lib) Example.stat Example.stat
                    WalkExample.verbose1 ["d"] "e" WalkExample.returning
                    WalkExample.returned walk_returned) eq_refl).
Defined.

Lemma single_source_policy_witness :
  stats (eventsOf Driver RunExample.awaiting) = ["b"; "a"] /\
  queued (eventsOf Driver RunExample.awaiting) = [Example.task_a] /\
  errLines (eventsOf Driver RunExample.awaiting) = [].
Proof.
  exact (single_source_policy (H := Example.lib) Example.stat Example.stat
           Example.cfg1 "a" "b" RunExample.awaiting RunExample.waiting
           example_waiting eq_refl).
Defined.

(** * What [-v] prints *)

Section Announcements.
Context `{GoLib}.
Context (os_Stat os_Lstat : string -> result FileInfo).
Context (cfg : config).

Lemma runTask_announces t tr o :
  runs (runTask cfg t) tr o ->
  msgLines tr = if 0 <? verbosity cfg then [announcement t] else [].
Proof.
  unfold runTask, copyDir, copyRegular, copySymlink, announcement. intros Hr.
  destruct (srcfi t) as [fi|]; runs_inv; reflexivity.
Qed.

Lemma msgLines_external_quiet evs :
  Forall (fun e => external e = true) evs -> begun evs = [].
Proof.
  unfold begun. induction 1 as [|e evs He _ IH]; [reflexivity|].
  destruct e; try discriminate; exact IH.
Qed.

Lemma endWalk_silent d f err tr : runs (endWalk d f err) tr tt -> msgLines tr = [].
Proof. unfold endWalk. intros Hr. runs_inv; reflexivity. Qed.

Lemma seedInit_silent srcs dst : msgLines (fst (seedInit os_Stat srcs dst)) = [].
Proof.
  unfold seedInit.
  destruct srcs as [|src [|src' srcs]]; cbv zeta;
    destruct (os_Stat dst) as [dstfi|err];
    try destruct (IsDir dstfi); try destruct (os_IsNotExist err); reflexivity.
Qed.

Lemma seedOne_silent m src : msgLines (fst (seedOne os_Stat os_Lstat cfg m src)) = [].
Proof.
  unfold seedOne. cbv zeta.
  destruct (noDereference cfg);
    match goal with
    | |- context [match ?r with Ok _ => _ | Err _ => _ end] => destruct r as [fi|err]
    end;
    try destruct (IsDir fi && negb (recursive cfg)); reflexivity.
Qed.

Lemma step_announces s l s' :
  step os_Stat os_Lstat cfg s l s' ->
  msgLines (snd l) =
  if 0 <? verbosity cfg then map announcement (begun (snd l)) else [].
Proof.
  intros Hs.
  assert (Hnil : (if 0 <? verbosity cfg then @nil string else []) = []).
  { destruct (0 <? verbosity cfg); reflexivity. }
  destruct Hs as [i w tr sh' w' sh0 ws d Hlk Hstep | tr sh' d' sh0 ws d Hstep];
    simpl.
  - destruct Hstep; simpl; try (symmetry; exact Hnil).
    + match goal with
      | Hb : runs (runTask _ _) _ _ |- _ =>
          rewrite (runTask_announces _ _ _ Hb);
          unfold begun; simpl;
          pose proof (msgLines_external_quiet _ (runs_external _ _ _ Hb)) as Hq
      end.
      unfold begun in Hq. rewrite Hq.
      destruct (0 <? verbosity cfg); reflexivity.
    + match goal with
      | Hb : runs (endWalk _ _ _) _ _ |- _ =>
          rewrite (endWalk_silent _ _ _ _ Hb);
          pose proof (msgLines_external_quiet _ (runs_external _ _ _ Hb)) as Hq
      end.
      rewrite Hq. symmetry. exact Hnil.
  - destruct Hstep; simpl; try (symmetry; exact Hnil);
      match goal with
      | |- context [fst (seedInit _ ?a ?b)] =>
          rewrite seedInit_silent, (msgLines_external_quiet _ (seedInit_quiet os_Stat a b))
      | |- context [fst (seedOne _ _ _ ?m ?x)] =>
          rewrite seedOne_silent,
            (msgLines_external_quiet _ (seedOne_quiet os_Stat os_Lstat cfg m x))
      end; symmetry; exact Hnil.
Qed.

(** With a verbosity above zero the message printer gets one line for each
    task a worker starts on, [src -> dst] with the paths of the task, in the
    order in which the tasks are started, and nothing else; with a verbosity
    of zero it gets nothing. *)
Theorem one_message_per_task (s0 : state) (tr : list label) (s : state) :
  run os_Stat os_Lstat cfg s0 tr s ->
  msgLines (events tr) =
  if 0 <? verbosity cfg then map announcement (begun (events tr)) else [].
Proof.
  induction 1 as [s|s tr s1 l s2 Hr IH Hs].
  - destruct (0 <? verbosity cfg); reflexivity.
  - pose proof (step_announces _ _ _ Hs) as Hl.
    unfold events in *. rewrite flat_map_app. simpl. rewrite app_nil_r.
    unfold msgLines, begun in *. rewrite !omap_app.
    destruct (0 <? verbosity cfg).
    + rewrite map_app. f_equal; assumption.
    + change (@nil string) with ([] ++ @nil string)%list. f_equal; assumption.
Qed.

End Announcements.

Lemma one_message_per_task_witness :
  begun (events WalkExample.returning) =
    [WalkExample.task_d; WalkExample.task_dl; WalkExample.task_da] /\
  msgLines (events WalkExample.returning) = ["d -> e"; "d/l -> e/l"; "d/a -> e/a"].
Proof.
  split; [reflexivity|].
  exact (one_message_per_task (H := Example.lib) Example.stat Example.stat
           WalkExample.verbose1 _ WalkExample.returning WalkExample.returned
           walk_returned).
Defined.

(** * Directories that exist, and directories that cannot be made *)

Section MkdirFacts.
Context `{GoLib} (cfg : config).

(** For a directory in a recursive run the body calls [os.Mkdir] and then,
    whatever that returned, opens the source for listing: a failed [Mkdir]
    is reported, unless the error says the directory exists, but the
    directory is listed all the same and its entries are copied. Copying
    onto a directory that exists reports nothing by itself. *)
Theorem failed_mkdir_does_not_stop_the_walk (t : copyTask) (fi : FileInfo)
    (tr : list event) (o : outcome) :
  srcfi t = Some fi -> IsDir fi = true -> recursive cfg = true ->
  runs (runTask cfg t) tr o ->
  exists rm ro,
    In (EMkdir (dst t) (destMode cfg fi) rm) tr /\
    In (EOpen (src t) ro) tr /\
    match ro with
    | Ok f => o = Walk f
    | Err err => o = Finish /\ In (EErrs (fmtErr 338 (src t) err)) tr
    end /\
    match rm with
    | Some err =>
        if os_IsExist err
        then preserveMode cfg = false ->
             errLines tr = match ro with
                           | Ok _ => []
                           | Err e => [fmtErr 338 (src t) e]
                           end
        else In (EErrs (fmtErr 326 (dst t) err)) tr
    | None => True
    end.
Proof.
  intros Hfi Hdir Hrec Hr. unfold runTask, copyDir in Hr.
  rewrite Hfi, Hdir, Hrec in Hr. cbn [negb] in Hr.
  runs_inv; cbn [log app];
    match goal with
    | |- context [EMkdir _ _ ?rm :: _] =>
        match goal with
        | |- context [EOpen _ ?ro :: _] => exists rm, ro
        end
    end;
    (split; [simpl; auto 12|]); (split; [simpl; auto 12|]);
    (split; [first [reflexivity | split; [reflexivity|simpl; auto 12]]|]);
    try exact I;
    match goal with
    | E : negb (os_IsExist _) = true |- _ => apply negb_true_iff in E; rewrite E
    | E : negb (os_IsExist _) = false |- _ => apply negb_false_iff in E; rewrite E
    end;
    first [ intros Hpm; first [discriminate | reflexivity]
          | simpl; auto 12 ].
Qed.

End MkdirFacts.

Lemma runTask_mkdir_refused `{GoLib} cfg t fi err f :
  srcfi t = Some fi -> IsDir fi = true -> recursive cfg = true ->
  (0 <? verbosity cfg) = false -> preserveMode cfg = false ->
  os_IsExist err = false ->
  runs (runTask cfg t)
    [EMkdir (dst t) (destMode cfg fi) (Some err); EErrs (fmtErr 326 (dst t) err);
     EOpen (src t) (Ok f)]
    (Walk f).
Proof.
  intros Hfi Hdir Hrec Hv Hpm He. unfold runTask, copyDir.
  rewrite Hfi, Hdir, Hrec, Hv, Hpm. simpl.
  exists (Some err). eexists. split; [reflexivity|]. rewrite He. simpl.
  eexists. split; [reflexivity|].
  exists (Ok f). eexists. split; [reflexivity|]. simpl. auto.
Qed.

Lemma failed_mkdir_does_not_stop_the_walk_witness :
  exists ro,
    In (EOpen "d" ro)
      [EMkdir "e" (destMode Example.cfg1 Example.dir_d) (Some Example.eacces);
       EErrs (fmtErr 326 "e" Example.eacces); EOpen "d" (Ok 5%nat)].
Proof.
  destruct (failed_mkdir_does_not_stop_the_walk (H := Example.lib) Example.cfg1
              (mkTask "d" "e" (Some Example.dir_d)) Example.dir_d _ (Walk 5%nat)
              eq_refl eq_refl eq_refl
              (runTask_mkdir_refused (H := Example.lib) Example.cfg1
                 (mkTask "d" "e" (Some Example.dir_d)) Example.dir_d Example.eacces 5%nat
                 eq_refl eq_refl eq_refl eq_refl eq_refl eq_refl))
    as (rm & ro & _ & Hopen & _).
  exists ro. exact Hopen.
Defined.

(** * Only the source trees are copied, each file to its mirrored path *)

Section WithinFacts.
Context `{GoLib}.
Context (os_Stat os_Lstat : string -> result FileInfo).
Context (cfg : config).

Notation step := (step os_Stat os_Lstat cfg).
Notation run := (run os_Stat os_Lstat cfg).

Lemma below_snoc base names n :
  below base (names ++ [n]) = path_Join (below base names) n.
Proof. unfold below. rewrite fold_left_app. reflexivity. Qed.

(** A task within another has the paths of that one, with the same names
    joined below both. *)
Lemma within_paths t0 t :
  within t0 t ->
  exists names, src t = below (src t0) names /\ dst t = below (dst t0) names.
Proof.
  induction 1 as [|d fi Hw (names & Hs & Hd) Hin].
  - exists []. split; reflexivity.
  - exists (names ++ [Name fi])%list. rewrite !below_snoc. simpl.
    rewrite Hs, Hd. split; reflexivity.
Qed.

Section Seeds.
Context (seeds : list copyTask).

Notation planted := (planted seeds).

Lemma planted_child d fi : planted d -> In fi (entriesOf d) -> planted (child d fi).
Proof.
  intros (t0 & Hin & Hw) Hfi. exists t0. split; [exact Hin|].
  apply within_child; assumption.
Qed.

Lemma readdir_incl n rest fis err rest' (l : list FileInfo) :
  readdir_answer n rest fis err rest' -> incl rest l -> incl fis l /\ incl rest' l.
Proof.
  intros [-> _] Hi. split; intros x Hx; apply Hi, in_or_app; auto.
Qed.

Lemma step_planted s l s' :
  inv cfg s -> dPlanted seeds (driver s) -> allPlanted seeds s -> step s l s' ->
  allPlanted seeds s'.
Proof.
  intros [Hobj Hlen Hwg Hq Hw Hd Hwf Hdf] Hdp [Hpq Hpw] Hs. unfold allPlanted.
  destruct Hs as [i w tr sh' w' sh0 ws d Hlk Hstep | tr sh' d' sh0 ws d Hstep];
    simpl in *.
  - pose proof (Forall_lookup_1 _ _ _ _ Hpw Hlk) as [Hlocal Hpc].
    pose proof (Forall_lookup_1 _ _ _ _ Hwf Hlk) as Hfill.
    unfold wfilled in Hfill. simpl in Hlocal, Hpc, Hfill.
    destruct Hstep; simpl in *;
      try (apply Forall_app in Hlocal as [Hl1 Hl2]; inversion Hl2; subst).
    + (* a buffered task is written into a pool object *)
      destruct (take_fresh _ _ _ _ Hobj eq_refl) as (Hnq & _ & _).
      split; [apply Forall_upd_fresh; assumption|].
      apply Forall_insert; [assumption|]. split; assumption.
    + split.
      * apply Forall_app. split; [assumption|]. constructor; [|constructor].
        cbv beta. rewrite Hfill. exact Hpc.
      * apply Forall_insert; [assumption|]. split; [assumption|exact I].
    + split; [assumption|]. apply Forall_insert; [assumption|]. split; assumption.
    + inversion Hpq; subst. split; [assumption|].
      apply Forall_insert; [assumption|]. split; [constructor|assumption].
    + split; [assumption|]. apply Forall_insert; [assumption|]. split; assumption.
    + (* the body has run *)
      split; [assumption|]. apply Forall_insert; [assumption|].
      split; [assumption|]. destruct o; simpl; try exact I.
      split; [assumption|]. apply incl_refl.
    + (* a batch is read *)
      destruct Hpc as [Hpd Hrest].
      match goal with
      | Ha : readdir_answer _ _ _ _ _ |- _ =>
          destruct (readdir_incl _ _ _ _ _ _ Ha Hrest) as [Hi1 Hi2]
      end.
      split; [assumption|]. apply Forall_insert; [assumption|].
      split; [assumption|]. simpl. auto.
    + destruct Hpc as (Hpd & Hfis & Hrest).
      split; [assumption|]. apply Forall_insert; [assumption|].
      split; [assumption|]. simpl.
      split; [assumption|]. split; [apply Hfis; left; reflexivity|].
      split; [|assumption]. intros x Hx. apply Hfis. right. exact Hx.
    + destruct (take_fresh _ _ _ _ Hobj eq_refl) as (Hnq & _ & _).
      split; [apply Forall_upd_fresh; assumption|].
      apply Forall_insert; [assumption|]. split; assumption.
    + destruct Hpc as (Hpd & Hfi & Hfis & Hrest). split.
      * apply Forall_app. split; [assumption|]. constructor; [|constructor].
        cbv beta. rewrite Hfill. apply planted_child; assumption.
      * apply Forall_insert; [assumption|]. split; [assumption|]. simpl. auto.
    + destruct Hpc as (Hpd & Hfi & Hfis & Hrest).
      split; [assumption|]. apply Forall_insert; [assumption|]. split.
      * apply Forall_app. split; [assumption|]. constructor; [|constructor].
        apply planted_child; assumption.
      * simpl. auto.
    + destruct Hpc as (Hpd & Hfis & Hrest).
      split; [assumption|]. apply Forall_insert; [assumption|].
      split; [assumption|]. simpl. auto.
    + split; [assumption|]. apply Forall_insert; [assumption|].
      split; [assumption|exact I].
    + split; [assumption|]. apply Forall_insert; [assumption|].
      split; [assumption|exact I].
  - destruct Hstep; simpl in *; try (split; assumption).
    + destruct (take_fresh _ _ _ _ Hobj eq_refl) as (Hnq & _ & _).
      split; [apply Forall_upd_fresh; assumption|assumption].
    + split; [|assumption].
      apply Forall_app. split; [assumption|]. constructor; [|constructor].
      cbv beta. rewrite Hdf. exists t. split; [exact Hdp|apply within_seed].
Qed.


Lemma init_planted srcs dst : allPlanted seeds (init cfg srcs dst).
Proof.
  split; simpl; [constructor|].
  apply Forall_replicate. split; [constructor|exact I].
Qed.

Lemma step_begins s l s' :
  allPlanted seeds s -> step s l s' -> Forall planted (begun (snd l)).
Proof.
  intros [Hpq Hpw] Hs.
  destruct Hs as [i w tr sh' w' sh0 ws d Hlk Hstep | tr sh' d' sh0 ws d Hstep];
    simpl in *.
  - pose proof (Forall_lookup_1 _ _ _ _ Hpw Hlk) as [Hlocal Hpc].
    destruct Hstep; simpl; try constructor.
    + exact Hpc.
    + match goal with
      | Hb : runs _ _ _ |- _ =>
          rewrite (msgLines_external_quiet _ (runs_external _ _ _ Hb))
      end. constructor.
    + match goal with
      | Hb : runs _ _ _ |- _ =>
          rewrite (msgLines_external_quiet _ (runs_external _ _ _ Hb))
      end. constructor.
  - destruct Hstep; simpl; try constructor;
      match goal with
      | |- context [fst (seedInit _ ?a ?b)] =>
          rewrite (msgLines_external_quiet _ (seedInit_quiet os_Stat a b))
      | |- context [fst (seedOne _ _ _ ?m ?x)] =>
          rewrite (msgLines_external_quiet _ (seedOne_quiet os_Stat os_Lstat cfg m x))
      end; constructor.
Qed.

End Seeds.

Lemma queued_In t evs : In (EQueue t) evs -> In t (queued evs).
Proof.
  unfold queued. induction evs as [|e evs IH]; simpl; [tauto|].
  intros [->|Hin]; simpl; [left; reflexivity|].
  destruct (queuedTask e); simpl; auto.
Qed.

(** The tasks in the hands of the driver are among those it plans to
    queue. *)
Lemma driver_planted srcs dst tr s :
  run (init cfg srcs dst) tr s ->
  dPlanted (queued (seedingEvents os_Stat os_Lstat cfg srcs dst)) (driver s).
Proof.
  intros Hr. pose proof (run_driverRest _ _ _ _ _ _ _ Hr) as Hp.
  assert (Hall : forall t, In (EQueue t) (driverRest os_Stat os_Lstat cfg (driver s)) ->
                   In t (queued (seedingEvents os_Stat os_Lstat cfg srcs dst))).
  { intros t Hin. apply queued_In.
    assert (Hin' : In (EQueue t)
              (eventsOf Driver tr ++ driverRest os_Stat os_Lstat cfg (driver s)))
      by (apply in_or_app; right; exact Hin).
    rewrite Hp in Hin'. simpl in Hin'. apply in_app_or in Hin' as [Hin'|Hin'];
      [exact Hin'|]. simpl in Hin'. destruct Hin' as [Hin'|[]]. discriminate. }
  destruct (driver s); simpl; try exact I; apply Hall; simpl; auto.
Qed.

Lemma run_planted srcs dst tr s :
  run (init cfg srcs dst) tr s ->
  allPlanted (queued (seedingEvents os_Stat os_Lstat cfg srcs dst)) s /\
  Forall (planted (queued (seedingEvents os_Stat os_Lstat cfg srcs dst)))
    (begun (events tr)).
Proof.
  intros Hr. remember (init cfg srcs dst) as s0 eqn:Hs0.
  induction Hr as [s|s tr s1 l s2 Hr IH Hs].
  - subst. split; [apply init_planted|constructor].
  - specialize (IH Hs0). subst s. destruct IH as [IH1 IH2].
    pose proof (run_inv _ _ _ _ _ _ _ Hr) as Hinv.
    pose proof (driver_planted _ _ _ _ Hr) as Hdp.
    split; [eapply step_planted; eassumption|].
    rewrite events_snoc. unfold begun in *. rewrite omap_app.
    apply Forall_app. split; [exact IH2|].
    eapply step_begins; eassumption.
Qed.

Lemma begun_In t evs : In (EBegin t) evs -> In t (begun evs).
Proof.
  unfold begun. induction evs as [|e evs IH]; simpl; [tauto|].
  intros [->|Hin]; simpl; [left; reflexivity|].
  destruct (begunTask e); simpl; auto.
Qed.

(** Every task a worker starts on is one the driver queued, or is made of
    an entry of the directory of such a task, and so on down: nothing
    outside the source trees is copied. Its source path is the path of the
    queued task with the names of the entries joined below it, and its
    destination is the destination of the queued task with the same names
    joined below. *)
Theorem only_the_source_trees_are_copied (srcs : list string) (dest : string)
    (tr : list label) (s : state) (t : copyTask) :
  run (init cfg srcs dest) tr s ->
  In (EBegin t) (events tr) ->
  exists t0 names,
    In t0 (queued (seedingEvents os_Stat os_Lstat cfg srcs dest)) /\
    within t0 t /\
    src t = below (src t0) names /\ dst t = below (dst t0) names.
Proof.
  intros Hr Hin. destruct (run_planted _ _ _ _ Hr) as [_ Hb].
  rewrite Forall_forall in Hb. apply begun_In in Hin.
  apply list_elem_of_In in Hin. destruct (Hb _ Hin) as (t0 & Hseed & Hw).
  destruct (within_paths _ _ Hw) as (names & Hs & Hd).
  exists t0, names. auto.
Qed.

End WithinFacts.

Lemma only_the_source_trees_are_copied_witness :
  queued (seedingEvents (H := Example.lib) Example.stat Example.stat
            WalkExample.verbose1 ["d"] "e") = [WalkExample.task_d] /\
  In (EBegin WalkExample.task_dl) (events WalkExample.returning) /\
  exists t0 names,
    In t0 (queued (seedingEvents (H := Example.lib) Example.stat Example.stat
                     WalkExample.verbose1 ["d"] "e")) /\
    within (H := Example.lib) t0 WalkExample.task_dl /\
    src WalkExample.task_dl = below (H := Example.lib) (src t0) names /\
    dst WalkExample.task_dl = below (H := Example.lib) (dst t0) names.
Proof.
  split; [reflexivity|].
  assert (Hin : In (EBegin WalkExample.task_dl) (events WalkExample.returning))
    by (simpl; auto 30).
  split; [exact Hin|].
  exact (only_the_source_trees_are_copied (H := Example.lib) Example.stat Example.stat
           WalkExample.verbose1 ["d"] "e" WalkExample.returning WalkExample.returned
           WalkExample.task_dl walk_returned Hin).
Defined.

(** * The state in which [CPCP] returns *)

Section Quiescence.
Context `{GoLib}.
Context (os_Stat os_Lstat : string -> result FileInfo).
Context (cfg : config).

Notation step := (step os_Stat os_Lstat cfg).
Notation run := (run os_Stat os_Lstat cfg).

Lemma pending_none (ws : list worker) :
  sum_list_with wpending ws = 0%nat -> Forall (fun w => w = mkWorker [] PTop) ws.
Proof.
  induction ws as [|w ws IH]; simpl; intros Hz; constructor.
  - assert (Hw : wpending w = 0%nat) by lia. unfold wpending in Hw.
    destruct w as [l p]. simpl in Hw. destruct l; [|simpl in Hw; lia].
    destruct p; simpl in Hw; try lia. reflexivity.
  - apply IH. lia.
Qed.

Lemma held_none (ws : list worker) :
  Forall (fun w => w = mkWorker [] PTop) ws ->
  flat_map (fun w => wheld (pc w)) ws = [].
Proof. induction 1 as [|w ws -> _ IH]; simpl; auto. Qed.

(** When [wg.Wait()] has returned, the Work Queue is empty, every Task
    Object is back in the pool, and every worker stands at the head of its
    loop with nothing buffered, waiting at line 306 for a task that never
    comes: no thread can move any more, and no worker has left its loop. *)
Theorem quiescent_at_return (srcs : list string) (dest : string) (tr : list label)
    (s : state) :
  run (init cfg srcs dest) tr s ->
  driver s = DReturn ->
  copyTasks (sh s) = [] /\
  Forall (fun w => w = mkWorker [] PTop) (workers s) /\
  length (workers s) = capacity cfg /\
  freeCopyTasks (sh s) ≡ₚ seq 0 (capacity cfg) /\
  forall l s', ~ step s l s'.
Proof.
  intros Hr Hd. pose proof (run_inv _ _ _ _ _ _ _ Hr) as Hinv.
  pose proof (run_returned _ _ _ _ _ _ _ Hr Hd) as Hz.
  pose proof (inv_wg _ _ Hinv) as Hwg. unfold outstanding in Hwg.
  assert (Hq : copyTasks (sh s) = []).
  { destruct (copyTasks (sh s)); [reflexivity|simpl in Hwg; lia]. }
  assert (Hw : Forall (fun w => w = mkWorker [] PTop) (workers s)).
  { apply pending_none. lia. }
  split; [exact Hq|]. split; [exact Hw|]. split; [apply Hinv|]. split.
  - pose proof (inv_objects _ _ Hinv) as Ho. unfold objects in Ho.
    rewrite Hq, Hd, (held_none _ Hw) in Ho. simpl in Ho.
    rewrite app_nil_r in Ho. exact Ho.
  - intros l s' Hs.
    destruct Hs as [i w ev sh' w' sh0 ws d Hlk Hstep | ev sh' d' sh0 ws d Hstep];
      simpl in *.
    + rewrite Forall_forall in Hw.
      assert (Hi : w ∈ ws) by (eapply list_elem_of_lookup_2; exact Hlk).
      apply Hw in Hi. subst w.
      inversion Hstep; subst; simpl in *;
        try match goal with
            | Heq : (_ ++ [_])%list = [] |- _ =>
                symmetry in Heq; destruct (app_cons_not_nil _ _ _ Heq)
            end; discriminate.
    + subst d. inversion Hstep.
Qed.

End Quiescence.

Lemma example_returned :
  run (H := Example.lib) Example.stat Example.stat Example.cfg1
    (init Example.cfg1 ["a"] "b") RunExample.returning RunExample.returned.
Proof.
  unfold RunExample.returning.
  change (RunExample.copying ++ [(Worker 0, [EDone]); (Driver, []); (Driver, [EWait])])%list
    with (((RunExample.copying ++ [(Worker 0, [EDone])]) ++ [(Driver, [])]) ++
          [(Driver, [EWait])])%list.
  eapply (run_snoc _ _ _ _ _
            (mkState (mkShared [0%nat] [] (upd 0 Example.task_a (fun _ => emptyTask)) 0)
               [mkWorker [] PTop] DWait)).
  - eapply (run_snoc _ _ _ _ _
              (mkState (mkShared [0%nat] [] (upd 0 Example.task_a (fun _ => emptyTask)) 0)
                 [mkWorker [] PTop] (DSeed (Single "b") []))).
    + eapply run_snoc; [exact example_copied|].
      refine (step_worker _ _ _ 0%nat (mkWorker [] PDone) [EDone]
                _ (mkWorker [] PTop) _ [mkWorker [] PDone] _ eq_refl _).
      exact (W_done Example.cfg1 [] [0%nat] [] _ 1).
    + apply step_driver. apply D_seeded.
  - apply step_driver. apply D_wait.
Qed.

Lemma quiescent_at_return_witness :
  copyTasks (sh RunExample.returned) = [] /\
  freeCopyTasks (sh RunExample.returned) ≡ₚ seq 0 (capacity Example.cfg1).
Proof.
  destruct (quiescent_at_return (H := Example.lib) Example.stat Example.stat Example.cfg1
              ["a"] "b" RunExample.returning RunExample.returned example_returned eq_refl)
    as (Hq & _ & _ & Hfree & _).
  split; assumption.
Defined.

(** * The earlier iteration *)

Module Part001Facts.
Import Part001.

Section BodyFacts.
Context (filename : string) (verbosity : Z).

(** The earlier worker gives a destination the mode of its source as it is,
    for a directory at [os.Mkdir] and for a regular file at [os.Chmod]; it
    never reads or makes a symbolic link; and an entry that is neither a
    directory nor a regular file is passed over: no call is made for it and
    nothing is reported, though it is counted as done. *)
Theorem earlier_worker_keeps_modes_and_skips_links (t : copyTask) (fi : FileInfo)
    (tr : list event) (o : outcome) :
  srcfi t = Some fi ->
  runs (runTask filename verbosity t) tr o ->
  (forall p m r, In (EMkdir p m r) tr -> p = dst t /\ m = Mode fi /\ IsDir fi = true) /\
  (forall p m r, In (EChmod p m r) tr -> p = dst t /\ m = Mode fi /\ IsDir fi = false) /\
  (forall e, In e tr -> match e with EReadlink _ _ | ESymlink _ _ _ => False | _ => True end) /\
  (IsDir fi = false -> FileMode.IsRegular (Mode fi) = false ->
   o = Finish /\
   tr = if 0 <? verbosity then [EMsgs (src t ++ " -> " ++ dst t)] else []).
Proof.
  intros Hfi Hr. unfold runTask, copyDir, copyRegular, report in Hr.
  rewrite Hfi in Hr.
  runs_inv; cbn [log app];
    (split; [|split; [|split]]);
    try (intros p m r Hin; simpl in Hin; destruct_or?; simplify_eq; try contradiction;
         auto);
    try (intros ev Hin; simpl in Hin; destruct_or?; simplify_eq; try contradiction;
         exact I);
    try (intros Hd Hreg; try discriminate; split; reflexivity).
Qed.

End BodyFacts.

Section SeedFacts.
Context (filename : string).
Context (os_Lstat : string -> result FileInfo).

(** [main] submits a task only for a source that is a directory, and then
    unless the destination exists and is no directory; a source that exists
    and is no directory is passed over in silence, so that the program copies
    nothing and ends without an error. It reports at most one line. *)
Theorem main_copies_directories_only :
  (forall t, snd (seed filename os_Lstat) = Some t ->
     exists srcfi, os_Lstat main_src = Ok srcfi /\ IsDir srcfi = true /\
       t = mkTask main_src main_dst (Some srcfi) /\
       match os_Lstat main_dst with
       | Ok dstfi => IsDir dstfi = true
       | Err _ => True
       end) /\
  (forall srcfi, os_Lstat main_src = Ok srcfi -> IsDir srcfi = false ->
     seed filename os_Lstat = ([ELstat main_src (Ok srcfi)], None)) /\
  (length (errLines (fst (seed filename os_Lstat))) <= 1)%nat.
Proof.
  unfold seed. cbv zeta. split; [|split].
  - intros t.
    destruct (os_Lstat main_src) as [srcfi|err]; [|discriminate].
    destruct (IsDir srcfi) eqn:Hdir; [|discriminate].
    destruct (os_Lstat main_dst) as [dstfi|err'].
    + destruct (IsDir dstfi) eqn:Hd; simpl; [|discriminate].
      intros [= <-]. exists srcfi. auto.
    + intros [= <-]. exists srcfi. auto.
  - intros srcfi -> ->. reflexivity.
  - destruct (os_Lstat main_src) as [srcfi|err]; [|simpl; lia].
    destruct (IsDir srcfi); [|simpl; lia].
    destruct (os_Lstat main_dst) as [dstfi|err']; [|simpl; lia].
    destruct (IsDir dstfi); simpl; lia.
Qed.

End SeedFacts.

End Part001Facts.

Lemma earlier_worker_keeps_modes_and_skips_links_witness :
  Finish = Finish /\
  @nil event =
  (if 0 <? 0 then [EMsgs (src Example.task_l ++ " -> " ++ dst Example.task_l)] else []).
Proof.
  assert (Hr : runs (Part001.runTask "main.go" 0 Example.task_l) [] Finish).
  { vm_compute. split; reflexivity. }
  exact (proj2 (proj2 (proj2
           (Part001Facts.earlier_worker_keeps_modes_and_skips_links
              "main.go" 0 Example.task_l Example.link_l [] Finish
              eq_refl Hr))) eq_refl eq_refl).
Defined.
